(** * mexhat.cpp: the sombrero mesh builder and the per-frame transform math

    A shallow embedding of [src/mexhat.cpp].  C [float] is IEEE-754 binary32,
    modelled with the Standard Library's [spec_float] at precision 24 and
    maximal exponent 128; every arithmetic operation rounds to nearest-even
    once (no contraction, no excess precision).  C [int] is a 32-bit signed
    integer, modelled in [Z]; an overflowing signed expression has no defined
    result.  [GLushort] is a 16-bit unsigned integer, conversion to it wraps
    modulo 2^16. *)

From Stdlib Require Import Reals Lra Psatz.
From Stdlib Require Import ZArith List Bool Lia QArith Qabs.
From Stdlib Require Import SpecFloat Machin.
Import ListNotations.

Local Open Scope Z_scope.

(** ** binary32 *)

Definition pow2 (e : Z) : R := powerRZ 2 e.

Arguments pow2 : simpl never.

Module F32.

Definition prec : Z := 24.
Definition emax : Z := 128.

Definition float := spec_float.

Definition add : float -> float -> float := SFadd prec emax.
Definition sub : float -> float -> float := SFsub prec emax.
Definition mul : float -> float -> float := SFmul prec emax.
Definition div : float -> float -> float := SFdiv prec emax.
Definition sqrt : float -> float := SFsqrt prec emax.
Definition neg : float -> float := SFopp.
Definition abs : float -> float := SFabs.

(** C's [<] and [>]: false as soon as one side is a NaN. *)
Definition ltb (x y : float) : bool := SFltb x y.
Definition gtb (x y : float) : bool := SFltb y x.
Definition leb (x y : float) : bool := SFleb x y.
Definition eqb (x y : float) : bool := SFeqb x y.

(** Conversion [float(n)] of an [int]. *)
Definition of_int (n : Z) : float := binary_normalize prec emax n 0 false.

(** A decimal literal [p/q]: the binary32 value nearest to the quotient. *)
Definition of_ratio (p q : positive) : float :=
  SFdiv prec emax (S754_finite false p 0) (S754_finite false q 0).

Definition is_nan (x : float) : bool :=
  match x with S754_nan => true | _ => false end.

(** [x] is a finite binary32 number: a zero, or a mantissa and an exponent
    in canonical form. *)
Definition finite (x : float) : bool :=
  match x with
  | S754_zero _ => true
  | S754_finite _ m e => SpecFloat.bounded 24 128 m e
  | _ => false
  end.

Definition Bsign (x : float) : bool :=
  match x with
  | S754_zero s | S754_infinity s | S754_finite s _ _ => s
  | S754_nan => false
  end.

(** Magnitude and value of a finite float, as real numbers. *)
Definition Babs (x : float) : R :=
  match x with
  | S754_finite _ m e => (IZR (Zpos m) * pow2 e)%R
  | _ => 0%R
  end.

Definition B2R (x : float) : R := if Bsign x then (- Babs x)%R else Babs x.

(** The exact value of a finite float, as a rational. *)
Definition to_Q (x : float) : Q :=
  match x with
  | S754_finite s m e =>
      let v := (inject_Z (Zpos m) * Qpower 2 e)%Q in
      if s then Qopp v else v
  | _ => 0%Q
  end.

Definition zero : float := S754_zero false.
Definition one : float := Eval vm_compute in of_int 1.
Definition nan : float := S754_nan.

End F32.

Abbreviation float := F32.float.

Declare Scope f32_scope.
Delimit Scope f32_scope with f32.
Infix "+" := F32.add : f32_scope.
Infix "-" := F32.sub : f32_scope.
Infix "*" := F32.mul : f32_scope.
Infix "/" := F32.div : f32_scope.
Notation "- x" := (F32.neg x) : f32_scope.
Infix "<?" := F32.ltb : f32_scope.
Infix ">?" := F32.gtb : f32_scope.
Infix "<=?" := F32.leb : f32_scope.
Infix "=?" := F32.eqb : f32_scope.

(** The float literals of the source. *)
Module Lit.
Definition f0_0 : float := F32.zero.
Definition f1_0 : float := F32.one.
Definition f0_25 : float := Eval vm_compute in F32.of_ratio 1 4.
Definition f0_50 : float := Eval vm_compute in F32.of_ratio 1 2.
Definition f0_75 : float := Eval vm_compute in F32.of_ratio 3 4.
Definition f1_5 : float := Eval vm_compute in F32.of_ratio 3 2.
Definition f2_0 : float := Eval vm_compute in F32.of_int 2.
Definition f1e9 : float := Eval vm_compute in F32.of_int 1000000000.
Definition f1em4 : float := Eval vm_compute in F32.of_ratio 1 10000.
Definition f1em6 : float := Eval vm_compute in F32.of_ratio 1 1000000.
Definition f0_1 : float := Eval vm_compute in F32.of_ratio 1 10.
Definition f50_0 : float := Eval vm_compute in F32.of_int 50.
Definition f60_0 : float := Eval vm_compute in F32.of_int 60.
Definition f180_0 : float := Eval vm_compute in F32.of_int 180.
Definition f3_1415926 : float := Eval vm_compute in F32.of_ratio 31415926 10000000.
Definition f0_9 : float := Eval vm_compute in F32.of_ratio 9 10.
Definition f4_5 : float := Eval vm_compute in F32.of_ratio 9 2.
Definition f0_02 : float := Eval vm_compute in F32.of_ratio 2 100.
Definition f6_0 : float := Eval vm_compute in F32.of_int 6.
End Lit.

(** Powers of two used as bounds. *)
Module Bound.
Definition p114 : float := S754_finite false 8388608 91.
Definition p126 : float := S754_finite false 8388608 103.
Definition p127 : float := S754_finite false 8388608 104.
End Bound.

(** ** Machine integers *)

Module Int.

Definition int_min : Z := - 2 ^ 31.
Definition int_max : Z := 2 ^ 31 - 1.

Definition in_range (z : Z) : bool := (int_min <=? z) && (z <=? int_max).

(** Signed [int] multiplication; [None] when the product overflows
    (undefined behaviour in C++). *)
Definition mul (a b : Z) : option Z :=
  if in_range (a * b) then Some (a * b) else None.

(** Conversion to [GLushort] (16-bit unsigned): reduction modulo 2^16. *)
Definition to_ushort (z : Z) : Z := z mod 2 ^ 16.

End Int.

Definition bind {A B : Type} (o : option A) (k : A -> option B) : option B :=
  match o with
  | Some a => k a
  | None => None
  end.

Notation "x <- e ;; k" := (bind e (fun x => k))
  (at level 61, e at next level, right associativity).

(** The loop counters [0, 1, ..., n-1] of [for (int k=0; k<n; ++k)]. *)
Definition upto (n : Z) : list Z := map Z.of_nat (seq 0 (Z.to_nat n)).

(** ** Column-major 4x4 matrices *)

Definition Mat4 := list float.

Definition get (A : Mat4) (i : Z) : float := nth (Z.to_nat i) A F32.nan.

Fixpoint set_nat (A : Mat4) (i : nat) (v : float) : Mat4 :=
  match A, i with
  | [], _ => []
  | _ :: A', O => v :: A'
  | a :: A', S i' => a :: set_nat A' i' v
  end.

Definition set (A : Mat4) (i : Z) (v : float) : Mat4 := set_nat A (Z.to_nat i) v.

(** [Mat4 A{}]: sixteen zeros. *)
Definition mat_zero : Mat4 := repeat F32.zero 16.

Definition identity : Mat4 :=
  fold_left (fun A i => set A i (if i mod 5 =? 0 then Lit.f1_0 else Lit.f0_0))
            (upto 16) mat_zero.

Definition mul (A B : Mat4) : Mat4 :=
  fold_left (fun R r =>
    fold_left (fun R c =>
      set R (c * 4 + r)
        (get A (0 * 4 + r) * get B (c * 4 + 0) + get A (1 * 4 + r) * get B (c * 4 + 1)
         + get A (2 * 4 + r) * get B (c * 4 + 2) + get A (3 * 4 + r) * get B (c * 4 + 3))%f32)
      (upto 4) R)
    (upto 4) mat_zero.

Definition translate (x y z : float) : Mat4 :=
  let T := identity in
  let T := set T 12 x in
  let T := set T 13 y in
  set T 14 z.

Section Libm.

(** The [<cmath>] functions the program calls; they are not part of the
    repository and stay parameters of the model. *)
Variable sinf cosf tanf : float -> float.

Definition perspective (fovy aspect znear zfar : float) : Mat4 :=
  let f := (Lit.f1_0 / tanf (fovy * Lit.f0_50))%f32 in
  let P := mat_zero in
  let P := set P 0 (f / aspect)%f32 in
  let P := set P 5 f in
  let P := set P 10 ((zfar + znear) / (znear - zfar))%f32 in
  let P := set P 11 (- Lit.f1_0)%f32 in
  set P 14 ((Lit.f2_0 * zfar * znear) / (znear - zfar))%f32.

Definition rotateY (a : float) : Mat4 :=
  let R := identity in
  let c := cosf a in
  let s := sinf a in
  let R := set R 0 c in
  let R := set R 2 s in
  let R := set R 8 (- s)%f32 in
  set R 10 c.

Definition rotateX (a : float) : Mat4 :=
  let R := identity in
  let c := cosf a in
  let s := sinf a in
  let R := set R 5 c in
  let R := set R 6 s in
  let R := set R 9 (- s)%f32 in
  set R 10 c.

(** The matrices a frame of [main] builds from the angle and the viewport. *)
Definition frame_aspect (w h : Z) : float :=
  if h >? 0 then (F32.of_int w / F32.of_int h)%f32 else Lit.f1_0.

Definition frame_projection (w h : Z) : Mat4 :=
  perspective (Lit.f60_0 * (Lit.f3_1415926 / Lit.f180_0))%f32 (frame_aspect w h)
              Lit.f0_1 Lit.f50_0.

Definition frame_view : Mat4 := translate Lit.f0_0 Lit.f0_0 (- Lit.f4_5)%f32.

Definition frame_angleY (ang : float) : float := (ang * Lit.f0_9)%f32.
Definition frame_angleX (ang : float) : float := (ang * Lit.f0_50)%f32.

Definition frame_rotation (ang : float) : Mat4 :=
  mul (rotateY (frame_angleY ang)) (rotateX (frame_angleX ang)).

Definition frame_MVP (w h : Z) (ang : float) : Mat4 :=
  mul (frame_projection w h) (mul frame_view (frame_rotation ang)).

(** ** The mesh builder *)

(** What [makeSombrero] uploads: the contents of the three buffers and the
    index count stored in the [Mesh]. *)
Record MeshData := {
  pos : list float;
  col : list float;
  idx : list Z;
  indexCount : Z
}.

(** State of the first pass. *)
Record Pass1 := {
  p_pos : list float;
  p_zs : list float;
  p_zmin : float;
  p_zmax : float
}.

(** [r = sqrtf(x*x + y*y); if (r < 1e-4f) r = 1e-4f;] *)
Definition sample_radius (x y : float) : float :=
  let r := F32.sqrt (x * x + y * y)%f32 in
  if (r <? Lit.f1em4)%f32 then Lit.f1em4 else r.

(** [z = zscale * (sinf(freq*r)/r)] *)
Definition sample_height (zscale freq x y : float) : float :=
  let r := sample_radius x y in
  (zscale * (sinf (freq * r) / r))%f32.

(** [xmin + t*(xmax-xmin)] with [xmin = -radius], [xmax = radius]. *)
Definition grid_coord (N : Z) (radius : float) (k : Z) : float :=
  let t := (F32.of_int k / F32.of_int (N - 1))%f32 in
  ((- radius) + t * (radius - (- radius)))%f32.

(** Body of the inner loop of the first pass. *)
Definition sample_step (N : Z) (radius zscale freq : float) (y : float)
    (st : Pass1) (i : Z) : Pass1 :=
  let x := grid_coord N radius i in
  let z := sample_height zscale freq x y in
  let zmin := if (z <? p_zmin st)%f32 then z else p_zmin st in
  let zmax := if (z >? p_zmax st)%f32 then z else p_zmax st in
  {| p_pos := p_pos st ++ [((x / radius) * Lit.f1_5)%f32;
                           ((y / radius) * Lit.f1_5)%f32; z];
     p_zs := p_zs st ++ [z];
     p_zmin := zmin;
     p_zmax := zmax |}.

Definition sample_row (N : Z) (radius zscale freq : float) (st : Pass1) (j : Z)
    : Pass1 :=
  let y := grid_coord N radius j in
  fold_left (sample_step N radius zscale freq y) (upto N) st.

Definition sample_pass (N : Z) (radius zscale freq : float) : Pass1 :=
  fold_left (sample_row N radius zscale freq) (upto N)
    {| p_pos := []; p_zs := []; p_zmin := Lit.f1e9; p_zmax := (- Lit.f1e9)%f32 |}.

(** [range = zmax - zmin; if (range < 1e-6f) range = 1.0f;] *)
Definition height_range (zmin zmax : float) : float :=
  let range := (zmax - zmin)%f32 in
  if (range <? Lit.f1em6)%f32 then Lit.f1_0 else range.

(** The colour ramp applied to the normalised height [t]. *)
Definition ramp (t : float) : float * float * float :=
  if (t <? Lit.f0_25)%f32 then
    let k := (t / Lit.f0_25)%f32 in (Lit.f0_0, k, Lit.f1_0)
  else if (t <? Lit.f0_50)%f32 then
    let k := ((t - Lit.f0_25) / Lit.f0_25)%f32 in (Lit.f0_0, Lit.f1_0, (Lit.f1_0 - k)%f32)
  else if (t <? Lit.f0_75)%f32 then
    let k := ((t - Lit.f0_50) / Lit.f0_25)%f32 in (k, Lit.f1_0, Lit.f0_0)
  else
    let k := ((t - Lit.f0_75) / Lit.f0_25)%f32 in (Lit.f1_0, (Lit.f1_0 - k)%f32, Lit.f0_0).

Definition normalised (zmin range z : float) : float := ((z - zmin) / range)%f32.

Definition color_step (zs : list float) (zmin range : float)
    (col : list float) (v : Z) : list float :=
  let t := normalised zmin range (nth (Z.to_nat v) zs F32.nan) in
  let '(r, g, b) := ramp t in
  col ++ [r; g; b].

Definition color_pass (V : Z) (zs : list float) (zmin range : float) : list float :=
  fold_left (color_step zs zmin range) (upto V) [].

(** The six indices of cell [(i, j)]: triangles [a c b] and [b c d]. *)
Definition cell_indices (N j i : Z) : list Z :=
  let a := Int.to_ushort (j * N + i) in
  let b := Int.to_ushort (j * N + (i + 1)) in
  let c := Int.to_ushort ((j + 1) * N + i) in
  let d := Int.to_ushort ((j + 1) * N + (i + 1)) in
  [a; c; b; b; c; d].

Definition index_row (N : Z) (idx : list Z) (j : Z) : list Z :=
  fold_left (fun idx i => idx ++ cell_indices N j i) (upto (N - 1)) idx.

Definition index_pass (N : Z) : list Z :=
  fold_left (index_row N) (upto (N - 1)) [].

Definition clamp_resolution (N : Z) : Z := if N <? 3 then 3 else N.

(** [makeSombrero]; [None] when one of its [int] expressions overflows:
    [N*N], [V*3] and [(N-1)*(N-1)*6].  The index expressions [j*N+i] stay
    below [N*N] and the loop counters below [N]. *)
Definition makeSombrero (N : Z) (radius zscale freq : float) : option MeshData :=
  let N := clamp_resolution N in
  V <- Int.mul N N ;;
  _ <- Int.mul V 3 ;;
  let st := sample_pass N radius zscale freq in
  let range := height_range (p_zmin st) (p_zmax st) in
  let col := color_pass V (p_zs st) (p_zmin st) range in
  q <- Int.mul (N - 1) (N - 1) ;;
  _ <- Int.mul q 6 ;;
  let idx := index_pass N in
  Some {| pos := p_pos st; col := col; idx := idx;
          indexCount := Z.of_nat (length idx) |}.

End Libm.

(** A polynomial stand-in for [sinf] and [cosf], used where an example
    needs the libm parameters instantiated. *)
Definition sin_poly (x : float) : float :=
  let x2 := (x * x)%f32 in
  (x * (F32.one - x2 / F32.of_int 6 * (F32.one - x2 / F32.of_int 20)))%f32.

Definition cos_poly (x : float) : float :=
  let x2 := (x * x)%f32 in
  (F32.one - x2 / F32.of_int 2 * (F32.one - x2 / F32.of_int 12))%f32.

(** ** Views of the builder used to state its properties *)

(** Height and position of the vertex of row [j] and column [i]. *)
Definition vertex_height (sinf : float -> float) (N : Z) (radius zscale freq : float)
    (j i : Z) : float :=
  sample_height sinf zscale freq (grid_coord N radius i) (grid_coord N radius j).

Definition vertex_x (N : Z) (radius : float) (k : Z) : float :=
  ((grid_coord N radius k / radius) * Lit.f1_5)%f32.

Definition vertex_pos (sinf : float -> float) (N : Z) (radius zscale freq : float)
    (j i : Z) : list float :=
  [vertex_x N radius i; vertex_x N radius j; vertex_height sinf N radius zscale freq j i].

Definition grid_heights (sinf : float -> float) (N : Z) (radius zscale freq : float)
    : list float :=
  flat_map (fun j => flat_map (fun i => [vertex_height sinf N radius zscale freq j i])
                                (upto N)) (upto N).

(** Running minimum and maximum, as the first pass updates them. *)
Definition track_min (zmin z : float) : float := if (z <? zmin)%f32 then z else zmin.
Definition track_max (zmax z : float) : float := if (z >? zmax)%f32 then z else zmax.

Definition vertex_color (zs : list float) (zmin range : float) (v : Z) : list float :=
  let '(r, g, b) := ramp (normalised zmin range (nth (Z.to_nat v) zs F32.nan)) in
  [r; g; b].

(** The largest resolution for which every [int] expression of
    [makeSombrero] is defined: [(N-1)*(N-1)*6] overflows from 18920 on. *)
Definition max_resolution : Z := 18919.

(** The mesh built for an already clamped resolution. *)
Definition mesh_of (sinf : float -> float) (N : Z) (radius zscale freq : float)
    : MeshData :=
  let st := sample_pass sinf N radius zscale freq in
  let range := height_range (p_zmin st) (p_zmax st) in
  {| pos := p_pos st;
     col := color_pass (N * N) (p_zs st) (p_zmin st) range;
     idx := index_pass N;
     indexCount := Z.of_nat (length (index_pass N)) |}.

Definition vertex_count (m : MeshData) : Z := Z.of_nat (length (pos m)) / 3.
Definition color_count (m : MeshData) : Z := Z.of_nat (length (col m)) / 3.
Definition index_count (m : MeshData) : Z := Z.of_nat (length (idx m)).

(** The [c] entries a buffer stores for element [k]. *)
Definition chunk {A : Type} (c : nat) (l : list A) (k : Z) : list A :=
  firstn c (skipn (c * Z.to_nat k) l).

(** Position and colour stored for vertex [v], indices stored for cell
    [(i, j)]. *)
Definition position_of (m : MeshData) (v : Z) : list float := chunk 3 (pos m) v.
Definition color_of (m : MeshData) (v : Z) : list float := chunk 3 (col m) v.
Definition cell_of (l : list Z) (N j i : Z) : list Z := chunk 6 l (j * (N - 1) + i).

(** The grid positions the indices of cell [(i, j)] are meant to name. *)
Definition grid_corners (N j i : Z) : list Z :=
  let a := j * N + i in
  let b := j * N + (i + 1) in
  let c := (j + 1) * N + i in
  let d := (j + 1) * N + (i + 1) in
  [a; c; b; b; c; d].

(** The height stored for vertex [v]; lowest and highest vertices. *)
Definition height_of (m : MeshData) (v : Z) : float := nth 2 (position_of m v) F32.nan.

Definition lowest (m : MeshData) (v : Z) : Prop :=
  forall u, 0 <= u < vertex_count m ->
    (height_of m v <=? height_of m u)%f32 = true.

Definition highest (m : MeshData) (v : Z) : Prop :=
  forall u, 0 <= u < vertex_count m ->
    (height_of m u <=? height_of m v)%f32 = true.

(** Every stored height is a finite number of magnitude at most 2^126. *)
Definition heights_bounded (m : MeshData) : Prop :=
  forall v, 0 <= v < vertex_count m ->
    F32.finite (height_of m v) = true /\
    (F32.abs (height_of m v) <=? Bound.p126)%f32 = true.

(** A colour component in the interval from 0 to 1. *)
Definition unit_float (c : float) : Prop :=
  F32.finite c = true /\ (0 <= F32.B2R c <= 1)%R.

Definition in_unit (c : float) : bool :=
  F32.finite c && (Lit.f0_0 <=? c)%f32 && (c <=? Lit.f1_0)%f32.

Definition indices_exact (N : Z) (m : MeshData) : Prop :=
  forall j i, 0 <= j < N - 1 -> 0 <= i < N - 1 ->
    cell_of (idx m) N j i = grid_corners N j i.

(** ** Rounding to binary32 *)

(** Round to nearest integer, ties to even. *)
Definition nearest_even (x : R) (n : Z) : Prop :=
  (x - / 2 <= IZR n <= x + / 2)%R /\
  ((IZR n = x - / 2 \/ IZR n = x + / 2)%R -> Z.even n = true).

Definition fexp32 (e : Z) : Z := Z.max (e - 24) (-149).

(** [x] lies in [[m, m+1)] at the place the location says. *)
Definition inbetween (x : R) (m : Z) (l : location) : Prop :=
  match l with
  | loc_Exact => x = IZR m
  | loc_Inexact Lt => (IZR m < x < IZR m + / 2)%R
  | loc_Inexact Eq => x = (IZR m + / 2)%R
  | loc_Inexact Gt => (IZR m + / 2 < x < IZR m + 1)%R
  end.

Definition binade (v : R) (e : Z) : Prop :=
  -149 <= e /\ (v < pow2 (e + 24))%R /\ (e = -149 \/ (pow2 (e + 23) <= v)%R).

(** [f] is [v >= 0] rounded to the nearest binary32 value, ties to even,
    with no bound on the exponent. *)
Definition rounded (v f : R) : Prop :=
  exists e n, binade v e /\ nearest_even (v / pow2 e) n /\ f = (IZR n * pow2 e)%R.

(** The float [r] has sign [s] and magnitude [f] (infinite from 2^128 on). *)
Definition encodes (s : bool) (f : R) (r : spec_float) : Prop :=
  match r with
  | S754_zero s' => s' = s /\ f = 0%R
  | S754_finite s' m e =>
      s' = s /\ f = (IZR (Zpos m) * pow2 e)%R /\ SpecFloat.bounded 24 128 m e = true
  | S754_infinity s' => s' = s /\ (pow2 128 <= f)%R
  | S754_nan => False
  end.

Definition roundedS (v f : R) : Prop :=
  ((0 <= v)%R /\ rounded v f) \/ ((v <= 0)%R /\ rounded (- v) (- f)).

Definition signed (s : bool) (v : R) : R := if s then (- v)%R else v.

(** What an operation whose exact result is [v] returns in [r]. *)
Definition returns (v : R) (r : spec_float) : Prop :=
  exists f, roundedS v f /\
    ((Rabs f < pow2 128)%R -> F32.finite r = true /\ F32.B2R r = f) /\
    ((pow2 128 <= Rabs f)%R -> r = S754_infinity (F32.Bsign r)).

Definition Rcmp (c : option comparison) (a b : R) : Prop :=
  match c with
  | Some Lt => (a < b)%R
  | Some Eq => a = b
  | Some Gt => (b < a)%R
  | None => False
  end.

(** ** Matrix shapes and the frame loop *)

(** [x] is a finite float of value [v]. *)
Definition valued (x : float) (v : R) : Prop :=
  F32.finite x = true /\ F32.B2R x = v.

(** All sixteen entries are finite. *)
Definition finite_matrix (A : Mat4) : Prop :=
  forall k, 0 <= k < 16 -> F32.finite (get A k) = true.

(** The bottom row is (0, 0, 0, 1): the matrix is an affine map. *)
Definition affine (A : Mat4) : Prop :=
  forall c, 0 <= c < 4 ->
    F32.eqb (get A (c * 4 + 3)) (if c =? 3 then Lit.f1_0 else Lit.f0_0) = true.

(** The last column is (0, 0, 0, 1): the matrix fixes the origin. *)
Definition fixes_origin (A : Mat4) : Prop :=
  forall r, 0 <= r < 4 ->
    F32.eqb (get A (3 * 4 + r)) (if r =? 3 then Lit.f1_0 else Lit.f0_0) = true.

(** Powers of two bounding the aspect ratio and the frame angle. *)
Module Limit.
Definition p31 : float := S754_finite false 8388608 8.
Definition pm31 : float := S754_finite false 8388608 (-54).
Definition p19 : float := S754_finite false 8388608 (-4).
End Limit.

(** [ang += 0.02f] *)
Definition next_angle (ang : float) : float := (ang + Lit.f0_02)%f32.

(** The angle at the start of frame [n]: [ang = 0.0f] and [ang += 0.02f]
    at the end of every frame. *)
Definition frame_angle (n : nat) : float := Nat.iter n next_angle Lit.f0_0.

(** ** Reference values and stand-ins for the examples *)

(** Parameters used in examples. *)
Module Sample.
Definition f1em5 : float := Eval vm_compute in F32.of_ratio 1 100000.
Definition f3e9 : float := Eval vm_compute in F32.of_int 3000000000.
Definition fm3e9 : float := Eval vm_compute in F32.of_int (-3000000000).
Definition f4_0 : float := Eval vm_compute in F32.of_int 4.
(** 7 * 2^125, about 2.98e38. *)
Definition f7p125 : float := S754_finite false 14680064 104.
(** 2^64 and 2^115. *)
Definition p64 : float := S754_finite false 8388608 41.
Definition p115 : float := S754_finite false 8388608 92.
End Sample.

(** The polynomial sine carried to degree 15, for examples that need the
    sign of the sine beyond pi. *)
Definition sin_horner (x : float) : float :=
  let x2 := (x * x)%f32 in
  (x * (F32.one - x2 / F32.of_int 6 * (F32.one - x2 / F32.of_int 20 *
       (F32.one - x2 / F32.of_int 42 * (F32.one - x2 / F32.of_int 72 *
       (F32.one - x2 / F32.of_int 110 * (F32.one - x2 / F32.of_int 156 *
       (F32.one - x2 / F32.of_int 210))))))))%f32.

(** A sine that stays within [-1, 1]: the polynomial where it does, zero
    elsewhere. *)
Definition sin_unit (x : float) : float :=
  let s := sin_poly x in
  if F32.finite s && (F32.abs s <=? Lit.f1_0)%f32 then s else F32.zero.



(** * Loops that only append *)

Section Append.
Context {A B : Type}.

Lemma fold_left_app_flat_map (f : B -> list A) (l : list B) (init : list A) :
  fold_left (fun acc x => acc ++ f x) l init = init ++ flat_map f l.
Proof.
  revert init; induction l as [|x l IH]; intros init; simpl.
  - now rewrite app_nil_r.
  - now rewrite IH, app_assoc.
Qed.

Lemma length_flat_map_uniform (f : B -> list A) (c : nat) (l : list B) :
  (forall x, In x l -> length (f x) = c) ->
  length (flat_map f l) = (length l * c)%nat.
Proof.
  induction l as [|x l IH]; intros H; simpl; [reflexivity|].
  rewrite length_app, H by (now left).
  rewrite IH by (intros; apply H; now right). reflexivity.
Qed.

Lemma skipn_flat_map_uniform (f : B -> list A) (c : nat) (l : list B) (n : nat) :
  (forall x, In x l -> length (f x) = c) ->
  skipn (n * c) (flat_map f l) = flat_map f (skipn n l).
Proof.
  revert l; induction n as [|n IH]; intros l H; simpl; [reflexivity|].
  destruct l as [|x l]; simpl.
  - now rewrite skipn_nil.
  - assert (Hx : length (f x) = c) by (apply H; now left).
    rewrite skipn_app, Hx.
    rewrite skipn_all2 by lia. simpl.
    replace (c + n * c - c)%nat with (n * c)%nat by lia.
    apply IH. intros; apply H; now right.
Qed.

Lemma firstn_app_exact (l1 l2 : list A) : firstn (length l1) (l1 ++ l2) = l1.
Proof.
  rewrite firstn_app, firstn_all, Nat.sub_diag. simpl. apply app_nil_r.
Qed.

End Append.

Lemma fold_left_proj_app {S B A : Type} (proj : S -> list A) (step : S -> B -> S)
    (g : B -> list A) :
  (forall st x, proj (step st x) = proj st ++ g x) ->
  forall l st, proj (fold_left step l st) = proj st ++ flat_map g l.
Proof.
  intros H l; induction l as [|x l IH]; intros st; simpl.
  - now rewrite app_nil_r.
  - now rewrite IH, H, app_assoc.
Qed.

Lemma fold_left_proj_fold {S B A C : Type} (proj : S -> A) (step : S -> B -> S)
    (g : B -> list C) (h : A -> C -> A) :
  (forall st x, proj (step st x) = fold_left h (g x) (proj st)) ->
  forall l st, proj (fold_left step l st) = fold_left h (flat_map g l) (proj st).
Proof.
  intros H l; induction l as [|x l IH]; intros st; simpl.
  - reflexivity.
  - now rewrite IH, H, fold_left_app.
Qed.

Lemma length_upto (n : Z) : length (upto n) = Z.to_nat n.
Proof. unfold upto. now rewrite length_map, length_seq. Qed.

Lemma In_upto (n k : Z) : In k (upto n) <-> 0 <= k < n.
Proof.
  unfold upto. rewrite in_map_iff. split.
  - intros (i & <- & Hi). apply in_seq in Hi. lia.
  - intros Hk. exists (Z.to_nat k). split; [lia|]. apply in_seq. lia.
Qed.

Lemma skipn_upto (n k : Z) :
  0 <= k < n -> exists rest, skipn (Z.to_nat k) (upto n) = k :: rest.
Proof.
  intros Hk. unfold upto.
  rewrite skipn_map, skipn_seq. simpl.
  replace (Z.to_nat n - Z.to_nat k)%nat with (S (Z.to_nat n - Z.to_nat k - 1)) by lia.
  simpl. rewrite Z2Nat.id by lia. eauto.
Qed.

(** Element [k] of a buffer filled by one loop, and element [(j, i)] of a
    buffer filled by two nested loops. *)
Lemma chunk_flat_map_upto {A : Type} (f : Z -> list A) (c : nat) (n k : Z) :
  (forall x, length (f x) = c) -> 0 <= k < n ->
  chunk c (flat_map f (upto n)) k = f k.
Proof.
  intros Hc Hk. unfold chunk. rewrite Nat.mul_comm.
  rewrite (skipn_flat_map_uniform f c) by (intros; apply Hc).
  destruct (skipn_upto n k Hk) as [rest ->]. simpl flat_map.
  rewrite <- (Hc k). apply firstn_app_exact.
Qed.

Lemma chunk_grid {A : Type} (f : Z -> Z -> list A) (c : nat) (n rows j i : Z) :
  (forall j i, length (f j i) = c) -> 0 <= j < rows -> 0 <= i < n ->
  chunk c (flat_map (fun j => flat_map (f j) (upto n)) (upto rows)) (j * n + i) = f j i.
Proof.
  intros Hc Hj Hi. unfold chunk.
  replace (c * Z.to_nat (j * n + i))%nat
    with (Z.to_nat i * c + Z.to_nat j * (Z.to_nat n * c))%nat by nia.
  rewrite <- skipn_skipn.
  rewrite (skipn_flat_map_uniform _ (Z.to_nat n * c)).
  2:{ intros x _. rewrite (length_flat_map_uniform _ c) by (intros; apply Hc).
      now rewrite length_upto. }
  destruct (skipn_upto rows j Hj) as [rest ->]. simpl flat_map.
  rewrite skipn_app.
  rewrite (skipn_flat_map_uniform _ c) by (intros; apply Hc).
  destruct (skipn_upto n i Hi) as [rest' ->]. simpl flat_map.
  rewrite <- app_assoc, <- (Hc j i). apply firstn_app_exact.
Qed.

Lemma chunk_1_nth {A : Type} (l : list A) (k : Z) (x d : A) :
  chunk 1 l k = [x] -> nth (Z.to_nat k) l d = x.
Proof.
  unfold chunk. rewrite Nat.mul_1_l. generalize (Z.to_nat k) as n.
  induction l as [|a l IH]; intros n H.
  - rewrite skipn_nil in H. discriminate.
  - destruct n as [|n]; simpl in *; [congruence|]. now apply IH.
Qed.

Lemma In_grid {A : Type} (f : Z -> Z -> A) (n rows : Z) (x : A) :
  In x (flat_map (fun j => flat_map (fun i => [f j i]) (upto n)) (upto rows)) ->
  exists j i, 0 <= j < rows /\ 0 <= i < n /\ x = f j i.
Proof.
  intros H. apply in_flat_map in H as (j & Hj & H).
  apply in_flat_map in H as (i & Hi & H).
  destruct H as [<-|[]]. apply In_upto in Hj, Hi. eauto.
Qed.

(** * Real values of binary32 numbers *)

Lemma pow2_pos e : (0 < pow2 e)%R.
Proof. apply powerRZ_lt. lra. Qed.

Lemma pow2_add a b : pow2 (a + b) = (pow2 a * pow2 b)%R.
Proof. apply powerRZ_add. lra. Qed.

Lemma pow2_0 : pow2 0 = 1%R.
Proof. reflexivity. Qed.

Lemma pow2_1 : pow2 1 = 2%R.
Proof. unfold pow2. simpl. lra. Qed.

Lemma pow2_succ e : pow2 (e + 1) = (2 * pow2 e)%R.
Proof. rewrite pow2_add, pow2_1. lra. Qed.

Lemma pow2_pred e : pow2 (e - 1) = (pow2 e / 2)%R.
Proof.
  replace e with ((e - 1) + 1) at 2 by lia. rewrite pow2_succ. lra.
Qed.

Lemma pow2_sub a b : pow2 (a - b) = (pow2 a / pow2 b)%R.
Proof.
  replace a with ((a - b) + b) at 2 by lia. rewrite pow2_add.
  field. pose proof (pow2_pos b). lra.
Qed.

Lemma pow2_IZR e : 0 <= e -> pow2 e = IZR (2 ^ e).
Proof.
  intros He. unfold pow2. destruct e as [|p|p]; try lia.
  - reflexivity.
  - simpl powerRZ. rewrite pow_IZR. now rewrite positive_nat_Z.
Qed.

Lemma pow2_ge_1 e : 0 <= e -> (1 <= pow2 e)%R.
Proof.
  intros He. rewrite pow2_IZR by exact He. apply IZR_le.
  assert (0 < 2 ^ e) by (apply Z.pow_pos_nonneg; lia). lia.
Qed.

Lemma pow2_le a b : a <= b -> (pow2 a <= pow2 b)%R.
Proof.
  intros H. replace b with (a + (b - a)) by lia. rewrite pow2_add.
  pose proof (pow2_pos a). pose proof (pow2_ge_1 (b - a) ltac:(lia)). nra.
Qed.

Lemma pow2_lt a b : a < b -> (pow2 a < pow2 b)%R.
Proof.
  intros H. replace b with ((a + 1) + (b - a - 1)) by lia.
  rewrite pow2_add, pow2_succ.
  pose proof (pow2_pos a). pose proof (pow2_ge_1 (b - a - 1) ltac:(lia)). nra.
Qed.

Lemma pow2_lt_inv a b : (pow2 a < pow2 b)%R -> a < b.
Proof.
  intros H. destruct (Z_lt_le_dec a b) as [|Hle]; [assumption|].
  apply pow2_le in Hle. lra.
Qed.

Lemma pow2_le_inv a b : (pow2 a <= pow2 b)%R -> a <= b.
Proof.
  intros H. destruct (Z_lt_le_dec b a) as [Hlt|]; [|assumption].
  apply pow2_lt in Hlt. lra.
Qed.

(** Number of binary digits. *)
Lemma digits2_pos_bounds (m : positive) :
  2 ^ (Zpos (digits2_pos m) - 1) <= Zpos m < 2 ^ Zpos (digits2_pos m).
Proof.
  induction m as [m IH|m IH|]; simpl digits2_pos.
  - rewrite Pos2Z.inj_succ.
    replace (Z.succ (Zpos (digits2_pos m)) - 1) with (Zpos (digits2_pos m) - 1 + 1) by lia.
    unfold Z.succ. rewrite !Z.pow_add_r by lia. lia.
  - rewrite Pos2Z.inj_succ.
    replace (Z.succ (Zpos (digits2_pos m)) - 1) with (Zpos (digits2_pos m) - 1 + 1) by lia.
    unfold Z.succ. rewrite !Z.pow_add_r by lia. lia.
  - simpl. lia.
Qed.

Lemma digits2_pos_unique (m : positive) (d : Z) :
  2 ^ (d - 1) <= Zpos m < 2 ^ d -> Zpos (digits2_pos m) = d.
Proof.
  intros [H1 H2]. pose proof (digits2_pos_bounds m) as [H3 H4].
  assert (0 < d).
  { destruct (Z_lt_le_dec 0 d); [assumption|].
    destruct d; try lia. rewrite Z.pow_neg_r in H2; lia. }
  destruct (Z.lt_trichotomy (Zpos (digits2_pos m)) d) as [Hlt|[Heq|Hgt]];
    [exfalso|assumption|exfalso].
  - assert (2 ^ Zpos (digits2_pos m) <= 2 ^ (d - 1)) by (apply Z.pow_le_mono_r; lia).
    lia.
  - assert (2 ^ d <= 2 ^ (Zpos (digits2_pos m) - 1)) by (apply Z.pow_le_mono_r; lia).
    lia.
Qed.

Lemma nearest_even_IZR n : nearest_even (IZR n) n.
Proof. split; [lra|]. intros [H|H]; lra. Qed.

Lemma nearest_even_mono x y n k :
  (x <= y)%R -> nearest_even x n -> nearest_even y k -> n <= k.
Proof.
  intros Hxy [Hn En] [Hk Ek].
  destruct (Z_lt_le_dec k n) as [Hlt|]; [exfalso|assumption].
  assert (Hn1 : (IZR k + 1 <= IZR n)%R).
  { rewrite <- plus_IZR. apply IZR_le. lia. }
  assert (Hen : Z.even n = true) by (apply En; right; lra).
  assert (Hek : Z.even k = true) by (apply Ek; left; lra).
  assert (Hnk : IZR n = (IZR k + 1)%R) by lra.
  rewrite <- plus_IZR in Hnk. apply eq_IZR in Hnk. subst n.
  rewrite Z.even_add, Hek in Hen. discriminate.
Qed.

Lemma nearest_even_unique x n k :
  nearest_even x n -> nearest_even x k -> n = k.
Proof.
  intros Hn Hk.
  pose proof (nearest_even_mono x x n k (Rle_refl x) Hn Hk).
  pose proof (nearest_even_mono x x k n (Rle_refl x) Hk Hn). lia.
Qed.

Lemma fexp_32 e : fexp 24 128 e = fexp32 e.
Proof. reflexivity. Qed.

Lemma inbetween_bounds x m l : inbetween x m l -> (IZR m <= x < IZR m + 1)%R.
Proof. destruct l as [|[| |]]; simpl; lra. Qed.

Lemma loc_of_shr_record_of_loc m l :
  loc_of_shr_record (shr_record_of_loc m l) = l.
Proof. now destruct l as [|[| |]]. Qed.

Lemma shr_m_shr_record_of_loc m l : shr_m (shr_record_of_loc m l) = m.
Proof. now destruct l as [|[| |]]. Qed.

Lemma IZR_xO p : IZR (Zpos p~0) = (IZR (Zpos p) + IZR (Zpos p))%R.
Proof. rewrite Pos2Z.inj_xO, mult_IZR. lra. Qed.

Lemma IZR_xI p : IZR (Zpos p~1) = (IZR (Zpos p) + IZR (Zpos p) + 1)%R.
Proof. rewrite Pos2Z.inj_xI, plus_IZR, mult_IZR. lra. Qed.

Lemma shr_1_inbetween x mrs :
  0 <= shr_m mrs ->
  inbetween x (shr_m mrs) (loc_of_shr_record mrs) ->
  0 <= shr_m (shr_1 mrs) /\
  inbetween (x / 2) (shr_m (shr_1 mrs)) (loc_of_shr_record (shr_1 mrs)).
Proof.
  destruct mrs as [m r s]. simpl shr_m. intros Hm H.
  destruct m as [|p|p]; [| |lia].
  - destruct r, s; simpl in *; split; try lia; lra.
  - destruct p as [p|p|]; destruct r, s; simpl shr_1; simpl shr_m;
      cbv [loc_of_shr_record inbetween] in *;
      rewrite ?(IZR_xO p), ?(IZR_xI p) in H; (split; [lia|]); lra.
Qed.

Lemma iter_shr_1_inbetween n : forall x mrs,
  0 <= shr_m mrs ->
  inbetween x (shr_m mrs) (loc_of_shr_record mrs) ->
  0 <= shr_m (SpecFloat.iter_pos shr_1 n mrs) /\
  inbetween (x / pow2 (Zpos n)) (shr_m (SpecFloat.iter_pos shr_1 n mrs))
            (loc_of_shr_record (SpecFloat.iter_pos shr_1 n mrs)).
Proof.
  induction n as [n IH|n IH|]; intros x mrs Hm H; simpl SpecFloat.iter_pos.
  - destruct (shr_1_inbetween x mrs Hm H) as [Hm1 H1].
    destruct (IH _ _ Hm1 H1) as [Hm2 H2].
    destruct (IH _ _ Hm2 H2) as [Hm3 H3].
    split; [assumption|].
    replace (x / pow2 (Zpos n~1))%R with (x / 2 / pow2 (Zpos n) / pow2 (Zpos n))%R;
      [assumption|].
    rewrite Pos2Z.inj_xI. replace (2 * Zpos n + 1) with (Zpos n + Zpos n + 1) by lia.
    rewrite pow2_succ, pow2_add. field. pose proof (pow2_pos (Zpos n)). lra.
  - destruct (IH _ _ Hm H) as [Hm2 H2].
    destruct (IH _ _ Hm2 H2) as [Hm3 H3].
    split; [assumption|].
    replace (x / pow2 (Zpos n~0))%R with (x / pow2 (Zpos n) / pow2 (Zpos n))%R;
      [assumption|].
    rewrite Pos2Z.inj_xO. replace (2 * Zpos n) with (Zpos n + Zpos n) by lia.
    rewrite pow2_add. field. pose proof (pow2_pos (Zpos n)). lra.
  - rewrite pow2_1. now apply shr_1_inbetween.
Qed.

Lemma shr_inbetween v mrs e n :
  0 <= shr_m mrs -> 0 <= n ->
  inbetween (v / pow2 e) (shr_m mrs) (loc_of_shr_record mrs) ->
  let '(mrs', e') := shr mrs e n in
  e' = e + n /\ 0 <= shr_m mrs' /\
  inbetween (v / pow2 e') (shr_m mrs') (loc_of_shr_record mrs').
Proof.
  intros Hm Hn H. destruct n as [|p|p]; simpl; [| |lia].
  - rewrite Z.add_0_r. auto.
  - destruct (iter_shr_1_inbetween p _ _ Hm H) as [Hm' H'].
    split; [reflexivity|split; [assumption|]].
    rewrite pow2_add.
    replace (v / (pow2 e * pow2 (Zpos p)))%R with (v / pow2 e / pow2 (Zpos p))%R;
      [assumption|].
    field. pose proof (pow2_pos e). pose proof (pow2_pos (Zpos p)). lra.
Qed.

Lemma round_nearest_even_correct x m l :
  inbetween x m l -> nearest_even x (round_nearest_even m l).
Proof.
  unfold nearest_even, round_nearest_even.
  destruct l as [|[| |]]; simpl; intros H.
  - subst x. split; [lra|]. intros [E|E]; lra.
  - destruct (Z.even m) eqn:Hev.
    + split; [lra|]. intros _. exact Hev.
    + rewrite plus_IZR. split; [lra|]. intros _.
      rewrite Z.even_add, Hev. reflexivity.
  - split; [lra|]. intros [E|E]; lra.
  - rewrite plus_IZR. split; [lra|]. intros [E|E]; lra.
Qed.

Lemma Zdigits2_bounds m :
  0 < m -> (pow2 (Zdigits2 m - 1) <= IZR m)%R /\ (IZR m + 1 <= pow2 (Zdigits2 m))%R.
Proof.
  intros Hm. destruct m as [|p|p]; try lia. simpl Zdigits2.
  pose proof (digits2_pos_bounds p) as [H1 H2].
  rewrite !pow2_IZR by lia. split.
  - now apply IZR_le.
  - rewrite <- plus_IZR. apply IZR_le. lia.
Qed.

Lemma Zdigits2_nonneg m : 0 <= Zdigits2 m.
Proof. destruct m; simpl; lia. Qed.

Lemma Zdigits2_le m k : 0 <= k -> 0 <= m < 2 ^ k -> Zdigits2 m <= k.
Proof.
  intros Hk [H0 H1]. destruct m as [|p|p]; simpl; try lia.
  pose proof (digits2_pos_bounds p) as [H2 _].
  destruct (Z_lt_le_dec k (Zpos (digits2_pos p))) as [Hlt|]; [exfalso|assumption].
  assert (2 ^ k <= 2 ^ (Zpos (digits2_pos p) - 1)) by (apply Z.pow_le_mono_r; lia).
  lia.
Qed.

Lemma Zdigits2_gt m k : 0 <= k -> 2 ^ k <= m -> k < Zdigits2 m.
Proof.
  intros Hk H. assert (0 < 2 ^ k) by (apply Z.pow_pos_nonneg; lia).
  destruct m as [|p|p]; simpl; try lia.
  pose proof (digits2_pos_bounds p) as [_ H2].
  destruct (Z_lt_le_dec k (Zpos (digits2_pos p))) as [|Hle]; [assumption|exfalso].
  assert (2 ^ Zpos (digits2_pos p) <= 2 ^ k) by (apply Z.pow_le_mono_r; lia).
  lia.
Qed.

Lemma nearest_even_nonneg x n : (0 <= x)%R -> nearest_even x n -> 0 <= n.
Proof.
  intros Hx Hn. apply (nearest_even_mono 0 x 0 n Hx); [|assumption].
  apply (nearest_even_IZR 0).
Qed.

Lemma nearest_even_le x n k : (x <= IZR k)%R -> nearest_even x n -> n <= k.
Proof.
  intros Hx Hn. apply (nearest_even_mono x (IZR k) n k Hx Hn), nearest_even_IZR.
Qed.

Lemma nearest_even_ge x n k : (IZR k <= x)%R -> nearest_even x n -> k <= n.
Proof.
  intros Hx Hn. apply (nearest_even_mono (IZR k) x k n Hx); [|assumption].
  apply nearest_even_IZR.
Qed.

Lemma pow2_23 : pow2 23 = 8388608%R.
Proof. rewrite pow2_IZR by lia. reflexivity. Qed.

Lemma pow2_24 : pow2 24 = 16777216%R.
Proof. rewrite pow2_IZR by lia. reflexivity. Qed.

Lemma div_pow2_lt v e k : (v < pow2 (e + k))%R -> (v / pow2 e < pow2 k)%R.
Proof.
  intros H. rewrite pow2_add in H. pose proof (pow2_pos e).
  apply Rmult_lt_reg_r with (pow2 e); [assumption|].
  unfold Rdiv. rewrite Rmult_assoc, Rinv_l by lra. lra.
Qed.

Lemma div_pow2_ge v e k : (pow2 (e + k) <= v)%R -> (pow2 k <= v / pow2 e)%R.
Proof.
  intros H. rewrite pow2_add in H. pose proof (pow2_pos e).
  apply Rmult_le_reg_r with (pow2 e); [assumption|].
  unfold Rdiv. rewrite Rmult_assoc, Rinv_l by lra. lra.
Qed.

Lemma binary_round_aux_correct s mx ex lx v :
  0 <= mx -> inbetween (v / pow2 ex) mx lx ->
  ex <= fexp32 (Zdigits2 mx + ex) ->
  exists f, rounded v f /\ encodes s f (binary_round_aux 24 128 s mx ex lx).
Proof.
  intros Hmx Hin Hpre.
  set (e1 := fexp32 (Zdigits2 mx + ex)) in *.
  pose proof (pow2_pos ex) as Hpex.
  pose proof (inbetween_bounds _ _ _ Hin) as Hx.
  assert (Hv0 : (0 <= v / pow2 ex)%R).
  { apply IZR_le in Hmx. lra. }
  (* the binade of v *)
  assert (Hbin : binade v e1).
  { unfold binade, e1, fexp32. split; [lia|].
    destruct (Z.eq_dec mx 0) as [->|Hnz].
    - simpl Zdigits2 in *. unfold e1, fexp32 in Hpre.
      assert (ex <= -149) by lia.
      split; [|left; lia].
      apply Rlt_le_trans with (pow2 ex).
      + apply Rmult_lt_reg_r with (/ pow2 ex)%R.
        { now apply Rinv_0_lt_compat. }
        rewrite Rinv_r by lra. unfold Rdiv in Hx. simpl in Hx. lra.
      + apply pow2_le. lia.
    - destruct (Zdigits2_bounds mx ltac:(lia)) as [Hd1 Hd2].
      assert (Hlo : (pow2 (Zdigits2 mx - 1 + ex) <= v)%R).
      { rewrite pow2_add. apply Rmult_le_reg_r with (/ pow2 ex)%R.
        { now apply Rinv_0_lt_compat. }
        rewrite Rmult_assoc, Rinv_r by lra. unfold Rdiv in Hx. lra. }
      assert (Hhi : (v < pow2 (Zdigits2 mx + ex))%R).
      { rewrite pow2_add. apply Rmult_lt_reg_r with (/ pow2 ex)%R.
        { now apply Rinv_0_lt_compat. }
        rewrite Rmult_assoc, Rinv_r by lra. unfold Rdiv in Hx. lra. }
      split.
      + eapply Rlt_le_trans; [exact Hhi|]. apply pow2_le. lia.
      + destruct (Z_le_gt_dec (Zdigits2 mx + ex - 24) (-149)) as [Hs|Hn].
        * left. lia.
        * right. eapply Rle_trans; [|exact Hlo]. apply pow2_le. lia. }
  (* first shift *)
  unfold binary_round_aux, shr_fexp at 1. rewrite fexp_32. fold e1.
  pose proof (shr_inbetween v (shr_record_of_loc mx lx) ex (e1 - ex)) as Hshr.
  rewrite shr_m_shr_record_of_loc, loc_of_shr_record_of_loc in Hshr.
  specialize (Hshr Hmx ltac:(lia) Hin).
  destruct (shr (shr_record_of_loc mx lx) ex (e1 - ex)) as [mrs1 e1'].
  destruct Hshr as (He1 & Hm1 & Hin1).
  replace (ex + (e1 - ex)) with e1 in He1 by lia. subst e1'.
  pose proof (round_nearest_even_correct _ _ _ Hin1) as Hne.
  set (m2 := round_nearest_even (shr_m mrs1) (loc_of_shr_record mrs1)) in *.
  destruct Hbin as (Hb1 & Hb2 & Hb3).
  assert (Hx1 : (0 <= v / pow2 e1)%R).
  { pose proof (inbetween_bounds _ _ _ Hin1). apply IZR_le in Hm1. lra. }
  assert (Hm2lo : 0 <= m2) by (eapply nearest_even_nonneg; eassumption).
  assert (Hm2hi : m2 <= 16777216).
  { apply (nearest_even_le (v / pow2 e1)); [|assumption].
    rewrite <- pow2_24. left. now apply div_pow2_lt. }
  assert (Hm2n : e1 = -149 \/ 8388608 <= m2).
  { destruct Hb3 as [|Hb3]; [now left|right].
    apply (nearest_even_ge (v / pow2 e1)); [|assumption].
    rewrite <- pow2_23. now apply div_pow2_ge. }
  exists (IZR m2 * pow2 e1)%R. split.
  { exists e1, m2. split; [unfold binade; auto|split; [exact Hne|reflexivity]]. }
  (* second shift *)
  destruct (Z.eq_dec m2 16777216) as [E2|N2].
  - rewrite E2. unfold shr_fexp. simpl Zdigits2. rewrite fexp_32.
    replace (fexp32 (25 + e1) - e1) with 1 by (unfold fexp32; lia).
    simpl. destruct (Z.leb_spec (e1 + 1) 104) as [Hle|Hgt]; simpl.
    + repeat split.
      * rewrite pow2_succ. lra.
      * unfold SpecFloat.bounded, canonical_mantissa. simpl digits2_pos. rewrite fexp_32.
        apply andb_true_iff. split; [apply Z.eqb_eq; unfold fexp32|apply Z.leb_le]; lia.
    + split; [reflexivity|].
      apply Rle_trans with (16777216 * pow2 104)%R.
      * rewrite <- pow2_24, <- pow2_add. apply pow2_le. lia.
      * apply Rmult_le_compat_l; [lra|]. apply pow2_le. lia.
  - unfold shr_fexp. rewrite fexp_32.
    assert (Hd2 : Zdigits2 m2 <= 24) by (apply Zdigits2_le; lia).
    pose proof (Zdigits2_nonneg m2) as Hd0.
    assert (Hsh : fexp32 (Zdigits2 m2 + e1) - e1 <= 0) by (unfold fexp32; lia).
    assert (Hsame : shr (shr_record_of_loc m2 loc_Exact) e1 (fexp32 (Zdigits2 m2 + e1) - e1)
                    = (shr_record_of_loc m2 loc_Exact, e1)).
    { destruct (fexp32 (Zdigits2 m2 + e1) - e1); try reflexivity. lia. }
    rewrite Hsame. simpl shr_m.
    destruct m2 as [|p|p]; [| |lia].
    + simpl. split; [reflexivity|lra].
    + destruct (Z.leb_spec e1 (128 - 24)) as [Hle|Hgt].
      * simpl. repeat split.
        unfold SpecFloat.bounded, canonical_mantissa. rewrite fexp_32.
        apply andb_true_iff. split; [apply Z.eqb_eq|apply Z.leb_le; lia].
        destruct Hm2n as [->|Hn]; [unfold fexp32; simpl Zdigits2 in Hd2; lia|].
        assert (23 < Zdigits2 (Zpos p)) by (apply Zdigits2_gt; lia).
        simpl Zdigits2 in *. unfold fexp32. lia.
      * simpl. split; [reflexivity|].
        destruct Hm2n as [->|Hn]; [lia|].
        apply Rle_trans with (8388608 * pow2 105)%R.
        -- rewrite <- pow2_23, <- pow2_add. apply pow2_le. lia.
        -- apply Rmult_le_compat; try lra.
           ++ left; apply pow2_pos.
           ++ now apply IZR_le.
           ++ apply pow2_le. lia.
Qed.

Lemma binade_fun v e e' : binade v e -> binade v e' -> e = e'.
Proof.
  intros (H1 & H2 & H3) (H1' & H2' & H3').
  destruct (Z.lt_trichotomy e e') as [Hlt|[Heq|Hgt]]; [exfalso|assumption|exfalso].
  - destruct H3' as [|H3']; [lia|].
    assert (pow2 (e + 24) <= pow2 (e' + 23))%R by (apply pow2_le; lia). lra.
  - destruct H3 as [|H3]; [lia|].
    assert (pow2 (e' + 24) <= pow2 (e + 23))%R by (apply pow2_le; lia). lra.
Qed.

Lemma rounded_mono v w f g :
  (v <= w)%R -> rounded v f -> rounded w g -> (f <= g)%R.
Proof.
  intros Hvw (e & n & (Hb1 & Hb2 & Hb3) & Hn & ->) (e' & k & (Hb1' & Hb2' & Hb3') & Hk & ->).
  pose proof (pow2_pos e) as Hpe. pose proof (pow2_pos e') as Hpe'.
  destruct (Z.lt_trichotomy e e') as [Hlt|[Heq|Hgt]].
  - destruct Hb3' as [|Hb3']; [lia|].
    assert (Hn24 : n <= 16777216).
    { apply (nearest_even_le (v / pow2 e)); [|assumption].
      rewrite <- pow2_24. left. now apply div_pow2_lt. }
    assert (Hk23 : 8388608 <= k).
    { apply (nearest_even_ge (w / pow2 e')); [|assumption].
      rewrite <- pow2_23. now apply div_pow2_ge. }
    apply IZR_le in Hn24, Hk23.
    apply Rle_trans with (pow2 (e + 24)).
    + rewrite Z.add_comm, pow2_add, pow2_24. nra.
    + apply Rle_trans with (pow2 (e' + 23)); [apply pow2_le; lia|].
      rewrite Z.add_comm, pow2_add, pow2_23. nra.
  - subst e'.
    assert (n <= k).
    { apply (nearest_even_mono (v / pow2 e) (w / pow2 e)); try assumption.
      unfold Rdiv. apply Rmult_le_compat_r; [|assumption].
      left. now apply Rinv_0_lt_compat. }
    apply Rmult_le_compat_r; [lra|]. now apply IZR_le.
  - exfalso. destruct Hb3 as [|Hb3]; [lia|].
    assert (pow2 (e' + 24) <= pow2 (e + 23))%R by (apply pow2_le; lia). lra.
Qed.

Lemma rounded_fun v f g : rounded v f -> rounded v g -> f = g.
Proof.
  intros Hf Hg.
  apply Rle_antisym; [apply (rounded_mono v v f g)|apply (rounded_mono v v g f)];
    auto; lra.
Qed.

(** ** Finite binary32 numbers and their values *)

Lemma bounded_inv m e :
  SpecFloat.bounded 24 128 m e = true ->
  -149 <= e <= 104 /\ Zpos (digits2_pos m) <= 24 /\
  (e = -149 \/ Zpos (digits2_pos m) = 24).
Proof.
  unfold SpecFloat.bounded, canonical_mantissa. rewrite fexp_32. unfold fexp32.
  intros H. apply andb_true_iff in H as [H1 H2].
  apply Z.eqb_eq in H1. apply Z.leb_le in H2. lia.
Qed.

Lemma bounded_binade m e :
  SpecFloat.bounded 24 128 m e = true ->
  binade (IZR (Zpos m) * pow2 e) e /\ (0 < IZR (Zpos m) * pow2 e < pow2 128)%R.
Proof.
  intros H. apply bounded_inv in H as (He & Hd & Hn).
  pose proof (Zdigits2_bounds (Zpos m) ltac:(lia)) as [Hlo Hhi]. simpl Zdigits2 in *.
  pose proof (pow2_pos e) as Hpe.
  assert (Hm : (1 <= IZR (Zpos m))%R) by (apply IZR_le; lia).
  assert (Hd24 : (pow2 (Zpos (digits2_pos m)) <= pow2 24)%R) by (apply pow2_le; lia).
  assert (Hlt : (IZR (Zpos m) * pow2 e < pow2 (e + 24))%R).
  { rewrite Z.add_comm, pow2_add. nra. }
  split; [split; [lia|split]|split].
  - exact Hlt.
  - destruct Hn as [Hn|Hn]; [now left|right].
    rewrite Hn in Hlo. rewrite Z.add_comm, pow2_add.
    replace (24 - 1) with 23 in Hlo by lia. nra.
  - nra.
  - eapply Rlt_le_trans; [exact Hlt|]. apply pow2_le. lia.
Qed.

Lemma rounded_bounded m e :
  SpecFloat.bounded 24 128 m e = true ->
  rounded (IZR (Zpos m) * pow2 e) (IZR (Zpos m) * pow2 e).
Proof.
  intros H. exists e, (Zpos m). split; [now apply bounded_binade|].
  split; [|reflexivity].
  replace (IZR (Zpos m) * pow2 e / pow2 e)%R with (IZR (Zpos m)).
  - apply nearest_even_IZR.
  - field. pose proof (pow2_pos e). lra.
Qed.

Lemma rounded_0 : rounded 0 0.
Proof.
  exists (-149), 0. split; [|split].
  - split; [lia|split; [apply pow2_pos|now left]].
  - unfold Rdiv. rewrite Rmult_0_l. apply (nearest_even_IZR 0).
  - lra.
Qed.

Lemma Babs_nonneg x : (0 <= F32.Babs x)%R.
Proof.
  destruct x; simpl; try lra.
  pose proof (pow2_pos e). assert (1 <= IZR (Zpos m))%R by (apply IZR_le; lia). nra.
Qed.

Lemma rounded_Babs x : F32.finite x = true -> rounded (F32.Babs x) (F32.Babs x).
Proof.
  destruct x; simpl; try discriminate; intros H.
  - apply rounded_0.
  - now apply rounded_bounded.
Qed.

Lemma Babs_lt_max x : F32.finite x = true -> (F32.Babs x < pow2 128)%R.
Proof.
  destruct x; simpl; try discriminate; intros H.
  - apply pow2_pos.
  - now apply bounded_binade.
Qed.

(** A canonical mantissa and exponent are determined by the value. *)
Lemma bounded_inj m e m' e' :
  SpecFloat.bounded 24 128 m e = true -> SpecFloat.bounded 24 128 m' e' = true ->
  (IZR (Zpos m) * pow2 e = IZR (Zpos m') * pow2 e')%R -> m = m' /\ e = e'.
Proof.
  intros H H' Heq.
  destruct (bounded_binade m e H) as [Hb _].
  destruct (bounded_binade m' e' H') as [Hb' _].
  rewrite Heq in Hb. pose proof (binade_fun _ _ _ Hb Hb') as ->.
  split; [|reflexivity].
  pose proof (pow2_pos e').
  apply Rmult_eq_reg_r in Heq; [|lra].
  apply eq_IZR in Heq. congruence.
Qed.

Lemma encodes_finite s f r :
  encodes s f r -> (f < pow2 128)%R ->
  F32.finite r = true /\ F32.Babs r = f /\ F32.Bsign r = s.
Proof.
  destruct r; simpl; intros H Hf.
  - destruct H as [-> ->]. auto.
  - destruct H; lra.
  - contradiction.
  - destruct H as (-> & -> & Hb). auto.
Qed.

Lemma encodes_overflow s f r :
  encodes s f r -> (pow2 128 <= f)%R -> r = S754_infinity s.
Proof.
  destruct r; simpl; intros H Hf.
  - destruct H as [_ ->]. pose proof (pow2_pos 128). lra.
  - destruct H as [-> _]. reflexivity.
  - contradiction.
  - destruct H as (_ & -> & Hb). apply bounded_binade in Hb. lra.
Qed.

(** ** Signed rounding *)

Lemma rounded_nonneg v f : (0 <= v)%R -> rounded v f -> (0 <= f)%R.
Proof. intros Hv Hf. apply (rounded_mono 0 v 0 f Hv rounded_0 Hf). Qed.

Lemma roundedS_mono v w f g :
  (v <= w)%R -> roundedS v f -> roundedS w g -> (f <= g)%R.
Proof.
  intros Hvw [[Hv Hf]|[Hv Hf]] [[Hw Hg]|[Hw Hg]].
  - apply (rounded_mono v w f g); assumption.
  - assert (v = 0)%R by lra. assert (w = 0)%R by lra. subst.
    rewrite Ropp_0 in Hg.
    pose proof (rounded_fun _ _ _ Hf rounded_0).
    pose proof (rounded_fun _ _ _ Hg rounded_0). lra.
  - assert (0 <= - v)%R as Hv' by lra.
    pose proof (rounded_nonneg _ _ Hv' Hf).
    pose proof (rounded_nonneg _ _ Hw Hg). lra.
  - assert (- g <= - f)%R by (eapply rounded_mono; [|exact Hg|exact Hf]; lra). lra.
Qed.

Lemma roundedS_fun v f g : roundedS v f -> roundedS v g -> f = g.
Proof.
  intros Hf Hg.
  apply Rle_antisym; [apply (roundedS_mono v v f g)|apply (roundedS_mono v v g f)];
    auto; lra.
Qed.

Lemma roundedS_B2R x : F32.finite x = true -> roundedS (F32.B2R x) (F32.B2R x).
Proof.
  intros H. pose proof (rounded_Babs x H). pose proof (Babs_nonneg x).
  unfold F32.B2R. destruct (F32.Bsign x).
  - right. rewrite Ropp_involutive. split; [lra|assumption].
  - left. split; assumption.
Qed.

Lemma B2R_signed x : F32.B2R x = signed (F32.Bsign x) (F32.Babs x).
Proof. reflexivity. Qed.

Lemma roundedS_signed s v f :
  (0 <= v)%R -> rounded v f -> roundedS (signed s v) (signed s f).
Proof.
  intros Hv Hf. destruct s; simpl.
  - right. rewrite !Ropp_involutive. split; [lra|assumption].
  - left. split; assumption.
Qed.

Lemma encodes_returns s v f r :
  (0 <= v)%R -> rounded v f -> encodes s f r -> returns (signed s v) r.
Proof.
  intros Hv Hf He. exists (signed s f).
  pose proof (rounded_nonneg _ _ Hv Hf) as Hf0.
  assert (Habs : Rabs (signed s f) = f).
  { destruct s; simpl; [rewrite Rabs_Ropp|]; now apply Rabs_pos_eq. }
  rewrite Habs. split; [now apply roundedS_signed|split].
  - intros Hlt. destruct (encodes_finite _ _ _ He Hlt) as (Hfin & Hb & Hs).
    split; [assumption|]. now rewrite B2R_signed, Hb, Hs.
  - intros Hge. rewrite (encodes_overflow _ _ _ He Hge). reflexivity.
Qed.

Lemma returns_exact x : F32.finite x = true -> returns (F32.B2R x) x.
Proof.
  intros H. exists (F32.B2R x). split; [now apply roundedS_B2R|split].
  - auto.
  - intros Hge. exfalso. pose proof (Babs_lt_max x H). pose proof (Babs_nonneg x).
    unfold F32.B2R in Hge. destruct (F32.Bsign x);
      [rewrite Rabs_Ropp in Hge|]; rewrite Rabs_pos_eq in Hge; lra.
Qed.

(** The interval rule: an exact result between two binary32 values is
    rounded to a F32.finite value between them. *)
Lemma returns_interval v r a b :
  returns v r -> F32.finite a = true -> F32.finite b = true ->
  (F32.B2R a <= v <= F32.B2R b)%R ->
  F32.finite r = true /\ (F32.B2R a <= F32.B2R r <= F32.B2R b)%R.
Proof.
  intros (f & Hf & Hfin & _) Ha Hb [Hav Hvb].
  assert (Hlo : (F32.B2R a <= f)%R).
  { eapply roundedS_mono; [exact Hav| |exact Hf]. now apply roundedS_B2R. }
  assert (Hhi : (f <= F32.B2R b)%R).
  { eapply roundedS_mono; [exact Hvb|exact Hf|]. now apply roundedS_B2R. }
  assert (Hfa : (Rabs f < pow2 128)%R).
  { pose proof (Babs_lt_max a Ha). pose proof (Babs_lt_max b Hb).
    pose proof (Babs_nonneg a). pose proof (Babs_nonneg b).
    unfold F32.B2R in Hlo, Hhi.
    apply Rabs_def1; destruct (F32.Bsign a), (F32.Bsign b); lra. }
  destruct (Hfin Hfa) as [H1 H2]. rewrite H2. auto.
Qed.

Lemma returns_eq v r c :
  returns v r -> F32.finite c = true -> v = F32.B2R c -> F32.finite r = true /\ F32.B2R r = F32.B2R c.
Proof.
  intros Hr Hc Hv.
  destruct (returns_interval v r c c Hr Hc Hc ltac:(lra)) as [H1 H2].
  split; [assumption|lra].
Qed.

Lemma B2R_zero s : F32.B2R (S754_zero s) = 0%R.
Proof. unfold F32.B2R. destruct s; simpl; lra. Qed.

Lemma B2R_finite s m e :
  F32.B2R (S754_finite s m e) = signed s (IZR (Zpos m) * pow2 e).
Proof. reflexivity. Qed.

Lemma signed_mul s s' v w :
  (signed s v * signed s' w)%R = signed (xorb s s') (v * w).
Proof. destruct s, s'; simpl; lra. Qed.

Lemma signed_div s s' v w :
  (w <> 0)%R -> (signed s v / signed s' w)%R = signed (xorb s s') (v / w).
Proof. intros Hw. destruct s, s'; simpl; field; lra. Qed.

Lemma returns_zero v s : v = 0%R -> returns v (S754_zero s).
Proof.
  intros ->. rewrite <- (B2R_zero s). now apply returns_exact.
Qed.

(** ** Multiplication *)

Lemma digits2_pos_mul m m' :
  Zpos (digits2_pos m) + Zpos (digits2_pos m') - 1 <= Zpos (digits2_pos (m * m')).
Proof.
  pose proof (digits2_pos_bounds m) as [H1 _].
  pose proof (digits2_pos_bounds m') as [H2 _].
  assert (H : 2 ^ (Zpos (digits2_pos m) - 1 + (Zpos (digits2_pos m') - 1)) <= Zpos (m * m')).
  { rewrite Z.pow_add_r by lia. rewrite Pos2Z.inj_mul.
    assert (0 < 2 ^ (Zpos (digits2_pos m) - 1)) by (apply Z.pow_pos_nonneg; lia).
    assert (0 < 2 ^ (Zpos (digits2_pos m') - 1)) by (apply Z.pow_pos_nonneg; lia).
    nia. }
  apply Zdigits2_gt in H; [|lia]. simpl Zdigits2 in H. lia.
Qed.

Lemma mul_returns x y :
  F32.finite x = true -> F32.finite y = true ->
  returns (F32.B2R x * F32.B2R y) (SFmul 24 128 x y).
Proof.
  intros Hx Hy.
  destruct x as [sx|sx| |sx mx ex]; try discriminate;
    destruct y as [sy|sy| |sy my ey]; try discriminate; simpl SFmul.
  - apply returns_zero. rewrite !B2R_zero. lra.
  - apply returns_zero. rewrite !B2R_zero. lra.
  - apply returns_zero. rewrite !B2R_zero. lra.
  - simpl in Hx, Hy. rewrite !B2R_finite, signed_mul.
    pose proof (bounded_inv _ _ Hx) as (Hex & Hdx & Hnx).
    pose proof (bounded_inv _ _ Hy) as (Hey & Hdy & Hny).
    pose proof (pow2_pos ex). pose proof (pow2_pos ey).
    assert (Hmx : (1 <= IZR (Zpos mx))%R) by (apply IZR_le; lia).
    assert (Hmy : (1 <= IZR (Zpos my))%R) by (apply IZR_le; lia).
    destruct (binary_round_aux_correct (xorb sx sy) (Zpos (mx * my)) (ex + ey) loc_Exact
                (IZR (Zpos mx) * pow2 ex * (IZR (Zpos my) * pow2 ey)))
      as (f & Hf & He).
    + lia.
    + simpl. rewrite pow2_add, Pos2Z.inj_mul, mult_IZR. field. lra.
    + pose proof (digits2_pos_mul mx my). simpl Zdigits2. unfold fexp32.
      pose proof (digits2_pos_bounds mx). pose proof (digits2_pos_bounds my).
      assert (0 < Zpos (digits2_pos mx)) by lia.
      assert (0 < Zpos (digits2_pos my)) by lia. lia.
    + apply (encodes_returns _ _ f); [|exact Hf|exact He].
      apply Rmult_le_pos; nra.
Qed.

(** ** Division *)

Lemma new_location_correct q r d :
  0 < d -> 0 <= r < d ->
  inbetween (IZR q + IZR r / IZR d) q (new_location d r).
Proof.
  intros Hd Hr.
  assert (Hd' : (0 < IZR d)%R) by (now apply IZR_lt).
  assert (Hr0 : (0 <= IZR r)%R) by (apply IZR_le; lia).
  assert (Hr1 : (IZR r < IZR d)%R) by (apply IZR_lt; lia).
  assert (Hlt : 2 * r < d -> (IZR r / IZR d < / 2)%R).
  { intros H. apply IZR_lt in H. rewrite mult_IZR in H.
    apply Rmult_lt_reg_r with (IZR d); [assumption|].
    unfold Rdiv. rewrite Rmult_assoc, Rinv_l by lra. lra. }
  assert (Hgt : d < 2 * r -> (/ 2 < IZR r / IZR d)%R).
  { intros H. apply IZR_lt in H. rewrite mult_IZR in H.
    apply Rmult_lt_reg_r with (IZR d); [assumption|].
    unfold Rdiv. rewrite Rmult_assoc, Rinv_l by lra. lra. }
  assert (Heq : 2 * r = d -> (IZR r / IZR d = / 2)%R).
  { intros H. rewrite <- H, mult_IZR. field. apply IZR_lt in Hd. rewrite <- H, mult_IZR in Hd. lra. }
  assert (Hpos : r <> 0 -> (0 < IZR r / IZR d)%R).
  { intros H. apply Rdiv_lt_0_compat; [apply IZR_lt; lia|assumption]. }
  assert (Hone : (IZR r / IZR d < 1)%R).
  { apply Rmult_lt_reg_r with (IZR d); [assumption|].
    unfold Rdiv. rewrite Rmult_assoc, Rinv_l by lra. lra. }
  unfold new_location, new_location_even, new_location_odd.
  destruct (Z.even d) eqn:Hev.
  - destruct (Z.eqb_spec r 0) as [->|Hnz].
    + simpl. unfold Rdiv. lra.
    + destruct (Z.compare_spec (2 * r) d) as [E|L|G]; simpl.
      * rewrite (Heq E). lra.
      * specialize (Hlt L). specialize (Hpos Hnz). lra.
      * specialize (Hgt G). lra.
  - destruct (Z.eqb_spec r 0) as [->|Hnz].
    + simpl. unfold Rdiv. lra.
    + assert (Hne : 2 * r <> d).
      { intros E. rewrite <- E, Z.even_mul in Hev. discriminate. }
      destruct (Z.compare_spec (2 * r + 1) d) as [E|L|G]; simpl.
      * specialize (Hlt ltac:(lia)). specialize (Hpos Hnz). lra.
      * specialize (Hlt ltac:(lia)). specialize (Hpos Hnz). lra.
      * specialize (Hgt ltac:(lia)). lra.
Qed.

Lemma div_core_correct mx ex my ey :
  Zpos (digits2_pos mx) <= 24 -> Zpos (digits2_pos my) <= 24 ->
  let '(q, e', l) := SFdiv_core_binary 24 128 (Zpos mx) ex (Zpos my) ey in
  0 <= q /\
  inbetween (IZR (Zpos mx) * pow2 ex / (IZR (Zpos my) * pow2 ey) / pow2 e') q l /\
  e' <= fexp32 (Zdigits2 q + e').
Proof.
  intros Hdx Hdy. unfold SFdiv_core_binary. rewrite fexp_32. simpl Zdigits2.
  set (d1 := Zpos (digits2_pos mx)) in *. set (d2 := Zpos (digits2_pos my)) in *.
  set (e' := Z.min (fexp32 (d1 + ex - (d2 + ey))) (ex - ey)).
  set (s := ex - ey - e').
  assert (Hs : 0 <= s) by (unfold s, e'; lia).
  set (m' := match s with Zpos _ => Z.shiftl (Zpos mx) s | Z0 => Zpos mx | Zneg _ => 0 end).
  assert (Hm' : m' = Zpos mx * 2 ^ s).
  { unfold m'. destruct s as [|p|p]; try lia.
    now rewrite Z.shiftl_mul_pow2 by lia. }
  pose proof (Z_div_mod m' (Zpos my) ltac:(lia)) as Hdiv.
  destruct (Z.div_eucl m' (Zpos my)) as [q r]. destruct Hdiv as [Hqr Hr].
  assert (H2s : 0 < 2 ^ s) by (apply Z.pow_pos_nonneg; lia).
  assert (Hq : 0 <= q) by nia.
  split; [exact Hq|split].
  - replace (IZR (Zpos mx) * pow2 ex / (IZR (Zpos my) * pow2 ey) / pow2 e')%R
      with (IZR q + IZR r / IZR (Zpos my))%R.
    + apply new_location_correct; lia.
    + assert (Hmy : (0 < IZR (Zpos my))%R) by (apply IZR_lt; lia).
      pose proof (pow2_pos ex). pose proof (pow2_pos ey). pose proof (pow2_pos e').
      replace ex with (s + (ey + e')) by (unfold s; lia).
      rewrite !pow2_add, (pow2_IZR s) by lia.
      transitivity (IZR m' / IZR (Zpos my))%R.
      * rewrite Hqr, plus_IZR, mult_IZR. field. lra.
      * rewrite Hm', mult_IZR. field. lra.
  - unfold fexp32. destruct (Z_le_gt_dec e' (-149)) as [|Hn]; [lia|].
    assert (Hs' : d2 - d1 + 24 <= s) by (unfold s, e', fexp32 in *; lia).
    pose proof (digits2_pos_bounds mx) as [Hmx _]. fold d1 in Hmx.
    pose proof (digits2_pos_bounds my) as [_ Hmy]. fold d2 in Hmy.
    assert (Hpow : 2 ^ d2 * 8388608 <= 2 ^ (d1 - 1) * 2 ^ s).
    { rewrite <- Z.pow_add_r by (unfold d1; lia).
      change 8388608 with (2 ^ 23). rewrite <- Z.pow_add_r by (unfold d2; lia).
      apply Z.pow_le_mono_r; lia. }
    assert (H23 : 2 ^ 23 <= q).
    { change (2 ^ 23) with 8388608.
      assert (0 < 2 ^ d2) by (apply Z.pow_pos_nonneg; unfold d2; lia). nia. }
    apply Zdigits2_gt in H23; lia.
Qed.

Lemma div_returns x y :
  F32.finite x = true -> F32.finite y = true -> F32.B2R y <> 0%R ->
  returns (F32.B2R x / F32.B2R y) (SFdiv 24 128 x y).
Proof.
  intros Hx Hy Hy0.
  destruct y as [sy|sy| |sy my ey]; try discriminate.
  { rewrite B2R_zero in Hy0. contradiction. }
  destruct x as [sx|sx| |sx mx ex]; try discriminate; simpl SFdiv.
  - apply returns_zero. rewrite B2R_zero. unfold Rdiv. lra.
  - simpl in Hx, Hy.
    pose proof (bounded_inv _ _ Hx) as (Hex & Hdx & Hnx).
    pose proof (bounded_inv _ _ Hy) as (Hey & Hdy & Hny).
    pose proof (pow2_pos ex). pose proof (pow2_pos ey).
    assert (Hmx : (1 <= IZR (Zpos mx))%R) by (apply IZR_le; lia).
    assert (Hmy : (1 <= IZR (Zpos my))%R) by (apply IZR_le; lia).
    assert (Hvy : (0 < IZR (Zpos my) * pow2 ey)%R) by nra.
    rewrite !B2R_finite, signed_div by lra.
    pose proof (div_core_correct mx ex my ey Hdx Hdy) as Hcore.
    destruct (SFdiv_core_binary 24 128 (Zpos mx) ex (Zpos my) ey) as [[q e'] l].
    destruct Hcore as (Hq & Hin & Hpre).
    destruct (binary_round_aux_correct (xorb sx sy) q e' l _ Hq Hin Hpre) as (f & Hf & He).
    apply (encodes_returns _ _ f); [|exact Hf|exact He].
    apply Rmult_le_pos; [nra|]. left. now apply Rinv_0_lt_compat.
Qed.

(** ** Addition, subtraction and conversion from [int] *)

Lemma iter_xO_correct m d :
  Zpos (Pos.iter xO m d) = Zpos m * 2 ^ Zpos d /\
  Zpos (digits2_pos (Pos.iter xO m d)) = Zpos (digits2_pos m) + Zpos d.
Proof.
  induction d as [|d [IH1 IH2]] using Pos.peano_ind.
  - simpl. split; lia.
  - rewrite Pos.iter_succ. simpl digits2_pos.
    rewrite Pos2Z.inj_xO, IH1, !Pos2Z.inj_succ, IH2.
    rewrite Z.pow_succ_r by lia. split; lia.
Qed.

Lemma shl_align_correct mx ex ex' :
  let '(mz, ez) := shl_align mx ex ex' in
  (IZR (Zpos mz) * pow2 ez = IZR (Zpos mx) * pow2 ex)%R /\
  ez = Z.min ex ex' /\
  Zpos (digits2_pos mz) + ez = Zpos (digits2_pos mx) + ex.
Proof.
  unfold shl_align. destruct (ex' - ex) as [|d|d] eqn:Hd.
  - split; [reflexivity|lia].
  - split; [reflexivity|lia].
  - destruct (iter_xO_correct mx d) as [H1 H2].
    split; [|lia].
    rewrite H1, mult_IZR, <- pow2_IZR by lia.
    replace ex with (Zpos d + ex') by lia. rewrite pow2_add. lra.
Qed.

Lemma binary_round_correct s m e :
  exists f, rounded (IZR (Zpos m) * pow2 e) f /\
            encodes s f (binary_round 24 128 s m e).
Proof.
  unfold binary_round. rewrite fexp_32.
  pose proof (shl_align_correct m e (fexp32 (Zpos (digits2_pos m) + e))) as H.
  destruct (shl_align m e (fexp32 (Zpos (digits2_pos m) + e))) as [mz ez].
  destruct H as (Hv & Hez & Hd).
  apply binary_round_aux_correct.
  - lia.
  - simpl. rewrite <- Hv. field. pose proof (pow2_pos ez). lra.
  - simpl Zdigits2. rewrite Hd. lia.
Qed.

Lemma binary_normalize_returns m e szero :
  returns (IZR m * pow2 e) (binary_normalize 24 128 m e szero).
Proof.
  pose proof (pow2_pos e) as Hp.
  destruct m as [|p|p]; simpl binary_normalize.
  - apply returns_zero. lra.
  - destruct (binary_round_correct false p e) as (f & Hf & He).
    apply (encodes_returns false _ f); [|exact Hf|exact He].
    assert (1 <= IZR (Zpos p))%R by (apply IZR_le; lia). nra.
  - destruct (binary_round_correct true p e) as (f & Hf & He).
    replace (IZR (Zneg p) * pow2 e)%R with (signed true (IZR (Zpos p) * pow2 e)).
    + apply (encodes_returns true _ f); [|exact Hf|exact He].
      assert (1 <= IZR (Zpos p))%R by (apply IZR_le; lia). nra.
    + simpl. change (Zneg p) with (- Zpos p). rewrite opp_IZR. lra.
Qed.

Lemma aligned_value s m e ez :
  ez <= e ->
  (IZR (cond_Zopp s (Zpos (fst (shl_align m e ez)))) * pow2 ez)%R
  = F32.B2R (S754_finite s m e).
Proof.
  intros Hle. pose proof (shl_align_correct m e ez) as H.
  destruct (shl_align m e ez) as [mz ez']. destruct H as (Hv & Hez & _).
  replace ez' with ez in Hv by lia. simpl fst.
  rewrite B2R_finite, <- Hv. destruct s; simpl; [|reflexivity].
  change (Zneg mz) with (- Zpos mz). rewrite opp_IZR. lra.
Qed.

Lemma finite_opp x : F32.finite (SFopp x) = F32.finite x.
Proof. now destruct x. Qed.

Lemma B2R_opp x : F32.B2R (SFopp x) = (- F32.B2R x)%R.
Proof.
  destruct x as [s|s| |s m e]; unfold F32.B2R; simpl; try destruct s; simpl; lra.
Qed.

Lemma add_returns x y :
  F32.finite x = true -> F32.finite y = true ->
  returns (F32.B2R x + F32.B2R y) (SFadd 24 128 x y).
Proof.
  intros Hx Hy.
  destruct x as [sx|sx| |sx mx ex]; try discriminate;
    destruct y as [sy|sy| |sy my ey]; try discriminate.
  - rewrite !B2R_zero. destruct sx, sy; simpl; apply returns_zero; lra.
  - rewrite B2R_zero, Rplus_0_l. now apply returns_exact.
  - rewrite B2R_zero, Rplus_0_r. now apply returns_exact.
  - unfold SFadd.
    rewrite <- (aligned_value sx mx ex (Z.min ex ey)) by lia.
    rewrite <- (aligned_value sy my ey (Z.min ex ey)) by lia.
    rewrite <- Rmult_plus_distr_r, <- plus_IZR.
    apply binary_normalize_returns.
Qed.

Lemma sub_returns x y :
  F32.finite x = true -> F32.finite y = true ->
  returns (F32.B2R x - F32.B2R y) (SFsub 24 128 x y).
Proof.
  intros Hx Hy.
  destruct x as [sx|sx| |sx mx ex]; try discriminate;
    destruct y as [sy|sy| |sy my ey]; try discriminate.
  - rewrite !B2R_zero. destruct sx, sy; simpl; apply returns_zero; lra.
  - rewrite B2R_zero. unfold Rminus. rewrite Rplus_0_l.
    change (SFsub 24 128 (S754_zero sx) (S754_finite sy my ey))
      with (SFopp (S754_finite sy my ey)).
    rewrite <- B2R_opp. apply returns_exact. now rewrite finite_opp.
  - rewrite B2R_zero, Rminus_0_r. now apply returns_exact.
  - unfold SFsub.
    rewrite <- (aligned_value sx mx ex (Z.min ex ey)) by lia.
    rewrite <- (aligned_value sy my ey (Z.min ex ey)) by lia.
    rewrite <- Rmult_minus_distr_r, <- minus_IZR.
    apply binary_normalize_returns.
Qed.

Lemma of_int_returns n : returns (IZR n) (binary_normalize 24 128 n 0 false).
Proof.
  replace (IZR n) with (IZR n * pow2 0)%R by (rewrite pow2_0; lra).
  apply binary_normalize_returns.
Qed.

(** ** Derived rules *)

Lemma returns_finite_value v r :
  returns v r -> F32.finite r = true -> roundedS v (F32.B2R r).
Proof.
  intros (f & Hf & Hfin & Hinf) Hr.
  destruct (Rlt_le_dec (Rabs f) (pow2 128)) as [Hlt|Hge].
  - destruct (Hfin Hlt) as [_ ->]. exact Hf.
  - rewrite (Hinf Hge) in Hr. discriminate.
Qed.

Lemma returns_between u v w a r b :
  returns u a -> returns v r -> returns w b ->
  F32.finite a = true -> F32.finite b = true -> (u <= v <= w)%R ->
  F32.finite r = true /\ (F32.B2R a <= F32.B2R r <= F32.B2R b)%R.
Proof.
  intros Ha Hr Hb Fa Fb [Huv Hvw].
  pose proof (returns_finite_value _ _ Ha Fa) as Ra.
  pose proof (returns_finite_value _ _ Hb Fb) as Rb.
  destruct Hr as (f & Hf & Hfin & _).
  assert (Hlo : (F32.B2R a <= f)%R) by (apply (roundedS_mono u v); assumption).
  assert (Hhi : (f <= F32.B2R b)%R) by (apply (roundedS_mono v w); assumption).
  assert (Hfa : (Rabs f < pow2 128)%R).
  { pose proof (Babs_lt_max a Fa). pose proof (Babs_lt_max b Fb).
    pose proof (Babs_nonneg a). pose proof (Babs_nonneg b).
    unfold F32.B2R in Hlo, Hhi.
    apply Rabs_def1; destruct (F32.Bsign a), (F32.Bsign b); lra. }
  destruct (Hfin Hfa) as [H1 H2]. rewrite H2. auto.
Qed.

Lemma returns_repr v r :
  returns v r -> roundedS v v -> F32.finite r = true -> F32.B2R r = v.
Proof.
  intros Hr Hv Fr. pose proof (returns_finite_value _ _ Hr Fr) as H.
  apply (roundedS_fun v); assumption.
Qed.

(** ** Comparison *)

Lemma bounded_lt m e m' e' :
  SpecFloat.bounded 24 128 m e = true -> SpecFloat.bounded 24 128 m' e' = true ->
  e < e' -> (IZR (Zpos m) * pow2 e < IZR (Zpos m') * pow2 e')%R.
Proof.
  intros H H' Hlt.
  destruct (bounded_binade m e H) as [(Hb1 & Hb2 & Hb3) _].
  destruct (bounded_binade m' e' H') as [(Hb1' & Hb2' & Hb3') _].
  destruct Hb3' as [|Hb3']; [lia|].
  assert (pow2 (e + 24) <= pow2 (e' + 23))%R by (apply pow2_le; lia). lra.
Qed.

Lemma Babs_cmp m e m' e' :
  SpecFloat.bounded 24 128 m e = true -> SpecFloat.bounded 24 128 m' e' = true ->
  Rcmp (Some match Z.compare e e' with
             | Lt => Lt
             | Gt => Gt
             | Eq => Pos.compare_cont Eq m m'
             end)
       (IZR (Zpos m) * pow2 e) (IZR (Zpos m') * pow2 e').
Proof.
  intros H H'. destruct (Z.compare_spec e e') as [->|L|G].
  - change (Pos.compare_cont Eq m m') with (Pos.compare m m').
    pose proof (pow2_pos e').
    destruct (Pos.compare_spec m m') as [->|L|G]; simpl.
    + reflexivity.
    + apply Rmult_lt_compat_r; [assumption|]. apply IZR_lt. lia.
    + apply Rmult_lt_compat_r; [assumption|]. apply IZR_lt. lia.
  - simpl. now apply bounded_lt.
  - simpl. now apply bounded_lt.
Qed.

Lemma SFcompare_correct x y :
  F32.finite x = true -> F32.finite y = true ->
  Rcmp (SFcompare x y) (F32.B2R x) (F32.B2R y).
Proof.
  intros Hx Hy.
  destruct x as [sx|sx| |sx mx ex]; try discriminate;
    destruct y as [sy|sy| |sy my ey]; try discriminate; simpl in Hx, Hy.
  - simpl. now rewrite !B2R_zero.
  - rewrite B2R_zero, B2R_finite.
    destruct (bounded_binade _ _ Hy) as [_ Hp]. destruct sy; simpl; lra.
  - rewrite B2R_zero, B2R_finite.
    destruct (bounded_binade _ _ Hx) as [_ Hp]. destruct sx; simpl; lra.
  - rewrite !B2R_finite.
    destruct (bounded_binade _ _ Hx) as [_ Hpx].
    destruct (bounded_binade _ _ Hy) as [_ Hpy].
    pose proof (Babs_cmp mx ex my ey Hx Hy) as Hc.
    destruct sx, sy; simpl SFcompare; simpl signed.
    + destruct (ex ?= ey); [destruct (Pos.compare_cont Eq mx my)| |]; simpl in *; lra.
    + simpl. lra.
    + simpl. lra.
    + exact Hc.
Qed.

Lemma SFltb_correct x y :
  F32.finite x = true -> F32.finite y = true ->
  (SFltb x y = true <-> (F32.B2R x < F32.B2R y)%R).
Proof.
  intros Hx Hy. pose proof (SFcompare_correct x y Hx Hy) as H.
  unfold SFltb. destruct (SFcompare x y) as [[| |]|]; simpl in H;
    split; intros H'; try discriminate; try reflexivity; try lra; contradiction.
Qed.

Lemma SFleb_correct x y :
  F32.finite x = true -> F32.finite y = true ->
  (SFleb x y = true <-> (F32.B2R x <= F32.B2R y)%R).
Proof.
  intros Hx Hy. pose proof (SFcompare_correct x y Hx Hy) as H.
  unfold SFleb. destruct (SFcompare x y) as [[| |]|]; simpl in H;
    split; intros H'; try discriminate; try reflexivity; try lra; contradiction.
Qed.

Lemma SFeqb_correct x y :
  F32.finite x = true -> F32.finite y = true ->
  (SFeqb x y = true <-> F32.B2R x = F32.B2R y).
Proof.
  intros Hx Hy. pose proof (SFcompare_correct x y Hx Hy) as H.
  unfold SFeqb. destruct (SFcompare x y) as [[| |]|]; simpl in H;
    split; intros H'; try discriminate; try reflexivity; try lra; contradiction.
Qed.

Lemma SFltb_false x y :
  F32.finite x = true -> F32.finite y = true ->
  (SFltb x y = false <-> (F32.B2R y <= F32.B2R x)%R).
Proof.
  intros Hx Hy. pose proof (SFltb_correct x y Hx Hy) as H. split.
  - intros Hf. destruct (Rlt_le_dec (F32.B2R x) (F32.B2R y)) as [L|L]; [|assumption].
    apply H in L. congruence.
  - intros Hle. destruct (SFltb x y) eqn:E; [|reflexivity].
    destruct H as [H _]. specialize (H eq_refl). lra.
Qed.

(** A finite float is determined by its value, up to the sign of zero. *)
Lemma B2R_inj x y :
  F32.finite x = true -> F32.finite y = true -> F32.B2R x = F32.B2R y -> F32.B2R x <> 0%R -> x = y.
Proof.
  intros Hx Hy Heq Hnz.
  destruct x as [sx|sx| |sx mx ex]; try discriminate.
  { rewrite B2R_zero in Hnz. contradiction. }
  destruct y as [sy|sy| |sy my ey]; try discriminate.
  { rewrite B2R_zero in Heq. contradiction. }
  simpl in Hx, Hy. rewrite !B2R_finite in Heq.
  destruct (bounded_binade _ _ Hx) as [_ Hpx].
  destruct (bounded_binade _ _ Hy) as [_ Hpy].
  assert (sx = sy) by (destruct sx, sy; simpl in Heq; try reflexivity; lra).
  subst sy.
  assert (Hv : (IZR (Zpos mx) * pow2 ex = IZR (Zpos my) * pow2 ey)%R)
    by (destruct sx; simpl in Heq; lra).
  destruct (bounded_inj _ _ _ _ Hx Hy Hv) as [-> ->]. reflexivity.
Qed.

Lemma B2R_zero_inv x : F32.finite x = true -> F32.B2R x = 0%R -> exists s, x = S754_zero s.
Proof.
  intros Hx H0. destruct x as [s|s| |s m e]; try discriminate.
  - now exists s.
  - simpl in Hx. destruct (bounded_binade _ _ Hx) as [_ Hp].
    rewrite B2R_finite in H0. destruct s; simpl in H0; lra.
Qed.

(** Every finite value is a multiple of 2^-149. *)
Lemma B2R_grid x : F32.finite x = true -> exists k : Z, F32.B2R x = (IZR k * pow2 (-149))%R.
Proof.
  intros Hx. destruct x as [s|s| |s m e]; try discriminate.
  - exists 0. rewrite B2R_zero. lra.
  - simpl in Hx. apply bounded_inv in Hx as (He & _).
    exists (cond_Zopp s (Zpos m) * 2 ^ (e + 149)).
    rewrite B2R_finite, mult_IZR, <- pow2_IZR by lia.
    replace e with ((e + 149) + (-149)) at 1 by lia. rewrite pow2_add.
    destruct s; simpl; [change (Zneg m) with (- Zpos m); rewrite opp_IZR|]; lra.
Qed.

Lemma rounded_min_subnormal : rounded (pow2 (-149)) (pow2 (-149)).
Proof.
  replace (pow2 (-149)) with (IZR (Zpos 1) * pow2 (-149))%R by lra.
  now apply rounded_bounded.
Qed.

(** A difference of two finite values that rounds to zero is zero. *)
Lemma sub_zero_inv x y :
  F32.finite x = true -> F32.finite y = true ->
  F32.B2R (SFsub 24 128 x y) = 0%R -> F32.finite (SFsub 24 128 x y) = true ->
  F32.B2R x = F32.B2R y.
Proof.
  intros Hx Hy H0 Hf.
  pose proof (returns_finite_value _ _ (sub_returns x y Hx Hy) Hf) as Hr.
  rewrite H0 in Hr.
  destruct (B2R_grid x Hx) as [k Hk]. destruct (B2R_grid y Hy) as [k' Hk'].
  destruct (Z.eq_dec k k') as [->|Hne]; [lra|exfalso].
  pose proof (pow2_pos (-149)) as Hp.
  assert (Hd : (F32.B2R x - F32.B2R y = IZR (k - k') * pow2 (-149))%R).
  { rewrite Hk, Hk', minus_IZR. lra. }
  rewrite Hd in Hr.
  destruct (Z_lt_le_dec k k') as [Hlt|Hge].
  - assert (Hle : (IZR (k - k') * pow2 (-149) <= - pow2 (-149))%R).
    { assert (IZR (k - k') <= -1)%R by (apply IZR_le; lia). nra. }
    assert (Hm : roundedS (- pow2 (-149)) (- pow2 (-149))).
    { right. rewrite Ropp_involutive. split; [lra|apply rounded_min_subnormal]. }
    pose proof (roundedS_mono _ _ _ _ Hle Hr Hm). lra.
  - assert (Hle : (pow2 (-149) <= IZR (k - k') * pow2 (-149))%R).
    { assert (1 <= IZR (k - k'))%R by (apply IZR_le; lia). nra. }
    assert (Hm : roundedS (pow2 (-149)) (pow2 (-149))).
    { left. split; [lra|apply rounded_min_subnormal]. }
    pose proof (roundedS_mono _ _ _ _ Hle Hm Hr). lra.
Qed.

(** ** Exactly representable results *)

Lemma returns_repr_bound v r :
  returns v r -> roundedS v v -> (Rabs v < pow2 128)%R ->
  F32.finite r = true /\ F32.B2R r = v.
Proof.
  intros (f & Hf & Hfin & _) Hv Hlt.
  pose proof (roundedS_fun _ _ _ Hf Hv) as ->. now apply Hfin.
Qed.

Lemma rounded_double v : (0 <= v)%R -> rounded v v -> rounded (2 * v) (2 * v).
Proof.
  intros Hv (e & n & (Hb1 & Hb2 & Hb3) & Hn & Hvn).
  pose proof (pow2_pos e) as Hp.
  assert (Hq : (v / pow2 e = IZR n)%R).
  { rewrite Hvn at 1. field. lra. }
  assert (Hn0 : (0 <= IZR n)%R).
  { rewrite <- Hq. unfold Rdiv. apply Rmult_le_pos; [assumption|].
    left. now apply Rinv_0_lt_compat. }
  destruct (Z_lt_le_dec n 8388608) as [Hs|Hl].
  - assert (He : e = -149).
    { destruct Hb3 as [|Hb3]; [assumption|exfalso].
      apply div_pow2_ge in Hb3. rewrite Hq, pow2_23 in Hb3.
      apply le_IZR in Hb3. lia. }
    exists e, (2 * n). split; [split; [lia|split; [|now left]]|split].
    + rewrite Hvn, Z.add_comm, pow2_add, pow2_24.
      assert (IZR n <= 8388607)%R by (apply IZR_le; lia). nra.
    + replace (2 * v / pow2 e)%R with (IZR (2 * n)).
      * apply nearest_even_IZR.
      * rewrite mult_IZR, <- Hq. field. lra.
    + rewrite mult_IZR. lra.
  - exists (e + 1), n. split; [split; [lia|split; [|right]]|split].
    + replace (e + 1 + 24) with ((e + 24) + 1) by lia. rewrite pow2_succ. lra.
    + replace (e + 1 + 23) with ((e + 23) + 1) by lia. rewrite pow2_succ.
      apply IZR_le in Hl. rewrite Hvn, Z.add_comm, pow2_add, pow2_23. nra.
    + replace (2 * v / pow2 (e + 1))%R with (IZR n).
      * apply nearest_even_IZR.
      * rewrite pow2_succ, <- Hq. field. lra.
    + rewrite pow2_succ. lra.
Qed.

Lemma roundedS_double v : roundedS v v -> roundedS (2 * v) (2 * v).
Proof.
  intros [[Hv H]|[Hv H]].
  - left. split; [lra|]. now apply rounded_double.
  - right. split; [lra|].
    replace (- (2 * v))%R with (2 * - v)%R by lra.
    apply rounded_double; [lra|assumption].
Qed.

Lemma rounded_int k : 0 <= k <= 16777216 -> rounded (IZR k) (IZR k).
Proof.
  intros Hk.
  destruct (Z.eq_dec k 0) as [->|Hnz]; [apply rounded_0|].
  destruct (Z.eq_dec k 16777216) as [->|Hne].
  { replace (IZR 16777216) with (IZR (Zpos 8388608) * pow2 1)%R
      by (rewrite pow2_1; lra).
    now apply rounded_bounded. }
  set (d := Zdigits2 k).
  assert (Hd : 1 <= d <= 24).
  { unfold d. split.
    - assert (0 < Zdigits2 k) by (apply Zdigits2_gt; lia). lia.
    - apply Zdigits2_le; lia. }
  destruct (Zdigits2_bounds k ltac:(lia)) as [Hlo Hhi]. fold d in Hlo, Hhi.
  pose proof (pow2_pos (d - 24)) as Hp.
  exists (d - 24), (k * 2 ^ (24 - d)).
  assert (Hval : (IZR (k * 2 ^ (24 - d)) * pow2 (d - 24) = IZR k)%R).
  { rewrite mult_IZR, <- pow2_IZR by lia.
    rewrite Rmult_assoc, <- pow2_add.
    replace (24 - d + (d - 24)) with 0 by lia. rewrite pow2_0. lra. }
  split; [split; [lia|split; [|right]]|split].
  - replace (d - 24 + 24) with d by lia. lra.
  - replace (d - 24 + 23) with (d - 1) by lia. lra.
  - replace (IZR k / pow2 (d - 24))%R with (IZR (k * 2 ^ (24 - d))).
    + apply nearest_even_IZR.
    + apply Rmult_eq_reg_r with (pow2 (d - 24)); [|lra].
      rewrite Hval. field. lra.
  - now rewrite Hval.
Qed.

Lemma roundedS_int k : -16777216 <= k <= 16777216 -> roundedS (IZR k) (IZR k).
Proof.
  intros Hk. destruct (Z_le_gt_dec 0 k) as [Hp|Hn].
  - left. split; [now apply IZR_le|]. apply rounded_int. lia.
  - right. split; [apply IZR_le; lia|].
    rewrite <- opp_IZR. apply rounded_int. lia.
Qed.

Lemma pow2_neg_IZR k : 0 <= k -> pow2 (- k) = (/ IZR (2 ^ k))%R.
Proof.
  intros Hk. replace (- k) with (0 - k) by lia.
  rewrite pow2_sub, pow2_0, pow2_IZR by lia. unfold Rdiv. lra.
Qed.

(** ** The binary32 operations of the model *)

Lemma of_int_exact n :
  -16777216 <= n <= 16777216 ->
  F32.finite (F32.of_int n) = true /\ F32.B2R (F32.of_int n) = IZR n.
Proof.
  intros Hn. apply returns_repr_bound.
  - apply of_int_returns.
  - now apply roundedS_int.
  - assert (H24 : (pow2 24 < pow2 128)%R) by (apply pow2_lt; lia).
    rewrite pow2_24 in H24.
    assert (IZR (-16777216) <= IZR n <= IZR 16777216)%R
      by (split; apply IZR_le; lia).
    apply Rabs_def1; lra.
Qed.

Section Interval.

Variables (x y a b : float).
Hypotheses (Fx : F32.finite x = true) (Fy : F32.finite y = true).
Hypotheses (Fa : F32.finite a = true) (Fb : F32.finite b = true).

Lemma add_interval :
  (F32.B2R a <= F32.B2R x + F32.B2R y <= F32.B2R b)%R ->
  F32.finite (x + y)%f32 = true /\
  (F32.B2R a <= F32.B2R (x + y)%f32 <= F32.B2R b)%R.
Proof. apply returns_interval; auto. now apply add_returns. Qed.

Lemma sub_interval :
  (F32.B2R a <= F32.B2R x - F32.B2R y <= F32.B2R b)%R ->
  F32.finite (x - y)%f32 = true /\
  (F32.B2R a <= F32.B2R (x - y)%f32 <= F32.B2R b)%R.
Proof. apply returns_interval; auto. now apply sub_returns. Qed.

Lemma mul_interval :
  (F32.B2R a <= F32.B2R x * F32.B2R y <= F32.B2R b)%R ->
  F32.finite (x * y)%f32 = true /\
  (F32.B2R a <= F32.B2R (x * y)%f32 <= F32.B2R b)%R.
Proof. apply returns_interval; auto. now apply mul_returns. Qed.

Lemma div_interval :
  F32.B2R y <> 0%R ->
  (F32.B2R a <= F32.B2R x / F32.B2R y <= F32.B2R b)%R ->
  F32.finite (x / y)%f32 = true /\
  (F32.B2R a <= F32.B2R (x / y)%f32 <= F32.B2R b)%R.
Proof. intros Hy. apply returns_interval; auto. now apply div_returns. Qed.

End Interval.

Section Exact.

Variables (x y c : float).
Hypotheses (Fx : F32.finite x = true) (Fy : F32.finite y = true).
Hypothesis (Fc : F32.finite c = true).

Lemma add_exact :
  (F32.B2R x + F32.B2R y)%R = F32.B2R c ->
  F32.finite (x + y)%f32 = true /\ F32.B2R (x + y)%f32 = F32.B2R c.
Proof. apply returns_eq; auto. now apply add_returns. Qed.

Lemma sub_exact :
  (F32.B2R x - F32.B2R y)%R = F32.B2R c ->
  F32.finite (x - y)%f32 = true /\ F32.B2R (x - y)%f32 = F32.B2R c.
Proof. apply returns_eq; auto. now apply sub_returns. Qed.

Lemma mul_exact :
  (F32.B2R x * F32.B2R y)%R = F32.B2R c ->
  F32.finite (x * y)%f32 = true /\ F32.B2R (x * y)%f32 = F32.B2R c.
Proof. apply returns_eq; auto. now apply mul_returns. Qed.

Lemma div_exact :
  F32.B2R y <> 0%R -> (F32.B2R x / F32.B2R y)%R = F32.B2R c ->
  F32.finite (x / y)%f32 = true /\ F32.B2R (x / y)%f32 = F32.B2R c.
Proof. intros Hy. apply returns_eq; auto. now apply div_returns. Qed.

End Exact.

Lemma ltb_true x y :
  F32.finite x = true -> F32.finite y = true ->
  (x <? y)%f32 = true -> (F32.B2R x < F32.B2R y)%R.
Proof. intros Hx Hy. now apply SFltb_correct. Qed.

Lemma ltb_false x y :
  F32.finite x = true -> F32.finite y = true ->
  (x <? y)%f32 = false -> (F32.B2R y <= F32.B2R x)%R.
Proof. intros Hx Hy. now apply SFltb_false. Qed.

Lemma leb_intro x y :
  F32.finite x = true -> F32.finite y = true ->
  (F32.B2R x <= F32.B2R y)%R -> (x <=? y)%f32 = true.
Proof. intros Hx Hy. now apply SFleb_correct. Qed.

Lemma eqb_intro x y :
  F32.finite x = true -> F32.finite y = true ->
  F32.B2R x = F32.B2R y -> (x =? y)%f32 = true.
Proof. intros Hx Hy. now apply SFeqb_correct. Qed.

(** Values of the literals. *)
Ltac lit_value :=
  cbv [F32.B2R F32.Babs F32.Bsign F32.one F32.zero
       Lit.f0_0 Lit.f1_0 Lit.f0_25 Lit.f0_50 Lit.f0_75 Lit.f1_5 Lit.f2_0
       Lit.f1e9 Lit.f1em4 Lit.f1em6];
  repeat match goal with
  | |- context [pow2 (Zneg ?p)] =>
      change (Zneg p) with (- Zpos p); rewrite (pow2_neg_IZR (Zpos p)) by lia
  | |- context [pow2 (Zpos ?p)] => rewrite (pow2_IZR (Zpos p)) by lia
  end;
  repeat match goal with
  | |- context [IZR (2 ^ ?k)] =>
      let v := eval vm_compute in (2 ^ k) in change (2 ^ k) with v
  end;
  try field; try lra.

Lemma B2R_f0_0 : F32.B2R Lit.f0_0 = 0%R.
Proof. unfold F32.B2R; simpl; lra. Qed.

Lemma B2R_f1_0 : F32.B2R Lit.f1_0 = 1%R.
Proof. lit_value. Qed.

Lemma B2R_f0_25 : F32.B2R Lit.f0_25 = (/ 4)%R.
Proof. lit_value. Qed.

Lemma B2R_f0_50 : F32.B2R Lit.f0_50 = (/ 2)%R.
Proof. lit_value. Qed.

Lemma B2R_f0_75 : F32.B2R Lit.f0_75 = (3 / 4)%R.
Proof. lit_value. Qed.

Lemma B2R_f1_5 : F32.B2R Lit.f1_5 = (3 / 2)%R.
Proof. lit_value. Qed.

Lemma B2R_f1e9 : F32.B2R Lit.f1e9 = 1000000000%R.
Proof. lit_value. Qed.

Lemma B2R_f1em4 : F32.B2R Lit.f1em4 = (13743895 / 137438953472)%R.
Proof. lit_value. Qed.

Lemma B2R_f1em6 : F32.B2R Lit.f1em6 = (8796093 / 8796093022208)%R.
Proof. lit_value. Qed.

(** * The passes of [makeSombrero] as maps over the grid *)

Section Builder.

Variable sinf : float -> float.
Variables (N : Z) (radius zscale freq : float).

Let height := vertex_height sinf N radius zscale freq.
Let position := vertex_pos sinf N radius zscale freq.
Let heights := grid_heights sinf N radius zscale freq.

Lemma sample_row_pos st j :
  p_pos (sample_row sinf N radius zscale freq st j)
  = p_pos st ++ flat_map (position j) (upto N).
Proof.
  unfold sample_row.
  apply (fold_left_proj_app p_pos _ (position j)). reflexivity.
Qed.

Lemma sample_row_zs st j :
  p_zs (sample_row sinf N radius zscale freq st j)
  = p_zs st ++ flat_map (fun i => [height j i]) (upto N).
Proof.
  unfold sample_row.
  apply (fold_left_proj_app p_zs _ (fun i => [height j i])). reflexivity.
Qed.

Lemma sample_row_zmin st j :
  p_zmin (sample_row sinf N radius zscale freq st j)
  = fold_left track_min (flat_map (fun i => [height j i]) (upto N)) (p_zmin st).
Proof.
  unfold sample_row.
  apply (fold_left_proj_fold p_zmin _ (fun i => [height j i]) track_min). reflexivity.
Qed.

Lemma sample_row_zmax st j :
  p_zmax (sample_row sinf N radius zscale freq st j)
  = fold_left track_max (flat_map (fun i => [height j i]) (upto N)) (p_zmax st).
Proof.
  unfold sample_row.
  apply (fold_left_proj_fold p_zmax _ (fun i => [height j i]) track_max). reflexivity.
Qed.

Lemma sample_pass_pos :
  p_pos (sample_pass sinf N radius zscale freq)
  = flat_map (fun j => flat_map (position j) (upto N)) (upto N).
Proof.
  unfold sample_pass.
  now rewrite (fold_left_proj_app p_pos _ _ sample_row_pos).
Qed.

Lemma sample_pass_zs : p_zs (sample_pass sinf N radius zscale freq) = heights.
Proof.
  unfold sample_pass.
  now rewrite (fold_left_proj_app p_zs _ _ sample_row_zs).
Qed.

Lemma sample_pass_zmin :
  p_zmin (sample_pass sinf N radius zscale freq) = fold_left track_min heights Lit.f1e9.
Proof.
  unfold sample_pass.
  now rewrite (fold_left_proj_fold p_zmin _ _ track_min sample_row_zmin).
Qed.

Lemma sample_pass_zmax :
  p_zmax (sample_pass sinf N radius zscale freq)
  = fold_left track_max heights (- Lit.f1e9)%f32.
Proof.
  unfold sample_pass.
  now rewrite (fold_left_proj_fold p_zmax _ _ track_max sample_row_zmax).
Qed.

Lemma length_sample_pass_pos :
  0 <= N -> length (p_pos (sample_pass sinf N radius zscale freq)) = Z.to_nat (3 * (N * N)).
Proof.
  intros HN. rewrite sample_pass_pos.
  rewrite (length_flat_map_uniform _ (Z.to_nat N * 3)).
  - rewrite length_upto. nia.
  - intros j _. rewrite (length_flat_map_uniform _ 3) by reflexivity.
    now rewrite length_upto.
Qed.

Lemma length_grid_heights : 0 <= N -> length heights = Z.to_nat (N * N).
Proof.
  intros HN. unfold heights, grid_heights.
  rewrite (length_flat_map_uniform _ (Z.to_nat N * 1)).
  - rewrite length_upto. nia.
  - intros j _. rewrite (length_flat_map_uniform _ 1) by reflexivity.
    now rewrite length_upto.
Qed.

Lemma nth_grid_heights j i :
  0 <= j < N -> 0 <= i < N ->
  nth (Z.to_nat (j * N + i)) heights F32.nan = height j i.
Proof.
  intros Hj Hi. apply chunk_1_nth. unfold heights, grid_heights.
  now apply (chunk_grid (fun j i => [height j i]) 1).
Qed.

Lemma In_grid_heights z :
  In z heights -> exists j i, 0 <= j < N /\ 0 <= i < N /\ z = height j i.
Proof. apply In_grid. Qed.

Lemma grid_heights_In j i : 0 <= j < N -> 0 <= i < N -> In (height j i) heights.
Proof.
  intros Hj Hi. unfold heights, grid_heights.
  apply in_flat_map. exists j. split; [now apply In_upto|].
  apply in_flat_map. exists i. split; [now apply In_upto|]. now left.
Qed.

End Builder.

Lemma color_pass_flat_map V zs zmin range :
  color_pass V zs zmin range = flat_map (vertex_color zs zmin range) (upto V).
Proof.
  unfold color_pass.
  apply (fold_left_proj_app (fun c => c) _ (vertex_color zs zmin range)).
  intros c v. unfold color_step, vertex_color.
  now destruct (ramp _) as [[r g] b].
Qed.

Lemma length_vertex_color zs zmin range v :
  length (vertex_color zs zmin range v) = 3%nat.
Proof. unfold vertex_color. now destruct (ramp _) as [[r g] b]. Qed.

Lemma length_color_pass V zs zmin range :
  length (color_pass V zs zmin range) = Z.to_nat (3 * V).
Proof.
  rewrite color_pass_flat_map.
  rewrite (length_flat_map_uniform _ 3) by (intros; apply length_vertex_color).
  rewrite length_upto. lia.
Qed.

Lemma index_pass_flat_map N :
  index_pass N
  = flat_map (fun j => flat_map (cell_indices N j) (upto (N - 1))) (upto (N - 1)).
Proof.
  unfold index_pass.
  apply (fold_left_proj_app (fun c => c) _
           (fun j => flat_map (cell_indices N j) (upto (N - 1)))).
  intros acc j. unfold index_row. apply fold_left_app_flat_map.
Qed.

Lemma length_index_pass N :
  1 <= N -> length (index_pass N) = Z.to_nat (6 * ((N - 1) * (N - 1))).
Proof.
  intros HN. rewrite index_pass_flat_map.
  rewrite (length_flat_map_uniform _ (Z.to_nat (N - 1) * 6)).
  - rewrite length_upto. nia.
  - intros j _. rewrite (length_flat_map_uniform _ 6) by reflexivity.
    now rewrite length_upto.
Qed.

(** The six indices the index pass emits for cell [(i, j)]. *)
Lemma index_pass_cell N j i :
  0 <= j < N - 1 -> 0 <= i < N - 1 ->
  cell_of (index_pass N) N j i = cell_indices N j i.
Proof.
  intros Hj Hi. unfold cell_of. rewrite index_pass_flat_map.
  now apply (chunk_grid (cell_indices N) 6).
Qed.

Lemma to_ushort_range z : 0 <= Int.to_ushort z < 2 ^ 16.
Proof. unfold Int.to_ushort. apply Z.mod_pos_bound. lia. Qed.

Lemma to_ushort_le z : 0 <= z -> Int.to_ushort z <= z.
Proof. intros Hz. unfold Int.to_ushort. apply Z.mod_le; lia. Qed.

Lemma to_ushort_small z : 0 <= z < 2 ^ 16 -> Int.to_ushort z = z.
Proof. intros Hz. unfold Int.to_ushort. now apply Z.mod_small. Qed.

Lemma cell_indices_bound N j i :
  0 <= j < N - 1 -> 0 <= i < N - 1 ->
  Forall (fun k => 0 <= k < N * N) (cell_indices N j i).
Proof.
  intros Hj Hi. unfold cell_indices.
  repeat constructor; try apply to_ushort_range;
    (eapply Z.le_lt_trans; [apply to_ushort_le|]; nia).
Qed.

Lemma index_pass_bound N :
  Forall (fun k => 0 <= k < N * N) (index_pass N).
Proof.
  rewrite index_pass_flat_map.
  apply Forall_flat_map, Forall_forall. intros j Hj.
  apply Forall_flat_map, Forall_forall. intros i Hi.
  apply In_upto in Hj, Hi. now apply cell_indices_bound.
Qed.

(** The [int] expressions of the index pass do not overflow once [N*N] fits. *)
Lemma cell_index_exprs_in_range N j i :
  0 <= j < N - 1 -> 0 <= i < N - 1 -> Int.in_range (N * N) = true ->
  Int.in_range (j * N + i) = true /\ Int.in_range (j * N + (i + 1)) = true /\
  Int.in_range ((j + 1) * N + i) = true /\ Int.in_range ((j + 1) * N + (i + 1)) = true.
Proof.
  unfold Int.in_range, Int.int_min, Int.int_max. intros Hj Hi HV.
  apply andb_true_iff in HV as [HV1 HV2].
  repeat split; apply andb_true_iff; split; nia.
Qed.

(** * [makeSombrero] as a whole *)

Lemma clamp_resolution_ge N : 3 <= clamp_resolution N.
Proof. unfold clamp_resolution. destruct (Z.ltb_spec N 3); lia. Qed.

Lemma clamp_resolution_id N : 3 <= N -> clamp_resolution N = N.
Proof. unfold clamp_resolution. destruct (Z.ltb_spec N 3); lia. Qed.

Lemma clamp_resolution_small N : N < 3 -> clamp_resolution N = 3.
Proof. unfold clamp_resolution. destruct (Z.ltb_spec N 3); lia. Qed.

Lemma int_mul_in a b :
  Int.int_min <= a * b <= Int.int_max -> Int.mul a b = Some (a * b).
Proof.
  intros H. unfold Int.mul, Int.in_range.
  destruct (Z.leb_spec Int.int_min (a * b)); [|lia].
  destruct (Z.leb_spec (a * b) Int.int_max); [reflexivity|lia].
Qed.

Lemma int_mul_out a b :
  Int.int_max < a * b -> Int.mul a b = None.
Proof.
  intros H. unfold Int.mul, Int.in_range.
  destruct (Z.leb_spec (a * b) Int.int_max); [lia|].
  now rewrite andb_false_r.
Qed.

Lemma makeSombrero_eq sinf N radius zscale freq :
  makeSombrero sinf N radius zscale freq =
  if clamp_resolution N <=? max_resolution
  then Some (mesh_of sinf (clamp_resolution N) radius zscale freq)
  else None.
Proof.
  unfold makeSombrero, mesh_of.
  pose proof (clamp_resolution_ge N) as HN.
  set (n := clamp_resolution N) in *. clearbody n.
  unfold max_resolution.
  destruct (Z.leb_spec n 18919) as [Hle|Hgt].
  - assert (0 <= n * n <= 357928561) by nia.
    assert (0 <= (n - 1) * (n - 1) <= 357890724) by nia.
    rewrite (int_mul_in n n) by (unfold Int.int_min, Int.int_max; lia).
    cbn [bind].
    rewrite (int_mul_in (n * n) 3) by (unfold Int.int_min, Int.int_max; lia).
    cbn [bind].
    rewrite (int_mul_in (n - 1) (n - 1)) by (unfold Int.int_min, Int.int_max; lia).
    cbn [bind].
    rewrite (int_mul_in _ 6) by (unfold Int.int_min, Int.int_max; lia).
    reflexivity.
  - assert (357928561 <= (n - 1) * (n - 1)) by nia.
    destruct (Int.mul n n) as [V|]; [cbn [bind]|reflexivity].
    destruct (Int.mul V 3) as [V3|]; [cbn [bind]|reflexivity].
    destruct (Int.mul (n - 1) (n - 1)) as [q|] eqn:Hq; [cbn [bind]|reflexivity].
    unfold Int.mul in Hq. destruct (Int.in_range _); [|discriminate].
    injection Hq as <-.
    rewrite int_mul_out by (unfold Int.int_max; lia). reflexivity.
Qed.

Lemma makeSombrero_defined sinf N radius zscale freq :
  clamp_resolution N <= max_resolution ->
  makeSombrero sinf N radius zscale freq
  = Some (mesh_of sinf (clamp_resolution N) radius zscale freq).
Proof.
  intros H. rewrite makeSombrero_eq.
  destruct (Z.leb_spec (clamp_resolution N) max_resolution); [reflexivity|lia].
Qed.

Lemma makeSombrero_Some sinf N radius zscale freq m :
  makeSombrero sinf N radius zscale freq = Some m ->
  clamp_resolution N <= max_resolution /\
  m = mesh_of sinf (clamp_resolution N) radius zscale freq.
Proof.
  rewrite makeSombrero_eq.
  destruct (Z.leb_spec (clamp_resolution N) max_resolution); [|discriminate].
  intros [= <-]. now split.
Qed.

Lemma mesh_of_counts sinf N radius zscale freq :
  3 <= N ->
  let m := mesh_of sinf N radius zscale freq in
  vertex_count m = N * N /\ color_count m = N * N /\
  index_count m = 6 * ((N - 1) * (N - 1)) /\
  indexCount m = 6 * ((N - 1) * (N - 1)).
Proof.
  intros HN m. unfold vertex_count, color_count, index_count, m, mesh_of; simpl.
  rewrite length_sample_pass_pos, length_color_pass, length_index_pass by lia.
  rewrite !Z2Nat.id by nia.
  rewrite !(Z.mul_comm 3), !Z.div_mul by lia. auto.
Qed.

(** Position and colour stored for the vertex of row [j] and column [i]. *)
Lemma mesh_of_position sinf N radius zscale freq j i :
  0 <= j < N -> 0 <= i < N ->
  position_of (mesh_of sinf N radius zscale freq) (j * N + i)
  = vertex_pos sinf N radius zscale freq j i.
Proof.
  intros Hj Hi. unfold position_of, mesh_of; simpl pos.
  rewrite sample_pass_pos.
  now apply (chunk_grid (vertex_pos sinf N radius zscale freq) 3).
Qed.

Lemma mesh_of_color sinf N radius zscale freq j i :
  0 <= j < N -> 0 <= i < N ->
  let st := sample_pass sinf N radius zscale freq in
  let '(r, g, b) :=
    ramp (normalised (p_zmin st) (height_range (p_zmin st) (p_zmax st))
            (vertex_height sinf N radius zscale freq j i)) in
  color_of (mesh_of sinf N radius zscale freq) (j * N + i) = [r; g; b].
Proof.
  intros Hj Hi st. subst st. unfold color_of, mesh_of; simpl col.
  rewrite color_pass_flat_map.
  rewrite chunk_flat_map_upto by (try apply length_vertex_color; nia).
  unfold vertex_color. rewrite sample_pass_zs.
  rewrite nth_grid_heights by assumption.
  now destruct (ramp _) as [[r g] b].
Qed.

(** * The sampling grid *)

Lemma finite_neg x : F32.finite (- x)%f32 = F32.finite x.
Proof. apply finite_opp. Qed.

Lemma B2R_neg x : F32.B2R (- x)%f32 = (- F32.B2R x)%R.
Proof. apply B2R_opp. Qed.

Section Grid.

Variables (N : Z) (radius : float).
Hypothesis HN : 3 <= N <= max_resolution.
Hypothesis Fr : F32.finite radius = true.
Hypothesis Rpos : (0 < F32.B2R radius)%R.
Hypothesis Fw : F32.finite (radius - (- radius))%f32 = true.

Lemma width_value : F32.B2R (radius - (- radius))%f32 = (2 * F32.B2R radius)%R.
Proof.
  apply returns_repr; [|apply roundedS_double; now apply roundedS_B2R|exact Fw].
  replace (2 * F32.B2R radius)%R with (F32.B2R radius - F32.B2R (- radius)%f32)%R
    by (rewrite B2R_neg; lra).
  apply sub_returns; [assumption|now rewrite finite_neg].
Qed.

Lemma grid_denominator :
  F32.finite (F32.of_int (N - 1)) = true /\ F32.B2R (F32.of_int (N - 1)) = IZR (N - 1).
Proof. apply of_int_exact. unfold max_resolution in HN. lia. Qed.

Lemma grid_numerator k :
  0 <= k < N ->
  F32.finite (F32.of_int k) = true /\ F32.B2R (F32.of_int k) = IZR k.
Proof. intros Hk. apply of_int_exact. unfold max_resolution in HN. lia. Qed.

Lemma grid_fraction k :
  0 <= k < N ->
  let t := (F32.of_int k / F32.of_int (N - 1))%f32 in
  unit_float t /\
  (k = 0 -> F32.B2R t = 0%R) /\
  (k = N - 1 -> F32.B2R t = 1%R) /\
  (2 * k = N - 1 -> F32.B2R t = (/ 2)%R).
Proof.
  intros Hk t. destruct grid_denominator as [Fd Vd].
  destruct (grid_numerator k Hk) as [Fk Vk].
  assert (Hd : (0 < IZR (N - 1))%R) by (apply IZR_lt; lia).
  assert (Hk0 : (0 <= IZR k)%R) by (apply IZR_le; lia).
  assert (Hk1 : (IZR k <= IZR (N - 1))%R) by (apply IZR_le; lia).
  assert (Hq : (0 <= IZR k / IZR (N - 1) <= 1)%R).
  { split.
    - apply Rmult_le_pos; [assumption|]. left. now apply Rinv_0_lt_compat.
    - apply Rmult_le_reg_r with (IZR (N - 1)); [assumption|].
      unfold Rdiv. rewrite Rmult_assoc, Rinv_l by lra. lra. }
  assert (Ht : F32.finite t = true /\
               (F32.B2R Lit.f0_0 <= F32.B2R t <= F32.B2R Lit.f1_0)%R).
  { apply (div_interval _ _ Lit.f0_0 Lit.f1_0); auto; rewrite ?Vd, ?Vk; try lra.
    rewrite B2R_f0_0, B2R_f1_0. lra. }
  rewrite B2R_f0_0, B2R_f1_0 in Ht.
  split; [exact Ht|split; [|split]].
  - intros ->. rewrite <- B2R_f0_0.
    apply (div_exact _ _ Lit.f0_0); auto; rewrite ?Vd, ?Vk, ?B2R_f0_0; try lra.
    all: unfold Rdiv; lra.
  - intros ->. rewrite <- B2R_f1_0.
    apply (div_exact _ _ Lit.f1_0); auto; rewrite ?Vd, ?Vk, ?B2R_f1_0; try lra.
    all: field; lra.
  - intros H2. rewrite <- B2R_f0_50.
    apply (div_exact _ _ Lit.f0_50); auto; rewrite ?Vd, ?Vk, ?B2R_f0_50; try lra.
    all: rewrite <- H2, mult_IZR; field; rewrite <- H2, mult_IZR in Hd; lra.
Qed.

Lemma grid_coord_value k :
  0 <= k < N ->
  let x := grid_coord N radius k in
  F32.finite x = true /\
  (- F32.B2R radius <= F32.B2R x <= F32.B2R radius)%R /\
  (k = 0 -> F32.B2R x = (- F32.B2R radius)%R) /\
  (k = N - 1 -> F32.B2R x = F32.B2R radius) /\
  (2 * k = N - 1 -> F32.B2R x = 0%R).
Proof.
  intros Hk x. unfold x, grid_coord.
  destruct (grid_fraction k Hk) as ([Ft [Ht0 Ht1]] & T0 & T1 & Th).
  set (t := (F32.of_int k / F32.of_int (N - 1))%f32) in *.
  set (w := (radius - (- radius))%f32) in *.
  pose proof width_value as Vw. fold w in Vw.
  assert (Fn : F32.finite (- radius)%f32 = true) by now rewrite finite_neg.
  assert (Vn : F32.B2R (- radius)%f32 = (- F32.B2R radius)%R) by apply B2R_neg.
  (* p = t * w *)
  assert (Hp : F32.finite (t * w)%f32 = true /\
               (0 <= F32.B2R (t * w)%f32 <= F32.B2R w)%R).
  { rewrite <- B2R_f0_0.
    apply (mul_interval _ _ Lit.f0_0 w); auto. rewrite B2R_f0_0, Vw. nra. }
  destruct Hp as [Fp [Hp0 Hp1]].
  split; [|split; [|split; [|split]]].
  - apply (add_interval _ _ (- radius)%f32 radius); auto. rewrite Vn. lra.
  - rewrite <- Vn at 1.
    apply (add_interval _ _ (- radius)%f32 radius); auto. rewrite Vn. lra.
  - intros K. rewrite <- Vn.
    assert (F32.B2R (t * w)%f32 = F32.B2R Lit.f0_0) as Vp.
    { apply (mul_exact _ _ Lit.f0_0); auto. rewrite (T0 K), B2R_f0_0. lra. }
    apply (add_exact _ _ (- radius)%f32); auto. rewrite Vp, B2R_f0_0. lra.
  - intros K.
    assert (F32.B2R (t * w)%f32 = F32.B2R w) as Vp.
    { apply (mul_exact _ _ w); auto. rewrite (T1 K). lra. }
    apply (add_exact _ _ radius); auto. rewrite Vp, Vn, Vw. lra.
  - intros K. rewrite <- B2R_f0_0.
    assert (F32.B2R (t * w)%f32 = F32.B2R radius) as Vp.
    { apply (mul_exact _ _ radius); auto. rewrite (Th K), Vw. lra. }
    apply (add_exact _ _ Lit.f0_0); auto. rewrite Vp, Vn, B2R_f0_0. lra.
Qed.

Lemma vertex_x_value k :
  0 <= k < N ->
  let c := vertex_x N radius k in
  F32.finite c = true /\
  (- (3 / 2) <= F32.B2R c <= 3 / 2)%R /\
  (k = 0 -> c = (- Lit.f1_5)%f32) /\
  (k = N - 1 -> c = Lit.f1_5).
Proof.
  intros Hk c. unfold c, vertex_x.
  destruct (grid_coord_value k Hk) as (Fx & [Hx0 Hx1] & X0 & X1 & _).
  set (x := grid_coord N radius k) in *.
  assert (Rnz : F32.B2R radius <> 0%R) by lra.
  assert (Fm1 : F32.finite (- Lit.f1_0)%f32 = true) by reflexivity.
  assert (Vm1 : F32.B2R (- Lit.f1_0)%f32 = (-1)%R) by (rewrite B2R_neg, B2R_f1_0; lra).
  assert (Fm15 : F32.finite (- Lit.f1_5)%f32 = true) by reflexivity.
  assert (Vm15 : F32.B2R (- Lit.f1_5)%f32 = (- (3 / 2))%R)
    by (rewrite B2R_neg, B2R_f1_5; lra).
  assert (Hq : F32.finite (x / radius)%f32 = true /\
               (-1 <= F32.B2R (x / radius)%f32 <= 1)%R).
  { rewrite <- Vm1, <- B2R_f1_0.
    apply (div_interval _ _ (- Lit.f1_0)%f32 Lit.f1_0); auto.
    rewrite Vm1, B2R_f1_0. split.
    - apply Rmult_le_reg_r with (F32.B2R radius); [assumption|].
      unfold Rdiv. rewrite Rmult_assoc, Rinv_l by lra. lra.
    - apply Rmult_le_reg_r with (F32.B2R radius); [assumption|].
      unfold Rdiv. rewrite Rmult_assoc, Rinv_l by lra. lra. }
  destruct Hq as [Fq [Hq0 Hq1]].
  assert (F15 : F32.finite Lit.f1_5 = true) by reflexivity.
  split; [|split; [|split]].
  - apply (mul_interval _ _ (- Lit.f1_5)%f32 Lit.f1_5); auto.
    rewrite Vm15, B2R_f1_5. lra.
  - rewrite <- Vm15. rewrite <- B2R_f1_5.
    apply (mul_interval _ _ (- Lit.f1_5)%f32 Lit.f1_5); auto.
    rewrite Vm15, B2R_f1_5. lra.
  - intros K.
    assert (Vq : F32.B2R (x / radius)%f32 = F32.B2R (- Lit.f1_0)%f32).
    { apply (div_exact _ _ (- Lit.f1_0)%f32); auto. rewrite (X0 K), Vm1. field. lra. }
    assert (Hc : F32.finite (x / radius * Lit.f1_5)%f32 = true /\
                 F32.B2R (x / radius * Lit.f1_5)%f32 = F32.B2R (- Lit.f1_5)%f32).
    { apply (mul_exact _ _ (- Lit.f1_5)%f32); auto. rewrite Vq, Vm1, Vm15, B2R_f1_5. lra. }
    destruct Hc as [Fc Vc]. apply B2R_inj; auto. rewrite Vc, Vm15. lra.
  - intros K.
    assert (Vq : F32.B2R (x / radius)%f32 = F32.B2R Lit.f1_0).
    { apply (div_exact _ _ Lit.f1_0); auto. rewrite (X1 K), B2R_f1_0. field. lra. }
    assert (Hc : F32.finite (x / radius * Lit.f1_5)%f32 = true /\
                 F32.B2R (x / radius * Lit.f1_5)%f32 = F32.B2R Lit.f1_5).
    { apply (mul_exact _ _ Lit.f1_5); auto. rewrite Vq, B2R_f1_0. lra. }
    destruct Hc as [Fc Vc]. apply B2R_inj; auto. rewrite Vc, B2R_f1_5. lra.
Qed.

End Grid.

(** * The colour ramp *)

Lemma unit_float_zero : unit_float Lit.f0_0.
Proof. split; [reflexivity|]. rewrite B2R_f0_0. lra. Qed.

Lemma unit_float_one : unit_float Lit.f1_0.
Proof. split; [reflexivity|]. rewrite B2R_f1_0. lra. Qed.

(** [(t - lo) / 0.25] for [t] in the quarter that starts at [lo]. *)
Lemma ramp_segment t lo :
  F32.finite t = true -> F32.finite lo = true ->
  (F32.B2R lo <= F32.B2R t <= F32.B2R lo + / 4)%R ->
  unit_float ((t - lo) / Lit.f0_25)%f32.
Proof.
  intros Ft Fl Ht.
  assert (F25 : F32.finite Lit.f0_25 = true) by reflexivity.
  assert (Hu : F32.finite (t - lo)%f32 = true /\
               (F32.B2R Lit.f0_0 <= F32.B2R (t - lo)%f32 <= F32.B2R Lit.f0_25)%R).
  { apply (sub_interval _ _ Lit.f0_0 Lit.f0_25); auto.
    rewrite B2R_f0_0, B2R_f0_25. lra. }
  rewrite B2R_f0_0, B2R_f0_25 in Hu. destruct Hu as [Fu Hu].
  unfold unit_float. rewrite <- B2R_f0_0, <- B2R_f1_0.
  apply (div_interval _ _ Lit.f0_0 Lit.f1_0); auto; rewrite ?B2R_f0_25; try lra.
  rewrite B2R_f0_0, B2R_f1_0. lra.
Qed.

Lemma one_minus_unit k : unit_float k -> unit_float (Lit.f1_0 - k)%f32.
Proof.
  intros [Fk Hk]. unfold unit_float. rewrite <- B2R_f0_0, <- B2R_f1_0.
  apply (sub_interval _ _ Lit.f0_0 Lit.f1_0); auto.
  rewrite B2R_f0_0, B2R_f1_0. lra.
Qed.

Lemma ramp_unit t :
  unit_float t ->
  let '(r, g, b) := ramp t in unit_float r /\ unit_float g /\ unit_float b.
Proof.
  intros [Ft Ht]. unfold ramp.
  assert (F25 : F32.finite Lit.f0_25 = true) by reflexivity.
  assert (F50 : F32.finite Lit.f0_50 = true) by reflexivity.
  assert (F75 : F32.finite Lit.f0_75 = true) by reflexivity.
  destruct (t <? Lit.f0_25)%f32 eqn:H25.
  { apply ltb_true in H25; auto. rewrite B2R_f0_25 in H25.
    split; [apply unit_float_zero|split; [|apply unit_float_one]].
    unfold unit_float. rewrite <- B2R_f0_0, <- B2R_f1_0.
    apply (div_interval _ _ Lit.f0_0 Lit.f1_0); auto; rewrite ?B2R_f0_25; try lra.
    rewrite B2R_f0_0, B2R_f1_0. lra. }
  apply ltb_false in H25; auto. rewrite B2R_f0_25 in H25.
  destruct (t <? Lit.f0_50)%f32 eqn:H50.
  { apply ltb_true in H50; auto. rewrite B2R_f0_50 in H50.
    split; [apply unit_float_zero|split; [apply unit_float_one|]].
    apply one_minus_unit, ramp_segment; auto. rewrite B2R_f0_25. lra. }
  apply ltb_false in H50; auto. rewrite B2R_f0_50 in H50.
  destruct (t <? Lit.f0_75)%f32 eqn:H75.
  { apply ltb_true in H75; auto. rewrite B2R_f0_75 in H75.
    split; [|split; [apply unit_float_one|apply unit_float_zero]].
    apply ramp_segment; auto. rewrite B2R_f0_50. lra. }
  apply ltb_false in H75; auto. rewrite B2R_f0_75 in H75.
  split; [apply unit_float_one|split; [|apply unit_float_zero]].
  apply one_minus_unit, ramp_segment; auto. rewrite B2R_f0_75. lra.
Qed.

Lemma ramp_zero s : ramp (S754_zero s) = (Lit.f0_0, S754_zero s, Lit.f1_0).
Proof. now destruct s. Qed.

Lemma ramp_one : ramp Lit.f1_0 = (Lit.f1_0, Lit.f0_0, Lit.f0_0).
Proof. reflexivity. Qed.

(** * Tracking the height range *)

Lemma track_min_fold l : forall init,
  Forall (fun z => F32.finite z = true) l -> F32.finite init = true ->
  let m := fold_left track_min l init in
  F32.finite m = true /\ (F32.B2R m <= F32.B2R init)%R /\
  (forall z, In z l -> (F32.B2R m <= F32.B2R z)%R) /\
  (m = init \/ In m l).
Proof.
  induction l as [|z l IH]; intros init Hl Hi; simpl.
  - split; [assumption|split; [lra|split; [intros ? []|now left]]].
  - inversion Hl as [|? ? Fz Hl']; subst.
    assert (Ft : F32.finite (track_min init z) = true).
    { unfold track_min. now destruct (z <? init)%f32. }
    assert (Vt : (F32.B2R (track_min init z) <= F32.B2R init)%R /\
                 (F32.B2R (track_min init z) <= F32.B2R z)%R /\
                 (track_min init z = init \/ track_min init z = z)).
    { unfold track_min. destruct (z <? init)%f32 eqn:E.
      - apply ltb_true in E; auto. split; [lra|split; [lra|now right]].
      - apply ltb_false in E; auto. split; [lra|split; [lra|now left]]. }
    destruct Vt as (V1 & V2 & V3).
    destruct (IH (track_min init z) Hl' Ft) as (Fm & Hm1 & Hm2 & Hm3).
    split; [exact Fm|split; [lra|split]].
    + intros z' [<-|Hz']; [lra|now apply Hm2].
    + destruct Hm3 as [E|Hin]; [|now right; right].
      rewrite E. destruct V3 as [->| ->]; [now left|right; now left].
Qed.

Lemma track_max_fold l : forall init,
  Forall (fun z => F32.finite z = true) l -> F32.finite init = true ->
  let m := fold_left track_max l init in
  F32.finite m = true /\ (F32.B2R init <= F32.B2R m)%R /\
  (forall z, In z l -> (F32.B2R z <= F32.B2R m)%R) /\
  (m = init \/ In m l).
Proof.
  induction l as [|z l IH]; intros init Hl Hi; simpl.
  - split; [assumption|split; [lra|split; [intros ? []|now left]]].
  - inversion Hl as [|? ? Fz Hl']; subst.
    assert (Ft : F32.finite (track_max init z) = true).
    { unfold track_max, F32.gtb. now destruct (SFltb init z). }
    assert (Vt : (F32.B2R init <= F32.B2R (track_max init z))%R /\
                 (F32.B2R z <= F32.B2R (track_max init z))%R /\
                 (track_max init z = init \/ track_max init z = z)).
    { unfold track_max, F32.gtb. destruct (SFltb init z) eqn:E.
      - apply SFltb_correct in E; auto. split; [lra|split; [lra|now right]].
      - apply SFltb_false in E; auto. split; [lra|split; [lra|now left]]. }
    destruct Vt as (V1 & V2 & V3).
    destruct (IH (track_max init z) Hl' Ft) as (Fm & Hm1 & Hm2 & Hm3).
    split; [exact Fm|split; [lra|split]].
    + intros z' [<-|Hz']; [lra|now apply Hm2].
    + destruct Hm3 as [E|Hin]; [|now right; right].
      rewrite E. destruct V3 as [->| ->]; [now left|right; now left].
Qed.

(** * Normalised heights *)

Section Normalised.

Variables (z zmin zmax : float).
Hypotheses (Fz : F32.finite z = true).
Hypotheses (Fmin : F32.finite zmin = true) (Fmax : F32.finite zmax = true).
Hypothesis Fw : F32.finite (zmax - zmin)%f32 = true.
Hypothesis Hz : (F32.B2R zmin <= F32.B2R z <= F32.B2R zmax)%R.

Let range := height_range zmin zmax.
Let t := normalised zmin range z.

Lemma height_range_value :
  F32.finite range = true /\
  ((zmax - zmin <? Lit.f1em6)%f32 = true /\ range = Lit.f1_0 /\
     (F32.B2R (zmax - zmin)%f32 < F32.B2R Lit.f1em6)%R \/
   (zmax - zmin <? Lit.f1em6)%f32 = false /\ range = (zmax - zmin)%f32 /\
     (F32.B2R Lit.f1em6 <= F32.B2R (zmax - zmin)%f32)%R).
Proof.
  unfold range, height_range.
  assert (F6 : F32.finite Lit.f1em6 = true) by reflexivity.
  destruct (zmax - zmin <? Lit.f1em6)%f32 eqn:E.
  - split; [reflexivity|left]. apply ltb_true in E; auto.
  - split; [assumption|right]. apply ltb_false in E; auto.
Qed.

Lemma difference_bounds :
  F32.finite (z - zmin)%f32 = true /\
  (0 <= F32.B2R (z - zmin)%f32 <= F32.B2R (zmax - zmin)%f32)%R.
Proof.
  rewrite <- B2R_f0_0.
  apply (returns_between (F32.B2R Lit.f0_0) (F32.B2R z - F32.B2R zmin)
           (F32.B2R zmax - F32.B2R zmin)).
  - now apply returns_exact.
  - now apply sub_returns.
  - now apply sub_returns.
  - reflexivity.
  - exact Fw.
  - rewrite B2R_f0_0. lra.
Qed.

Lemma normalised_unit : unit_float t.
Proof.
  destruct difference_bounds as [Fd [Hd0 Hd1]].
  destruct height_range_value as [Fr [(_ & Er & Hr)|(_ & Er & Hr)]];
    unfold t, normalised; rewrite Er;
    unfold unit_float; rewrite <- B2R_f0_0, <- B2R_f1_0;
    rewrite B2R_f1em6 in Hr.
  - apply (div_interval _ _ Lit.f0_0 Lit.f1_0); auto; rewrite ?B2R_f1_0; try lra.
    rewrite B2R_f0_0. lra.
  - assert (Hpos : (0 < F32.B2R (zmax - zmin)%f32)%R) by lra.
    apply (div_interval _ _ Lit.f0_0 Lit.f1_0); auto; try lra.
    rewrite B2R_f0_0, B2R_f1_0. split.
    + apply Rmult_le_pos; [lra|]. left. now apply Rinv_0_lt_compat.
    + apply Rmult_le_reg_r with (F32.B2R (zmax - zmin)%f32); [assumption|].
      unfold Rdiv. rewrite Rmult_assoc, Rinv_l by lra. lra.
Qed.

Lemma range_nonzero : F32.B2R range <> 0%R.
Proof.
  destruct height_range_value as [Fr [(_ & Er & Hr)|(_ & Er & Hr)]]; rewrite Er.
  - rewrite B2R_f1_0. lra.
  - rewrite B2R_f1em6 in Hr. lra.
Qed.

Lemma normalised_min :
  F32.B2R z = F32.B2R zmin -> exists s, t = S754_zero s.
Proof.
  intros Heq.
  assert (Hd : F32.finite (z - zmin)%f32 = true /\
               F32.B2R (z - zmin)%f32 = F32.B2R Lit.f0_0).
  { apply (sub_exact _ _ Lit.f0_0); auto. rewrite B2R_f0_0. lra. }
  destruct Hd as [Fd Vd].
  destruct height_range_value as [Fr _]. pose proof range_nonzero as Hnz.
  assert (Ht : F32.finite t = true /\ F32.B2R t = F32.B2R Lit.f0_0).
  { apply (div_exact _ _ Lit.f0_0); auto. rewrite Vd, B2R_f0_0. unfold Rdiv. lra. }
  destruct Ht as [Ft Vt]. apply B2R_zero_inv; [exact Ft|]. now rewrite Vt, B2R_f0_0.
Qed.

Lemma normalised_max :
  F32.B2R z = F32.B2R zmax -> (zmax - zmin <? Lit.f1em6)%f32 = false ->
  t = Lit.f1_0.
Proof.
  intros Heq Hge.
  destruct height_range_value as [Fr [(E & _)|(_ & Er & Hr)]]; [congruence|].
  destruct difference_bounds as [Fd _].
  assert (Vd : F32.B2R (z - zmin)%f32 = F32.B2R (zmax - zmin)%f32).
  { apply (roundedS_fun (F32.B2R z - F32.B2R zmin)).
    - apply returns_finite_value; auto. now apply sub_returns.
    - rewrite Heq. apply returns_finite_value; auto. now apply sub_returns. }
  rewrite B2R_f1em6 in Hr.
  assert (Ht : F32.finite t = true /\ F32.B2R t = F32.B2R Lit.f1_0).
  { unfold t, normalised. rewrite Er.
    apply (div_exact _ _ Lit.f1_0); auto; try lra.
    rewrite Vd, B2R_f1_0. field. lra. }
  destruct Ht as [Ft Vt]. apply B2R_inj; auto. rewrite Vt, B2R_f1_0. lra.
Qed.

End Normalised.

(** * The radius guard and the sampled height *)

Lemma SFcompare_antisym x y :
  SFcompare y x = option_map CompOpp (SFcompare x y).
Proof.
  destruct x as [sx|sx| |sx mx ex], y as [sy|sy| |sy my ey];
    try destruct sx; try destruct sy; simpl; try reflexivity.
  - rewrite (Z.compare_antisym ex ey).
    destruct (ex ?= ey); simpl; try reflexivity.
    pose proof (Pos.compare_cont_antisym mx my Eq) as H. simpl in H.
    now rewrite <- H.
  - rewrite (Z.compare_antisym ex ey).
    destruct (ex ?= ey); simpl; try reflexivity.
    pose proof (Pos.compare_cont_antisym mx my Eq) as H. simpl in H.
    now rewrite <- H.
Qed.

Lemma ltb_false_leb x y :
  (x <? y)%f32 = false -> F32.is_nan x = false -> F32.is_nan y = false ->
  (y <=? x)%f32 = true.
Proof.
  unfold F32.ltb, F32.leb, SFltb, SFleb. rewrite (SFcompare_antisym x y).
  intros H Hx Hy.
  destruct x, y; try discriminate; simpl in *;
    repeat match goal with
    | |- context [if ?b then _ else _] => destruct b; simpl in *
    | H : context [if ?b then _ else _] |- _ => destruct b; simpl in *
    end; try discriminate; try reflexivity;
    destruct (e ?= e0); simpl in *; try discriminate; try reflexivity;
    destruct (Pos.compare_cont Eq m m0); simpl in *; try discriminate; reflexivity.
Qed.

Lemma sample_radius_guard x y :
  let r := sample_radius x y in
  (r <? Lit.f1em4)%f32 = false /\
  (forall s, r <> S754_zero s) /\
  (F32.is_nan r = false -> (Lit.f1em4 <=? r)%f32 = true).
Proof.
  unfold sample_radius.
  set (r0 := F32.sqrt (x * x + y * y)%f32).
  destruct (r0 <? Lit.f1em4)%f32 eqn:E.
  - split; [reflexivity|split; [discriminate|reflexivity]].
  - split; [exact E|split].
    + intros s Hs. rewrite Hs in E. destruct s; discriminate.
    + intros Hn. now apply ltb_false_leb.
Qed.

Lemma sample_radius_origin s s' :
  sample_radius (S754_zero s) (S754_zero s') = Lit.f1em4.
Proof. now destruct s, s'. Qed.

Lemma B2R_abs x : F32.B2R (F32.abs x) = Rabs (F32.B2R x).
Proof.
  pose proof (Babs_nonneg x) as H.
  destruct x as [s|s| |s m e]; unfold F32.B2R; simpl in *;
    try destruct s; rewrite ?Rabs_Ropp, ?Rabs_R0, ?Ropp_0; try reflexivity;
    symmetry; now apply Rabs_pos_eq.
Qed.

Lemma finite_abs x : F32.finite (F32.abs x) = F32.finite x.
Proof. now destruct x. Qed.

Lemma abs_leb_inv x c :
  F32.finite x = true -> F32.finite c = true ->
  (F32.abs x <=? c)%f32 = true -> (- F32.B2R c <= F32.B2R x <= F32.B2R c)%R.
Proof.
  intros Fx Fc H. apply SFleb_correct in H; [|now rewrite finite_abs|assumption].
  rewrite B2R_abs in H. unfold Rabs in H. destruct (Rcase_abs _); lra.
Qed.

Lemma B2R_p114 : F32.B2R Bound.p114 = pow2 114.
Proof.
  unfold Bound.p114, F32.B2R; simpl. rewrite <- pow2_23, <- pow2_add. reflexivity.
Qed.

Lemma B2R_p126 : F32.B2R Bound.p126 = pow2 126.
Proof.
  unfold Bound.p126, F32.B2R; simpl. rewrite <- pow2_23, <- pow2_add. reflexivity.
Qed.

Lemma B2R_p127 : F32.B2R Bound.p127 = pow2 127.
Proof.
  unfold Bound.p127, F32.B2R; simpl. rewrite <- pow2_23, <- pow2_add. reflexivity.
Qed.

Lemma div_nan_r x : (x / F32.nan)%f32 = F32.nan.
Proof. now destruct x. Qed.

Lemma mul_nan_r x : (x * F32.nan)%f32 = F32.nan.
Proof. now destruct x. Qed.

(** * Heights and colours of a mesh *)

Lemma vertex_index_split N v :
  0 < N -> 0 <= v < N * N ->
  0 <= v / N < N /\ 0 <= v mod N < N /\ v = v / N * N + v mod N.
Proof.
  intros HN Hv. pose proof (Z.mod_pos_bound v N HN).
  pose proof (Z.div_mod v N ltac:(lia)).
  split; [|split; [assumption|lia]].
  split; [apply Z.div_pos; lia|apply Z.div_lt_upper_bound; lia].
Qed.

Section Colours.

Variable sinf : float -> float.
Variables (N : Z) (radius zscale freq : float).
Hypothesis HN : 3 <= N.

Let m := mesh_of sinf N radius zscale freq.
Let height := vertex_height sinf N radius zscale freq.
Let heights := grid_heights sinf N radius zscale freq.
Let zmin := p_zmin (sample_pass sinf N radius zscale freq).
Let zmax := p_zmax (sample_pass sinf N radius zscale freq).

Lemma mesh_vertex_count : vertex_count m = N * N.
Proof. apply mesh_of_counts. exact HN. Qed.

Lemma mesh_height j i :
  0 <= j < N -> 0 <= i < N -> height_of m (j * N + i) = height j i.
Proof.
  intros Hj Hi. unfold height_of, m. now rewrite mesh_of_position.
Qed.

Lemma mesh_height_split v :
  0 <= v < N * N -> height_of m v = height (v / N) (v mod N).
Proof.
  intros Hv. destruct (vertex_index_split N v ltac:(lia) Hv) as (Hj & Hi & E).
  rewrite E at 1. now apply mesh_height.
Qed.

Hypothesis Hfin : forall v, 0 <= v < vertex_count m -> F32.finite (height_of m v) = true.

Lemma height_finite j i : 0 <= j < N -> 0 <= i < N -> F32.finite (height j i) = true.
Proof.
  intros Hj Hi. rewrite <- mesh_height by assumption.
  apply Hfin. rewrite mesh_vertex_count. nia.
Qed.

Lemma heights_finite : Forall (fun z => F32.finite z = true) heights.
Proof.
  apply Forall_forall. intros z Hz.
  apply In_grid_heights in Hz as (j & i & Hj & Hi & ->). now apply height_finite.
Qed.

Lemma heights_vertex z :
  In z heights -> exists v, 0 <= v < vertex_count m /\ z = height_of m v.
Proof.
  intros Hz. apply In_grid_heights in Hz as (j & i & Hj & Hi & ->).
  exists (j * N + i). rewrite mesh_vertex_count, mesh_height by assumption.
  split; [nia|reflexivity].
Qed.

Lemma vertex_heights v : 0 <= v < vertex_count m -> In (height_of m v) heights.
Proof.
  intros Hv. rewrite mesh_vertex_count in Hv.
  destruct (vertex_index_split N v ltac:(lia) Hv) as (Hj & Hi & E).
  rewrite mesh_height_split by assumption. now apply grid_heights_In.
Qed.

Lemma zmin_tracked :
  F32.finite zmin = true /\ (F32.B2R zmin <= F32.B2R Lit.f1e9)%R /\
  (forall z, In z heights -> (F32.B2R zmin <= F32.B2R z)%R) /\
  (zmin = Lit.f1e9 \/ In zmin heights).
Proof.
  unfold zmin. rewrite sample_pass_zmin.
  apply track_min_fold; [apply heights_finite|reflexivity].
Qed.

Lemma zmax_tracked :
  F32.finite zmax = true /\ (F32.B2R (- Lit.f1e9)%f32 <= F32.B2R zmax)%R /\
  (forall z, In z heights -> (F32.B2R z <= F32.B2R zmax)%R) /\
  (zmax = (- Lit.f1e9)%f32 \/ In zmax heights).
Proof.
  unfold zmax. rewrite sample_pass_zmax.
  apply track_max_fold; [apply heights_finite|reflexivity].
Qed.

(** The colour stored for a vertex is the ramp at its normalised height. *)
Lemma mesh_color v :
  0 <= v < vertex_count m ->
  exists r g b,
    ramp (normalised zmin (height_range zmin zmax) (height_of m v)) = (r, g, b) /\
    color_of m v = [r; g; b].
Proof.
  intros Hv. rewrite mesh_vertex_count in Hv.
  destruct (vertex_index_split N v ltac:(lia) Hv) as (Hj & Hi & E).
  pose proof (mesh_of_color sinf N radius zscale freq _ _ Hj Hi) as H.
  cbv zeta in H. rewrite <- E in H. fold m zmin zmax in H.
  rewrite mesh_height_split by assumption. fold height.
  destruct (ramp _) as [[r g] b]. now exists r, g, b.
Qed.

Lemma lowest_value v :
  0 <= v < vertex_count m -> lowest m v ->
  (height_of m v <=? Lit.f1e9)%f32 = true ->
  F32.B2R (height_of m v) = F32.B2R zmin.
Proof.
  intros Hv Hlow H9.
  destruct zmin_tracked as (Fm & _ & Hle & Hin).
  pose proof (Hfin v Hv) as Fv.
  apply Rle_antisym; [|apply Hle; now apply vertex_heights].
  destruct Hin as [->|Hin].
  - apply SFleb_correct in H9; auto.
  - apply heights_vertex in Hin as (u & Hu & ->).
    specialize (Hlow u Hu). apply SFleb_correct in Hlow; auto.
Qed.

Lemma highest_value v :
  0 <= v < vertex_count m -> highest m v ->
  (- Lit.f1e9 <=? height_of m v)%f32 = true ->
  F32.B2R (height_of m v) = F32.B2R zmax.
Proof.
  intros Hv Hhigh H9.
  destruct zmax_tracked as (Fm & _ & Hle & Hin).
  pose proof (Hfin v Hv) as Fv.
  apply Rle_antisym; [apply Hle; now apply vertex_heights|].
  destruct Hin as [->|Hin].
  - apply SFleb_correct in H9; auto.
  - apply heights_vertex in Hin as (u & Hu & ->).
    specialize (Hhigh u Hu). apply SFleb_correct in Hhigh; auto.
Qed.

Lemma height_between v :
  0 <= v < vertex_count m ->
  (F32.B2R zmin <= F32.B2R (height_of m v) <= F32.B2R zmax)%R.
Proof.
  intros Hv. destruct zmin_tracked as (_ & _ & Hlo & _).
  destruct zmax_tracked as (_ & _ & Hhi & _).
  split; [apply Hlo|apply Hhi]; now apply vertex_heights.
Qed.

End Colours.

(** * Resolution, counts and indices *)

(** C9: a resolution below 3 is clamped to 3: the call returns a mesh, and
    it is the mesh of resolution 3 with the same remaining parameters. *)
Theorem small_resolution_clamped sinf N radius zscale freq :
  N < 3 ->
  makeSombrero sinf N radius zscale freq = makeSombrero sinf 3 radius zscale freq /\
  makeSombrero sinf N radius zscale freq = Some (mesh_of sinf 3 radius zscale freq).
Proof.
  intros HN. rewrite !makeSombrero_eq.
  rewrite (clamp_resolution_small N HN). now split.
Qed.

Lemma small_resolution_clamped_witness :
  -5 < 3 /\
  makeSombrero sin_poly (-5) Lit.f6_0 Lit.f1_0 Lit.f1_0
  = makeSombrero sin_poly 3 Lit.f6_0 Lit.f1_0 Lit.f1_0.
Proof.
  split; [lia|].
  apply (small_resolution_clamped sin_poly (-5) Lit.f6_0 Lit.f1_0 Lit.f1_0). lia.
Defined.

(** C3, as the code has it: for every resolution from 3 to 18919 the call
    returns a mesh with N*N vertices, N*N colours and 6*(N-1)*(N-1) indices,
    which is also the stored index count; resolution 3 gives 9 vertices and
    24 indices, resolution 128 gives 16384 vertices and 96774 indices. *)
Theorem vertex_and_index_counts sinf :
  (forall N radius zscale freq, 3 <= N <= max_resolution ->
     exists m, makeSombrero sinf N radius zscale freq = Some m /\
       vertex_count m = N * N /\ color_count m = N * N /\
       index_count m = 6 * ((N - 1) * (N - 1)) /\
       indexCount m = 6 * ((N - 1) * (N - 1))) /\
  (exists m, makeSombrero sinf 3 Lit.f1_0 Lit.f1_0 Lit.f1_0 = Some m /\
     vertex_count m = 9 /\ color_count m = 9 /\ index_count m = 24) /\
  (exists m, makeSombrero sinf 128 Lit.f6_0 Lit.f1_0 Lit.f1_0 = Some m /\
     vertex_count m = 16384 /\ color_count m = 16384 /\ index_count m = 96774).
Proof.
  assert (G : forall N radius zscale freq, 3 <= N <= max_resolution ->
     exists m, makeSombrero sinf N radius zscale freq = Some m /\
       vertex_count m = N * N /\ color_count m = N * N /\
       index_count m = 6 * ((N - 1) * (N - 1)) /\
       indexCount m = 6 * ((N - 1) * (N - 1))).
  { intros N radius zscale freq HN.
    exists (mesh_of sinf N radius zscale freq). split.
    - rewrite makeSombrero_defined; rewrite clamp_resolution_id; try reflexivity; lia.
    - apply mesh_of_counts. lia. }
  split; [exact G|split].
  - destruct (G 3 Lit.f1_0 Lit.f1_0 Lit.f1_0) as (m & Hm & Hv & Hc & Hi & _);
      [unfold max_resolution; lia|].
    exists m. rewrite Hv, Hc, Hi. split; [exact Hm|]. repeat split.
  - destruct (G 128 Lit.f6_0 Lit.f1_0 Lit.f1_0) as (m & Hm & Hv & Hc & Hi & _);
      [unfold max_resolution; lia|].
    exists m. rewrite Hv, Hc, Hi. split; [exact Hm|]. repeat split.
Qed.

Lemma vertex_and_index_counts_witness :
  3 <= 4 <= max_resolution /\
  exists m, makeSombrero sin_poly 4 Lit.f1_0 Lit.f1_0 Lit.f1_0 = Some m /\
    vertex_count m = 4 * 4 /\ color_count m = 4 * 4 /\
    index_count m = 6 * ((4 - 1) * (4 - 1)) /\
    indexCount m = 6 * ((4 - 1) * (4 - 1)).
Proof.
  split; [unfold max_resolution; lia|].
  apply (proj1 (vertex_and_index_counts sin_poly) 4 Lit.f1_0 Lit.f1_0 Lit.f1_0).
  unfold max_resolution; lia.
Defined.

(** C3 as stated fails: at resolution 18920 the [int] expression
    [(N-1)*(N-1)*6] overflows and the call has no defined result. *)
Lemma no_mesh_at_18920 :
  3 <= 18920 /\ Int.mul ((18920 - 1) * (18920 - 1)) 6 = None /\
  forall sinf radius zscale freq, makeSombrero sinf 18920 radius zscale freq = None.
Proof.
  split; [lia|split; [reflexivity|]]. intros. rewrite makeSombrero_eq. reflexivity.
Qed.

(** C4: whenever the call returns a mesh, for a resolution given as at least
    3 or clamped to 3, every index is below the vertex count N*N; the call
    does return a mesh up to resolution 18919. *)
Theorem indices_below_vertex_count sinf N radius zscale freq :
  let N' := clamp_resolution N in
  (N' <= max_resolution -> makeSombrero sinf N radius zscale freq <> None) /\
  (forall m, makeSombrero sinf N radius zscale freq = Some m ->
     vertex_count m = N' * N' /\
     Forall (fun k => 0 <= k < vertex_count m) (idx m)).
Proof.
  intros N'. split.
  - intros H. rewrite makeSombrero_defined by exact H. discriminate.
  - intros m Hm. apply makeSombrero_Some in Hm as [Hle ->]. fold N'.
    destruct (mesh_of_counts sinf N' radius zscale freq) as (Hv & _).
    { apply clamp_resolution_ge. }
    rewrite Hv. split; [reflexivity|]. apply index_pass_bound.
Qed.

Lemma indices_below_vertex_count_witness :
  makeSombrero sin_poly 3 Lit.f1_0 Lit.f1_0 Lit.f1_0
  = Some (mesh_of sin_poly 3 Lit.f1_0 Lit.f1_0 Lit.f1_0) /\
  Forall (fun k => 0 <= k < vertex_count (mesh_of sin_poly 3 Lit.f1_0 Lit.f1_0 Lit.f1_0))
    (idx (mesh_of sin_poly 3 Lit.f1_0 Lit.f1_0 Lit.f1_0)).
Proof.
  split; [apply makeSombrero_defined; unfold max_resolution, clamp_resolution; simpl; lia|].
  apply (proj2 (indices_below_vertex_count sin_poly 3 Lit.f1_0 Lit.f1_0 Lit.f1_0)).
  apply makeSombrero_defined; unfold max_resolution, clamp_resolution; simpl; lia.
Defined.

(** C2, as the code has it: for every resolution from 3 to 256 the call
    returns a mesh in which the six indices of every cell are exactly the
    grid positions a = j*N+i, c = (j+1)*N+i, b = j*N+(i+1), d = (j+1)*N+(i+1),
    in the order a c b b c d. *)
Theorem indices_exact_up_to_256 sinf N radius zscale freq :
  3 <= N <= 256 ->
  exists m, makeSombrero sinf N radius zscale freq = Some m /\ indices_exact N m.
Proof.
  intros HN. exists (mesh_of sinf N radius zscale freq). split.
  - rewrite makeSombrero_defined; rewrite clamp_resolution_id; try reflexivity;
      unfold max_resolution; lia.
  - intros j i Hj Hi. unfold mesh_of; simpl idx.
    rewrite index_pass_cell by assumption.
    unfold cell_indices, grid_corners.
    rewrite !to_ushort_small by nia. reflexivity.
Qed.

Lemma indices_exact_up_to_256_witness :
  3 <= 3 <= 256 /\
  exists m, makeSombrero sin_poly 3 Lit.f1_0 Lit.f1_0 Lit.f1_0 = Some m /\
    indices_exact 3 m.
Proof.
  split; [lia|].
  apply (indices_exact_up_to_256 sin_poly 3 Lit.f1_0 Lit.f1_0 Lit.f1_0). lia.
Defined.

(** C2 as stated fails: at resolution 257 the cell of row 255 and column 0
    stores 256 for the corner at grid position 65792. *)
Lemma indices_wrap_at_257 :
  grid_corners 257 255 0 = [65535; 65792; 65536; 65536; 65792; 65793] /\
  forall sinf : float -> float,
  exists m, makeSombrero sinf 257 Lit.f6_0 Lit.f1_0 Lit.f1_0 = Some m /\
    cell_of (idx m) 257 255 0 = [65535; 256; 0; 0; 256; 257] /\
    ~ indices_exact 257 m.
Proof.
  split; [reflexivity|].
  intros. exists (mesh_of sinf 257 Lit.f6_0 Lit.f1_0 Lit.f1_0).
  assert (Hc : cell_of (idx (mesh_of sinf 257 Lit.f6_0 Lit.f1_0 Lit.f1_0)) 257 255 0
               = [65535; 256; 0; 0; 256; 257]).
  { unfold mesh_of; simpl idx.
    now rewrite (index_pass_cell 257 255 0) by lia. }
  split; [|split].
  - apply makeSombrero_defined. unfold max_resolution, clamp_resolution; simpl; lia.
  - exact Hc.
  - intros H. specialize (H 255 0 ltac:(lia) ltac:(lia)).
    rewrite Hc in H. discriminate H.
Qed.

(** * The per-frame matrices *)

(** C8: for aspect 1, near plane 0.1 and far plane 50, whatever the field
    of view, entry 11 of [perspective] is -1, entry 10 is the binary32
    quotient (far+near)/(near-far), within 1e-5 of -50.1/49.9, and entry 14
    is the binary32 quotient (2*far*near)/(near-far), within 1e-5 of
    -10/49.9. *)
Theorem perspective_depth_entries tanf fovy :
  let P := perspective tanf fovy Lit.f1_0 Lit.f0_1 Lit.f50_0 in
  get P 11 = (- Lit.f1_0)%f32 /\
  get P 10 = ((Lit.f50_0 + Lit.f0_1) / (Lit.f0_1 - Lit.f50_0))%f32 /\
  get P 14 = ((Lit.f2_0 * Lit.f50_0 * Lit.f0_1) / (Lit.f0_1 - Lit.f50_0))%f32 /\
  F32.finite (get P 10) = true /\ F32.finite (get P 14) = true /\
  (Qabs (F32.to_Q (get P 10) - - ((501 # 10) / (499 # 10))) <= 1 # 100000)%Q /\
  (Qabs (F32.to_Q (get P 14) - - (10 / (499 # 10))) <= 1 # 100000)%Q.
Proof.
  intros P.
  assert (H11 : get P 11 = (- Lit.f1_0)%f32) by reflexivity.
  assert (H10 : get P 10 = ((Lit.f50_0 + Lit.f0_1) / (Lit.f0_1 - Lit.f50_0))%f32)
    by reflexivity.
  assert (H14 : get P 14
                = ((Lit.f2_0 * Lit.f50_0 * Lit.f0_1) / (Lit.f0_1 - Lit.f50_0))%f32)
    by reflexivity.
  rewrite H10, H14.
  repeat split; try reflexivity; apply Qle_bool_imp_le; vm_compute; reflexivity.
Qed.

(** * Positions *)

Lemma radius_width_finite radius :
  F32.finite radius = true -> (F32.zero <? radius)%f32 = true ->
  (radius <? Bound.p127)%f32 = true ->
  (0 < F32.B2R radius)%R /\ F32.finite (radius - (- radius))%f32 = true.
Proof.
  intros Fr H0 H127.
  apply ltb_true in H0; [|reflexivity|assumption].
  change F32.zero with Lit.f0_0 in H0. rewrite B2R_f0_0 in H0.
  apply ltb_true in H127; [|assumption|reflexivity]. rewrite B2R_p127 in H127.
  split; [assumption|].
  apply (returns_repr_bound (2 * F32.B2R radius)).
  - replace (2 * F32.B2R radius)%R with (F32.B2R radius - F32.B2R (- radius)%f32)%R
      by (rewrite B2R_neg; lra).
    apply sub_returns; [assumption|now rewrite finite_neg].
  - apply roundedS_double. now apply roundedS_B2R.
  - replace 128 with (127 + 1) by lia. rewrite pow2_succ.
    apply Rabs_def1; lra.
Qed.

(** C10, as the code has it: when the call returns a mesh for a finite
    radius with 0 < radius < 2^127, the x and y components of every vertex
    position lie between -1.5 and 1.5, and they are exactly -1.5 in the
    first column or row and exactly 1.5 in the last one: the display radius
    is the constant 1.5 whatever the domain radius. *)
Theorem positions_in_display_square sinf N radius zscale freq m :
  makeSombrero sinf N radius zscale freq = Some m ->
  F32.finite radius = true -> (F32.zero <? radius)%f32 = true ->
  (radius <? Bound.p127)%f32 = true ->
  let N' := clamp_resolution N in
  forall j i, 0 <= j < N' -> 0 <= i < N' ->
  exists x y z, position_of m (j * N' + i) = [x; y; z] /\
    x = ((grid_coord N' radius i / radius) * Lit.f1_5)%f32 /\
    y = ((grid_coord N' radius j / radius) * Lit.f1_5)%f32 /\
    (- Lit.f1_5 <=? x)%f32 = true /\ (x <=? Lit.f1_5)%f32 = true /\
    (- Lit.f1_5 <=? y)%f32 = true /\ (y <=? Lit.f1_5)%f32 = true /\
    (i = 0 -> x = (- Lit.f1_5)%f32) /\ (i = N' - 1 -> x = Lit.f1_5) /\
    (j = 0 -> y = (- Lit.f1_5)%f32) /\ (j = N' - 1 -> y = Lit.f1_5).
Proof.
  intros Hm Fr H0 H127 N' j i Hj Hi.
  apply makeSombrero_Some in Hm as [Hle ->]. fold N'.
  destruct (radius_width_finite radius Fr H0 H127) as [Rpos Fw].
  assert (HN : 3 <= N' <= max_resolution) by (split; [apply clamp_resolution_ge|exact Hle]).
  destruct (vertex_x_value N' radius HN Fr Rpos Fw i Hi) as (Fx & Hx & X0 & X1).
  destruct (vertex_x_value N' radius HN Fr Rpos Fw j Hj) as (Fy & Hy & Y0 & Y1).
  rewrite mesh_of_position by assumption.
  exists (vertex_x N' radius i), (vertex_x N' radius j),
         (vertex_height sinf N' radius zscale freq j i).
  assert (V15 : F32.B2R (- Lit.f1_5)%f32 = (- (3 / 2))%R)
    by (rewrite B2R_neg, B2R_f1_5; lra).
  split; [reflexivity|split; [reflexivity|split; [reflexivity|]]].
  repeat match goal with |- _ /\ _ => split end; auto;
    apply leb_intro; auto; rewrite ?V15, ?B2R_f1_5; lra.
Qed.

Lemma positions_in_display_square_witness :
  exists x y z,
    position_of (mesh_of sin_poly 3 Lit.f6_0 Lit.f1_0 Lit.f1_0) (2 * 3 + 0) = [x; y; z] /\
    x = (- Lit.f1_5)%f32 /\ y = Lit.f1_5.
Proof.
  destruct (positions_in_display_square sin_poly 3 Lit.f6_0 Lit.f1_0 Lit.f1_0
              (mesh_of sin_poly 3 Lit.f6_0 Lit.f1_0 Lit.f1_0))
    with (j := 2) (i := 0)
    as (x & y & z & Hp & _ & _ & _ & _ & _ & _ & X0 & _ & _ & Y1).
  - apply makeSombrero_defined. unfold max_resolution, clamp_resolution; simpl; lia.
  - reflexivity.
  - reflexivity.
  - reflexivity.
  - unfold clamp_resolution; simpl; lia.
  - unfold clamp_resolution; simpl; lia.
  - exists x, y, z. split; [exact Hp|split; [now apply X0|now apply Y1]].
Defined.

(** C10 as stated fails: for the finite radius 2^127 the domain width
    overflows and the first vertex has NaN for x and y. *)
Lemma position_nan_at_radius_2p127 :
  F32.finite Bound.p127 = true /\ (F32.zero <? Bound.p127)%f32 = true /\
  (F32.nan <=? Lit.f1_5)%f32 = false /\
  forall sinf : float -> float,
  exists m z, makeSombrero sinf 3 Bound.p127 Lit.f1_0 Lit.f1_0 = Some m /\
    position_of m 0 = [F32.nan; F32.nan; z].
Proof.
  split; [reflexivity|split; [reflexivity|split; [reflexivity|]]].
  intros sinf. exists (mesh_of sinf 3 Bound.p127 Lit.f1_0 Lit.f1_0).
  exists (vertex_height sinf 3 Bound.p127 Lit.f1_0 Lit.f1_0 0 0).
  split.
  - apply makeSombrero_defined. unfold max_resolution, clamp_resolution; simpl; lia.
  - change 0 with (0 * 3 + 0) at 1. rewrite mesh_of_position by lia. reflexivity.
Qed.

(** * Signed zeros *)

Lemma eqb_zero_inv x : (x =? F32.zero)%f32 = true -> exists s, x = S754_zero s.
Proof.
  destruct x as [s|s| |s m e]; try destruct s; try discriminate; eauto.
Qed.

(** * Colours *)

Lemma bounded_heights_finite m :
  heights_bounded m ->
  forall v, 0 <= v < vertex_count m -> F32.finite (height_of m v) = true.
Proof. intros H v Hv. now apply H. Qed.

Lemma bounded_height_value m v :
  heights_bounded m -> 0 <= v < vertex_count m ->
  (- pow2 126 <= F32.B2R (height_of m v) <= pow2 126)%R.
Proof.
  intros H Hv. destruct (H v Hv) as [Fv Hb].
  apply abs_leb_inv in Hb; [|assumption|reflexivity].
  now rewrite B2R_p126 in Hb.
Qed.

Lemma pow2_126_bounds : (1000000000 <= pow2 126)%R /\ (2 * pow2 126 = pow2 127)%R.
Proof.
  split.
  - apply Rle_trans with (pow2 30).
    + rewrite (pow2_IZR 30) by lia. apply IZR_le. vm_compute. discriminate.
    + apply pow2_le. lia.
  - replace 127 with (126 + 1) by lia. now rewrite pow2_succ.
Qed.

Lemma difference_finite x y :
  F32.finite x = true -> F32.finite y = true ->
  (- pow2 126 <= F32.B2R x <= pow2 126)%R ->
  (- pow2 126 <= F32.B2R y <= pow2 126)%R ->
  F32.finite (x - y)%f32 = true.
Proof.
  intros Fx Fy Hx Hy. destruct pow2_126_bounds as [_ H2].
  apply (sub_interval _ _ (- Bound.p127)%f32 Bound.p127); auto.
  rewrite B2R_neg, B2R_p127. lra.
Qed.

Lemma eqb_leb x y : (x =? y)%f32 = true -> (x <=? y)%f32 = true.
Proof.
  unfold F32.eqb, F32.leb, SFeqb, SFleb.
  destruct (SFcompare x y) as [[]|]; congruence.
Qed.

Section ColourClaims.

Variable sinf : float -> float.
Variables (N : Z) (radius zscale freq : float).
Hypothesis HN : 3 <= N.

Let m := mesh_of sinf N radius zscale freq.
Let zmin := p_zmin (sample_pass sinf N radius zscale freq).
Let zmax := p_zmax (sample_pass sinf N radius zscale freq).

Hypothesis Hfin : forall v, 0 <= v < vertex_count m -> F32.finite (height_of m v) = true.

Lemma tracked_bounds :
  (forall v, 0 <= v < vertex_count m ->
     (- pow2 126 <= F32.B2R (height_of m v) <= pow2 126)%R) ->
  (- pow2 126 <= F32.B2R zmin <= pow2 126)%R /\
  (- pow2 126 <= F32.B2R zmax <= pow2 126)%R.
Proof.
  intros Hb. destruct pow2_126_bounds as [H9 _].
  destruct (zmin_tracked sinf N radius zscale freq HN Hfin) as (_ & Hmin9 & _ & Hmin).
  destruct (zmax_tracked sinf N radius zscale freq HN Hfin) as (_ & Hmax9 & _ & Hmax).
  fold zmin in Hmin9, Hmin. fold zmax in Hmax9, Hmax.
  rewrite B2R_f1e9 in Hmin9. rewrite B2R_neg, B2R_f1e9 in Hmax9.
  split.
  - destruct Hmin as [->|Hin].
    + rewrite B2R_f1e9. lra.
    + apply (heights_vertex sinf N radius zscale freq HN) in Hin as (u & Hu & ->).
      now apply Hb.
  - destruct Hmax as [->|Hin].
    + rewrite B2R_neg, B2R_f1e9. lra.
    + apply (heights_vertex sinf N radius zscale freq HN) in Hin as (u & Hu & ->).
      now apply Hb.
Qed.

Lemma colour_components v :
  F32.finite (zmax - zmin)%f32 = true -> 0 <= v < vertex_count m ->
  exists r g b, color_of m v = [r; g; b] /\
    unit_float r /\ unit_float g /\ unit_float b /\
    (F32.B2R (height_of m v) = F32.B2R zmin ->
       r = Lit.f0_0 /\ (g =? Lit.f0_0)%f32 = true /\ b = Lit.f1_0) /\
    (F32.B2R (height_of m v) = F32.B2R zmax ->
       (zmax - zmin <? Lit.f1em6)%f32 = false ->
       r = Lit.f1_0 /\ g = Lit.f0_0 /\ b = Lit.f0_0).
Proof.
  intros Fw Hv.
  destruct (zmin_tracked sinf N radius zscale freq HN Hfin) as (Fmin & _).
  destruct (zmax_tracked sinf N radius zscale freq HN Hfin) as (Fmax & _).
  fold zmin in Fmin. fold zmax in Fmax.
  pose proof (height_between sinf N radius zscale freq HN Hfin v Hv) as Hz.
  fold zmin zmax m in Hz.
  pose proof (Hfin v Hv) as Fz.
  destruct (mesh_color sinf N radius zscale freq HN v Hv) as (r & g & b & Hr & Hc).
  fold m zmin zmax in Hr, Hc.
  exists r, g, b. split; [exact Hc|].
  pose proof (normalised_unit _ _ _ Fz Fmin Fmax Fw Hz) as Ht.
  pose proof (ramp_unit _ Ht) as Hu. rewrite Hr in Hu.
  destruct Hu as (Ur & Ug & Ub).
  split; [exact Ur|split; [exact Ug|split; [exact Ub|split]]].
  - intros Heq.
    destruct (normalised_min _ _ _ Fz Fmin Fw Hz Heq) as [s Es].
    rewrite Es, ramp_zero in Hr. injection Hr as <- <- <-.
    split; [reflexivity|split; [now destruct s|reflexivity]].
  - intros Heq Hge.
    rewrite (normalised_max _ _ _ Fz Fmin Fmax Fw Hz Heq Hge), ramp_one in Hr.
    injection Hr as <- <- <-. auto.
Qed.

Lemma range_not_below v u :
  F32.finite (zmax - zmin)%f32 = true ->
  0 <= v < vertex_count m -> 0 <= u < vertex_count m ->
  F32.B2R (height_of m v) = F32.B2R zmax ->
  F32.finite (height_of m v - height_of m u)%f32 = true ->
  (height_of m v - height_of m u <? Lit.f1em6)%f32 = false ->
  (zmax - zmin <? Lit.f1em6)%f32 = false.
Proof.
  intros Fw Hv Hu Heq Fd Hd.
  destruct (zmin_tracked sinf N radius zscale freq HN Hfin) as (Fmin & _).
  destruct (zmax_tracked sinf N radius zscale freq HN Hfin) as (Fmax & _).
  fold zmin in Fmin. fold zmax in Fmax.
  pose proof (height_between sinf N radius zscale freq HN Hfin u Hu) as Hz.
  fold zmin zmax m in Hz.
  apply ltb_false in Hd; [|assumption|reflexivity].
  apply SFltb_false; [assumption|reflexivity|].
  eapply Rle_trans; [exact Hd|].
  apply (roundedS_mono (F32.B2R (height_of m v) - F32.B2R (height_of m u))
                       (F32.B2R zmax - F32.B2R zmin)).
  - lra.
  - apply returns_finite_value; [|assumption]. apply sub_returns; auto.
  - apply returns_finite_value; [|assumption]. now apply sub_returns.
Qed.

(** A zero range: every height equals the tracked minimum. *)
Lemma flat_range v :
  (zmax - zmin =? F32.zero)%f32 = true -> 0 <= v < vertex_count m ->
  F32.finite (zmax - zmin)%f32 = true /\
  height_range zmin zmax = Lit.f1_0 /\
  F32.B2R (height_of m v) = F32.B2R zmin.
Proof.
  intros H0 Hv. apply eqb_zero_inv in H0 as [s Es].
  destruct (zmin_tracked sinf N radius zscale freq HN Hfin) as (Fmin & _).
  destruct (zmax_tracked sinf N radius zscale freq HN Hfin) as (Fmax & _).
  fold zmin in Fmin. fold zmax in Fmax.
  pose proof (height_between sinf N radius zscale freq HN Hfin v Hv) as Hz.
  fold zmin zmax m in Hz.
  assert (Fw : F32.finite (zmax - zmin)%f32 = true) by now rewrite Es.
  assert (Heq : F32.B2R zmax = F32.B2R zmin).
  { apply sub_zero_inv; auto.
    change (SFsub 24 128 zmax zmin) with (zmax - zmin)%f32. rewrite Es. apply B2R_zero. }
  split; [exact Fw|split; [|lra]].
  unfold height_range. rewrite Es. now destruct s.
Qed.

(** Equal heights within the initial bounds give a zero range. *)
Lemma equal_heights_flat :
  (forall u v, 0 <= u < vertex_count m -> 0 <= v < vertex_count m ->
     (height_of m u =? height_of m v)%f32 = true) ->
  (forall v, 0 <= v < vertex_count m ->
     (F32.abs (height_of m v) <=? Lit.f1e9)%f32 = true) ->
  (zmax - zmin =? F32.zero)%f32 = true.
Proof.
  intros Heq Hb.
  destruct (zmin_tracked sinf N radius zscale freq HN Hfin) as (Fmin & _).
  destruct (zmax_tracked sinf N radius zscale freq HN Hfin) as (Fmax & _).
  fold zmin in Fmin. fold zmax in Fmax.
  assert (H0 : 0 <= 0 < vertex_count m).
  { unfold m. rewrite (mesh_vertex_count sinf N radius zscale freq HN). nia. }
  pose proof (Hfin 0 H0) as F0.
  pose proof (abs_leb_inv _ Lit.f1e9 F0 eq_refl (Hb 0 H0)) as B0. rewrite B2R_f1e9 in B0.
  assert (Hlo : F32.B2R (height_of m 0) = F32.B2R zmin).
  { apply (lowest_value sinf N radius zscale freq HN Hfin 0 H0).
    - intros u Hu. apply eqb_leb. apply Heq; assumption.
    - apply leb_intro; [assumption|reflexivity|]. rewrite B2R_f1e9. apply B0. }
  assert (Hhi : F32.B2R (height_of m 0) = F32.B2R zmax).
  { apply (highest_value sinf N radius zscale freq HN Hfin 0 H0).
    - intros u Hu. apply eqb_leb. apply Heq; assumption.
    - apply leb_intro; [reflexivity|assumption|]. rewrite B2R_neg, B2R_f1e9. apply B0. }
  destruct (sub_exact zmax zmin Lit.f0_0 Fmax Fmin eq_refl) as [Fd Vd].
  { rewrite B2R_f0_0. lra. }
  apply eqb_intro; [assumption|reflexivity|].
  change F32.zero with Lit.f0_0. exact Vd.
Qed.

End ColourClaims.

Lemma unit_float_in_unit c : unit_float c -> in_unit c = true.
Proof.
  intros [Fc Hc]. unfold in_unit. rewrite Fc. simpl.
  apply andb_true_iff. split; apply leb_intro; auto;
    rewrite ?B2R_f0_0, ?B2R_f1_0; lra.
Qed.

Lemma sub_nan_l y : (F32.nan - y)%f32 = F32.nan.
Proof. now destruct y. Qed.

Lemma div_nan_l y : (F32.nan / y)%f32 = F32.nan.
Proof. now destruct y. Qed.

Lemma forall_upto (P : Z -> bool) n :
  forallb P (upto n) = true -> forall v, 0 <= v < n -> P v = true.
Proof.
  intros H v Hv. rewrite forallb_forall in H. apply H. now apply In_upto.
Qed.

(** * Products of matrices *)

Lemma index_cases4 r : 0 <= r < 4 -> r = 0 \/ r = 1 \/ r = 2 \/ r = 3.
Proof. lia. Qed.

Lemma mul_entry A B r c :
  0 <= r < 4 -> 0 <= c < 4 ->
  get (mul A B) (c * 4 + r)
  = (get A (0 * 4 + r) * get B (c * 4 + 0) + get A (1 * 4 + r) * get B (c * 4 + 1)
     + get A (2 * 4 + r) * get B (c * 4 + 2) + get A (3 * 4 + r) * get B (c * 4 + 3))%f32.
Proof.
  intros Hr Hc.
  destruct (index_cases4 r Hr) as [->|[->|[->| ->]]];
    destruct (index_cases4 c Hc) as [->|[->|[->| ->]]]; reflexivity.
Qed.

Lemma valued_finite x : F32.finite x = true -> valued x (F32.B2R x).
Proof. now split. Qed.

Lemma valued_zero : valued Lit.f0_0 0.
Proof. split; [reflexivity|apply B2R_f0_0]. Qed.

Lemma valued_one : valued Lit.f1_0 1.
Proof. split; [reflexivity|apply B2R_f1_0]. Qed.

Lemma valued_mul_zero_r x y v : valued x v -> valued y 0 -> valued (x * y)%f32 0.
Proof.
  intros [Fx _] [Fy Vy].
  destruct (mul_exact x y Lit.f0_0 Fx Fy eq_refl) as [F V].
  - rewrite Vy, B2R_f0_0. lra.
  - split; [exact F|now rewrite V, B2R_f0_0].
Qed.

Lemma valued_mul_zero_l x y v : valued x 0 -> valued y v -> valued (x * y)%f32 0.
Proof.
  intros [Fx Vx] [Fy _].
  destruct (mul_exact x y Lit.f0_0 Fx Fy eq_refl) as [F V].
  - rewrite Vx, B2R_f0_0. lra.
  - split; [exact F|now rewrite V, B2R_f0_0].
Qed.

Lemma valued_mul_one_r x y v : valued x v -> valued y 1 -> valued (x * y)%f32 v.
Proof.
  intros [Fx Vx] [Fy Vy].
  destruct (mul_exact x y x Fx Fy Fx) as [F V].
  - rewrite Vy. lra.
  - split; [exact F|now rewrite V].
Qed.

Lemma valued_mul_one_l x y v : valued x 1 -> valued y v -> valued (x * y)%f32 v.
Proof.
  intros [Fx Vx] [Fy Vy].
  destruct (mul_exact x y y Fx Fy Fy) as [F V].
  - rewrite Vx. lra.
  - split; [exact F|now rewrite V].
Qed.

Lemma valued_add_zero_r x y v : valued x v -> valued y 0 -> valued (x + y)%f32 v.
Proof.
  intros [Fx Vx] [Fy Vy].
  destruct (add_exact x y x Fx Fy Fx) as [F V].
  - rewrite Vy. lra.
  - split; [exact F|now rewrite V].
Qed.

Lemma valued_add_zero_l x y v : valued x 0 -> valued y v -> valued (x + y)%f32 v.
Proof.
  intros [Fx Vx] [Fy Vy].
  destruct (add_exact x y y Fx Fy Fy) as [F V].
  - rewrite Vx. lra.
  - split; [exact F|now rewrite V].
Qed.

Lemma valued_neg x v : valued x v -> valued (- x)%f32 (- v).
Proof. intros [F V]. split; [now rewrite finite_neg|now rewrite B2R_neg, V]. Qed.

Lemma valued_eqb x y v : valued x v -> valued y v -> (x =? y)%f32 = true.
Proof. intros [Fx Vx] [Fy Vy]. apply eqb_intro; auto. congruence. Qed.

Lemma valued_eq x y v : valued x v -> valued y v -> v <> 0%R -> x = y.
Proof. intros [Fx Vx] [Fy Vy] Hv. apply B2R_inj; auto; congruence. Qed.

Lemma identity_entry k :
  0 <= k < 16 -> get identity k = if k mod 5 =? 0 then Lit.f1_0 else Lit.f0_0.
Proof.
  intros Hk.
  assert (H : In k (upto 16)) by (apply In_upto; lia).
  repeat (destruct H as [<-|H]; [reflexivity|]). destruct H.
Qed.

Lemma identity_valued c i :
  0 <= c < 4 -> 0 <= i < 4 ->
  valued (get identity (c * 4 + i)) (if c =? i then 1 else 0).
Proof.
  intros Hc Hi. rewrite identity_entry by lia.
  replace ((c * 4 + i) mod 5 =? 0) with (c =? i).
  - destruct (c =? i); [apply valued_one|apply valued_zero].
  - destruct (index_cases4 c Hc) as [->|[->|[->| ->]]];
      destruct (index_cases4 i Hi) as [->|[->|[->| ->]]]; reflexivity.
Qed.

(** A sum of four terms of which at most the [k]-th is not zero. *)
Lemma sum4_select p0 p1 p2 p3 v k :
  0 <= k < 4 ->
  valued p0 (if k =? 0 then v else 0) -> valued p1 (if k =? 1 then v else 0) ->
  valued p2 (if k =? 2 then v else 0) -> valued p3 (if k =? 3 then v else 0) ->
  valued (p0 + p1 + p2 + p3)%f32 v.
Proof.
  intros Hk V0 V1 V2 V3.
  destruct (index_cases4 k Hk) as [->|[->|[->| ->]]];
    cbn [Z.eqb Pos.eqb] in V0, V1, V2, V3.
  - apply valued_add_zero_r; [apply valued_add_zero_r; [apply valued_add_zero_r|]|];
      assumption.
  - apply valued_add_zero_r; [apply valued_add_zero_r; [apply valued_add_zero_l|]|];
      assumption.
  - apply valued_add_zero_r; [apply valued_add_zero_l; [apply (valued_add_zero_r _ _ 0)|]|];
      assumption.
  - apply valued_add_zero_l; [apply (valued_add_zero_r _ _ 0);
                              [apply (valued_add_zero_r _ _ 0)|]|]; assumption.
Qed.

Lemma valued_mul_select_r a b (s : bool) :
  F32.finite a = true -> valued b (if s then 1 else 0) ->
  valued (a * b)%f32 (if s then F32.B2R a else 0).
Proof.
  intros Fa Vb. destruct s.
  - apply valued_mul_one_r; [now apply valued_finite|assumption].
  - apply (valued_mul_zero_r _ _ (F32.B2R a)); [now apply valued_finite|assumption].
Qed.

Lemma valued_mul_select_l a b (s : bool) :
  valued a (if s then 1 else 0) -> F32.finite b = true ->
  valued (a * b)%f32 (if s then F32.B2R b else 0).
Proof.
  intros Va Fb. destruct s.
  - apply valued_mul_one_l; [assumption|now apply valued_finite].
  - apply (valued_mul_zero_l _ _ (F32.B2R b)); [assumption|now apply valued_finite].
Qed.

Lemma finite_matrix_entry A c r :
  finite_matrix A -> 0 <= c < 4 -> 0 <= r < 4 -> F32.finite (get A (c * 4 + r)) = true.
Proof. intros HA Hc Hr. apply HA. lia. Qed.

Lemma mul_identity_r_valued A r c :
  finite_matrix A -> 0 <= r < 4 -> 0 <= c < 4 ->
  valued (get (mul A identity) (c * 4 + r)) (F32.B2R (get A (c * 4 + r))).
Proof.
  intros HA Hr Hc. rewrite (mul_entry A identity r c Hr Hc).
  assert (T : forall i, 0 <= i < 4 ->
            valued (get A (i * 4 + r) * get identity (c * 4 + i))%f32
                   (if c =? i then F32.B2R (get A (c * 4 + r)) else 0)).
  { intros i Hi.
    pose proof (valued_mul_select_r _ _ (c =? i)
                  (finite_matrix_entry A i r HA Hi Hr) (identity_valued c i Hc Hi)) as H.
    destruct (Z.eqb_spec c i) as [->|]; exact H. }
  apply (sum4_select _ _ _ _ _ c Hc); apply T; lia.
Qed.

Lemma mul_identity_l_valued B r c :
  finite_matrix B -> 0 <= r < 4 -> 0 <= c < 4 ->
  valued (get (mul identity B) (c * 4 + r)) (F32.B2R (get B (c * 4 + r))).
Proof.
  intros HB Hr Hc. rewrite (mul_entry identity B r c Hr Hc).
  assert (T : forall i, 0 <= i < 4 ->
            valued (get identity (i * 4 + r) * get B (c * 4 + i))%f32
                   (if r =? i then F32.B2R (get B (c * 4 + r)) else 0)).
  { intros i Hi.
    pose proof (valued_mul_select_l _ _ (i =? r)
                  (identity_valued i r Hi Hr) (finite_matrix_entry B c i HB Hc Hi)) as H.
    rewrite (Z.eqb_sym r i).
    destruct (Z.eqb_spec i r) as [->|]; exact H. }
  apply (sum4_select _ _ _ _ _ r Hr); apply T; lia.
Qed.

Lemma finite_matrix_forallb A :
  forallb (fun k => F32.finite (get A k)) (upto 16) = true -> finite_matrix A.
Proof. intros H k Hk. now apply (forall_upto (fun k => F32.finite (get A k)) 16). Qed.

(** X1: multiplying a matrix whose sixteen entries are finite by the
    identity, on either side, gives back every entry: equal as numbers, and
    bit for bit where the entry is not a zero. *)
Theorem mul_identity A :
  finite_matrix A ->
  forall k, 0 <= k < 16 ->
    (get (mul A identity) k =? get A k)%f32 = true /\
    (get (mul identity A) k =? get A k)%f32 = true /\
    ((get A k =? F32.zero)%f32 = false ->
       get (mul A identity) k = get A k /\ get (mul identity A) k = get A k).
Proof.
  intros HA k Hk.
  assert (Hr : 0 <= k mod 4 < 4) by (apply Z.mod_pos_bound; lia).
  assert (Hc : 0 <= k / 4 < 4) by (split; [apply Z.div_pos|apply Z.div_lt_upper_bound]; lia).
  assert (Ek : k = k / 4 * 4 + k mod 4) by (rewrite (Z.div_mod k 4) at 1; lia).
  pose proof (mul_identity_r_valued A _ _ HA Hr Hc) as R.
  pose proof (mul_identity_l_valued A _ _ HA Hr Hc) as L.
  rewrite <- Ek in R, L.
  pose proof (valued_finite _ (HA k Hk)) as V.
  split; [exact (valued_eqb _ _ _ R V)|split; [exact (valued_eqb _ _ _ L V)|]].
  intros Hz.
  assert (Hv : F32.B2R (get A k) <> 0%R).
  { intros E. rewrite eqb_intro in Hz; [discriminate|apply HA; lia|reflexivity|].
    now rewrite E. }
  split; [exact (valued_eq _ _ _ R V Hv)|exact (valued_eq _ _ _ L V Hv)].
Qed.

Lemma eqb_valued x y :
  F32.finite x = true -> F32.finite y = true -> (x =? y)%f32 = true ->
  valued x (F32.B2R y).
Proof.
  intros Fx Fy H. split; [exact Fx|].
  unfold F32.eqb, SFeqb in H.
  pose proof (SFcompare_correct x y Fx Fy) as C.
  destruct (SFcompare x y) as [[]|]; try discriminate. exact C.
Qed.

Lemma unit_entry_valued x (s : bool) :
  F32.finite x = true -> F32.eqb x (if s then Lit.f1_0 else Lit.f0_0) = true ->
  valued x (if s then 1 else 0).
Proof.
  intros Fx H. destruct s.
  - rewrite <- B2R_f1_0. now apply eqb_valued.
  - rewrite <- B2R_f0_0. now apply eqb_valued.
Qed.

Lemma valued_unit_entry x (s : bool) :
  valued x (if s then 1 else 0) ->
  F32.eqb x (if s then Lit.f1_0 else Lit.f0_0) = true.
Proof.
  intros V. apply (valued_eqb _ _ _ V).
  destruct s; [apply valued_one|apply valued_zero].
Qed.

(** If [B] fixes the origin, [A * B] maps it where [A] does. *)
Lemma mul_origin A B r :
  (forall i, 0 <= i < 4 -> F32.finite (get A (i * 4 + r)) = true) ->
  (forall i, 0 <= i < 4 -> valued (get B (3 * 4 + i)) (if i =? 3 then 1 else 0)) ->
  0 <= r < 4 ->
  valued (get (mul A B) (3 * 4 + r)) (F32.B2R (get A (3 * 4 + r))).
Proof.
  intros HA OB Hr. rewrite (mul_entry A B r 3 Hr) by lia.
  assert (T : forall i, 0 <= i < 4 ->
            valued (get A (i * 4 + r) * get B (3 * 4 + i))%f32
                   (if 3 =? i then F32.B2R (get A (3 * 4 + r)) else 0)).
  { intros i Hi.
    pose proof (valued_mul_select_r _ _ (i =? 3) (HA i Hi) (OB i Hi)) as H.
    rewrite (Z.eqb_sym 3 i).
    destruct (Z.eqb_spec i 3) as [->|]; exact H. }
  apply (sum4_select _ _ _ _ _ 3); [lia|apply T; lia..].
Qed.

(** The bottom row of [A * B] is that of [B] when [A] is affine. *)
Lemma mul_bottom_row A B c :
  (forall i, 0 <= i < 4 -> valued (get A (i * 4 + 3)) (if i =? 3 then 1 else 0)) ->
  (forall i, 0 <= i < 4 -> F32.finite (get B (c * 4 + i)) = true) ->
  0 <= c < 4 ->
  valued (get (mul A B) (c * 4 + 3)) (F32.B2R (get B (c * 4 + 3))).
Proof.
  intros AA HB Hc. rewrite (mul_entry A B 3 c) by lia.
  assert (T : forall i, 0 <= i < 4 ->
            valued (get A (i * 4 + 3) * get B (c * 4 + i))%f32
                   (if 3 =? i then F32.B2R (get B (c * 4 + 3)) else 0)).
  { intros i Hi.
    pose proof (valued_mul_select_l _ _ (i =? 3) (AA i Hi) (HB i Hi)) as H.
    rewrite (Z.eqb_sym 3 i).
    destruct (Z.eqb_spec i 3) as [->|]; exact H. }
  apply (sum4_select _ _ _ _ _ 3); [lia|apply T; lia..].
Qed.

Lemma affine_valued A i :
  finite_matrix A -> affine A -> 0 <= i < 4 ->
  valued (get A (i * 4 + 3)) (if i =? 3 then 1 else 0).
Proof. intros HA AA Hi. apply unit_entry_valued; [apply HA; lia|now apply AA]. Qed.

Lemma fixes_origin_valued A i :
  finite_matrix A -> fixes_origin A -> 0 <= i < 4 ->
  valued (get A (3 * 4 + i)) (if i =? 3 then 1 else 0).
Proof. intros HA OA Hi. apply unit_entry_valued; [apply HA; lia|now apply OA]. Qed.

Lemma mul_identity_witness :
  (get (mul frame_view identity) 14 =? get frame_view 14)%f32 = true /\
  get (mul identity frame_view) 14 = get frame_view 14.
Proof.
  destruct (mul_identity frame_view
              ltac:(apply finite_matrix_forallb; vm_compute; reflexivity)
              14 ltac:(lia)) as (H1 & _ & H3).
  split; [exact H1|]. apply H3. vm_compute. reflexivity.
Defined.

(** X2: for matrices with finite entries, [mul] keeps the bottom row
    (0, 0, 0, 1) of affine maps and the last column (0, 0, 0, 1) of maps that
    fix the origin. *)
Theorem mul_affine A B :
  finite_matrix A -> finite_matrix B ->
  (affine A -> affine B -> affine (mul A B)) /\
  (fixes_origin A -> fixes_origin B -> fixes_origin (mul A B)).
Proof.
  intros HA HB. split.
  - intros AA AB c Hc.
    assert (V : valued (get (mul A B) (c * 4 + 3)) (F32.B2R (get B (c * 4 + 3)))).
    { apply mul_bottom_row; [intros; now apply affine_valued| |exact Hc].
      intros i Hi. apply HB. lia. }
    destruct (affine_valued B c HB AB Hc) as [_ W].
    rewrite W in V. now apply valued_unit_entry.
  - intros OA OB r Hr.
    assert (V : valued (get (mul A B) (3 * 4 + r)) (F32.B2R (get A (3 * 4 + r)))).
    { apply mul_origin; [|intros; now apply fixes_origin_valued|exact Hr].
      intros i Hi. apply HA. lia. }
    destruct (fixes_origin_valued A r HA OA Hr) as [_ W].
    rewrite W in V. now apply valued_unit_entry.
Qed.

Lemma mul_affine_witness :
  affine (mul frame_view (translate Lit.f1_0 Lit.f2_0 Lit.f0_50)).
Proof.
  apply (mul_affine frame_view (translate Lit.f1_0 Lit.f2_0 Lit.f0_50)).
  - apply finite_matrix_forallb. vm_compute. reflexivity.
  - apply finite_matrix_forallb. vm_compute. reflexivity.
  - intros c Hc. destruct (index_cases4 c Hc) as [->|[->|[->| ->]]]; reflexivity.
  - intros c Hc. destruct (index_cases4 c Hc) as [->|[->|[->| ->]]]; reflexivity.
Defined.

(** * The rotations of a frame *)

Section Frame.

Variables sinf cosf tanf : float -> float.
Variable a : float.
Hypothesis Fs : F32.finite (sinf a) = true.
Hypothesis Fc : F32.finite (cosf a) = true.

Lemma rotateY_matrix :
  rotateY sinf cosf a
  = [cosf a; Lit.f0_0; sinf a; Lit.f0_0;
     Lit.f0_0; Lit.f1_0; Lit.f0_0; Lit.f0_0;
     (- sinf a)%f32; Lit.f0_0; cosf a; Lit.f0_0;
     Lit.f0_0; Lit.f0_0; Lit.f0_0; Lit.f1_0].
Proof. reflexivity. Qed.

Lemma rotateX_matrix :
  rotateX sinf cosf a
  = [Lit.f1_0; Lit.f0_0; Lit.f0_0; Lit.f0_0;
     Lit.f0_0; cosf a; sinf a; Lit.f0_0;
     Lit.f0_0; (- sinf a)%f32; cosf a; Lit.f0_0;
     Lit.f0_0; Lit.f0_0; Lit.f0_0; Lit.f1_0].
Proof. reflexivity. Qed.

Lemma rotateY_finite : finite_matrix (rotateY sinf cosf a).
Proof.
  rewrite rotateY_matrix. intros k Hk.
  assert (H : In k (upto 16)) by (apply In_upto; lia).
  repeat (destruct H as [<-|H];
          [first [exact Fs|exact Fc|reflexivity|exact (eq_trans (finite_neg (sinf a)) Fs)]|]).
  destruct H.
Qed.

Lemma rotateX_origin i :
  0 <= i < 4 -> valued (get (rotateX sinf cosf a) (3 * 4 + i)) (if i =? 3 then 1 else 0).
Proof.
  intros Hi. rewrite rotateX_matrix.
  destruct (index_cases4 i Hi) as [->|[->|[->| ->]]];
    first [apply valued_zero|apply valued_one].
Qed.

Lemma rotateY_origin i :
  0 <= i < 4 -> valued (get (rotateY sinf cosf a) (3 * 4 + i)) (if i =? 3 then 1 else 0).
Proof.
  intros Hi. rewrite rotateY_matrix.
  destruct (index_cases4 i Hi) as [->|[->|[->| ->]]];
    first [apply valued_zero|apply valued_one].
Qed.

End Frame.

(** * Translations *)

Lemma returns_same v r r' :
  returns v r -> returns v r' -> F32.finite r' = true -> valued r (F32.B2R r').
Proof.
  intros (f & Hf & Hfin & _) H' F'.
  pose proof (returns_finite_value v r' H' F') as Hr.
  pose proof (roundedS_fun _ _ _ Hf Hr) as ->.
  apply Hfin. destruct r' as [s|s| |s m e]; try discriminate.
  - rewrite B2R_zero, Rabs_R0. apply pow2_pos.
  - simpl in F'. destruct (bounded_binade m e F') as [_ [Hp Hm]].
    rewrite B2R_finite. destruct s; simpl;
      [rewrite Rabs_Ropp|]; rewrite Rabs_pos_eq; lra.
Qed.

Lemma translate_matrix x y z :
  translate x y z
  = [Lit.f1_0; Lit.f0_0; Lit.f0_0; Lit.f0_0;
     Lit.f0_0; Lit.f1_0; Lit.f0_0; Lit.f0_0;
     Lit.f0_0; Lit.f0_0; Lit.f1_0; Lit.f0_0;
     x; y; z; Lit.f1_0].
Proof. reflexivity. Qed.

Lemma translate_finite x y z :
  F32.finite x = true -> F32.finite y = true -> F32.finite z = true ->
  finite_matrix (translate x y z).
Proof.
  intros Fx Fy Fz. rewrite translate_matrix. intros k Hk.
  assert (H : In k (upto 16)) by (apply In_upto; lia).
  repeat (destruct H as [<-|H]; [first [exact Fx|exact Fy|exact Fz|reflexivity]|]).
  destruct H.
Qed.

Section Translations.

Variables x y z x' y' z' : float.
Hypothesis Fx : F32.finite x = true.
Hypothesis Fy : F32.finite y = true.
Hypothesis Fz : F32.finite z = true.
Hypothesis Fx' : F32.finite x' = true.
Hypothesis Fy' : F32.finite y' = true.
Hypothesis Fz' : F32.finite z' = true.

Let T := translate x y z.
Let T' := translate x' y' z'.

(** The first three columns of a translation are those of the identity. *)
Lemma translate_linear_part c r :
  0 <= c < 3 -> 0 <= r < 4 ->
  valued (get (mul T T') (c * 4 + r)) (F32.B2R (get identity (c * 4 + r))).
Proof.
  intros Hc Hr.
  assert (E : get (mul T T') (c * 4 + r) = get (mul T identity) (c * 4 + r)).
  { rewrite !mul_entry by lia.
    assert (C : c = 0 \/ c = 1 \/ c = 2) by lia.
    destruct C as [->|[->| ->]]; reflexivity. }
  rewrite E.
  replace (get identity (c * 4 + r)) with (get T (c * 4 + r)).
  - apply mul_identity_r_valued; [now apply translate_finite|exact Hr|lia].
  - assert (C : c = 0 \/ c = 1 \/ c = 2) by lia.
    destruct (index_cases4 r Hr) as [->|[->|[->| ->]]];
      destruct C as [->|[->| ->]]; reflexivity.
Qed.

Lemma translate_bottom : valued (get (mul T T') 15) 1.
Proof.
  change 15 with (3 * 4 + 3). rewrite mul_entry by lia.
  change (get T (0 * 4 + 3)) with Lit.f0_0. change (get T (1 * 4 + 3)) with Lit.f0_0.
  change (get T (2 * 4 + 3)) with Lit.f0_0. change (get T (3 * 4 + 3)) with Lit.f1_0.
  change (get T' (3 * 4 + 0)) with x'. change (get T' (3 * 4 + 1)) with y'.
  change (get T' (3 * 4 + 2)) with z'. change (get T' (3 * 4 + 3)) with Lit.f1_0.
  apply (sum4_select _ _ _ _ _ 3); [lia|..]; cbn [Z.eqb Pos.eqb].
  - apply (valued_mul_zero_l _ _ (F32.B2R x')); [apply valued_zero|now apply valued_finite].
  - apply (valued_mul_zero_l _ _ (F32.B2R y')); [apply valued_zero|now apply valued_finite].
  - apply (valued_mul_zero_l _ _ (F32.B2R z')); [apply valued_zero|now apply valued_finite].
  - apply valued_mul_one_l; apply valued_one.
Qed.

(** A component of the offset: the selected component of the second
    offset, then the component of the first one. *)
Lemma offset_sum a b0 b1 b2 e0 e1 e2 k :
  F32.finite a = true ->
  F32.finite b0 = true -> F32.finite b1 = true -> F32.finite b2 = true ->
  valued e0 (if k =? 0 then 1 else 0) -> valued e1 (if k =? 1 then 1 else 0) ->
  valued e2 (if k =? 2 then 1 else 0) -> 0 <= k < 3 ->
  F32.finite (nth (Z.to_nat k) [b0; b1; b2] F32.nan + a)%f32 = true ->
  valued (e0 * b0 + e1 * b1 + e2 * b2 + a * Lit.f1_0)%f32
         (F32.B2R (nth (Z.to_nat k) [b0; b1; b2] F32.nan + a)%f32).
Proof.
  intros Fa F0 F1 F2 V0 V1 V2 Hk Fs.
  set (b := nth (Z.to_nat k) [b0; b1; b2] F32.nan) in *.
  assert (Fb : F32.finite b = true).
  { assert (C : k = 0 \/ k = 1 \/ k = 2) by lia.
    destruct C as [->|[->| ->]]; assumption. }
  assert (S : valued (e0 * b0 + e1 * b1 + e2 * b2)%f32 (F32.B2R b)).
  { assert (C : k = 0 \/ k = 1 \/ k = 2) by lia.
    destruct C as [->|[->| ->]]; cbn [Z.eqb Pos.eqb] in V0, V1, V2; subst b;
      cbn [Z.to_nat Pos.to_nat Pos.iter_op Init.Nat.add nth].
    - apply valued_add_zero_r; [apply valued_add_zero_r|].
      + apply valued_mul_one_l; [exact V0|now apply valued_finite].
      + apply (valued_mul_zero_l _ _ (F32.B2R b1)); [exact V1|now apply valued_finite].
      + apply (valued_mul_zero_l _ _ (F32.B2R b2)); [exact V2|now apply valued_finite].
    - apply valued_add_zero_r; [apply valued_add_zero_l|].
      + apply (valued_mul_zero_l _ _ (F32.B2R b0)); [exact V0|now apply valued_finite].
      + apply valued_mul_one_l; [exact V1|now apply valued_finite].
      + apply (valued_mul_zero_l _ _ (F32.B2R b2)); [exact V2|now apply valued_finite].
    - apply valued_add_zero_l; [apply (valued_add_zero_r _ _ 0)|].
      + apply (valued_mul_zero_l _ _ (F32.B2R b0)); [exact V0|now apply valued_finite].
      + apply (valued_mul_zero_l _ _ (F32.B2R b1)); [exact V1|now apply valued_finite].
      + apply valued_mul_one_l; [exact V2|now apply valued_finite]. }
  assert (A : valued (a * Lit.f1_0)%f32 (F32.B2R a))
    by (apply valued_mul_one_r; [now apply valued_finite|apply valued_one]).
  destruct S as [FS VS]. destruct A as [FA VA].
  apply (returns_same (F32.B2R b + F32.B2R a)); [| |exact Fs].
  - rewrite <- VS, <- VA. now apply add_returns.
  - now apply add_returns.
Qed.

Lemma translate_offset r :
  0 <= r < 3 ->
  F32.finite (nth (Z.to_nat r) [x'; y'; z'] F32.nan
              + nth (Z.to_nat r) [x; y; z] F32.nan)%f32 = true ->
  valued (get (mul T T') (3 * 4 + r))
         (F32.B2R (nth (Z.to_nat r) [x'; y'; z'] F32.nan
                   + nth (Z.to_nat r) [x; y; z] F32.nan)%f32).
Proof.
  intros Hr Fs. rewrite mul_entry by lia.
  change (get T' (3 * 4 + 0)) with x'. change (get T' (3 * 4 + 1)) with y'.
  change (get T' (3 * 4 + 2)) with z'. change (get T' (3 * 4 + 3)) with Lit.f1_0.
  assert (C : r = 0 \/ r = 1 \/ r = 2) by lia.
  destruct C as [->|[->| ->]];
    cbn [Z.to_nat Pos.to_nat Pos.iter_op Init.Nat.add nth] in Fs |- *.
  - apply (offset_sum x x' y' z' _ _ _ 0); auto; try lia;
      first [apply valued_one|apply valued_zero].
  - apply (offset_sum y x' y' z' _ _ _ 1); auto; try lia;
      first [apply valued_one|apply valued_zero].
  - apply (offset_sum z x' y' z' _ _ _ 2); auto; try lia;
      first [apply valued_one|apply valued_zero].
Qed.

End Translations.

(** X3: translations compose by adding their offsets: when the offsets and
    their binary32 sums are finite, [mul (translate x y z) (translate x' y' z')]
    equals [translate (x'+x) (y'+y) (z'+z)] entry by entry. *)
Theorem translate_compose x y z x' y' z' :
  F32.finite x = true -> F32.finite y = true -> F32.finite z = true ->
  F32.finite x' = true -> F32.finite y' = true -> F32.finite z' = true ->
  F32.finite (x' + x)%f32 = true -> F32.finite (y' + y)%f32 = true ->
  F32.finite (z' + z)%f32 = true ->
  forall k, 0 <= k < 16 ->
    F32.eqb (get (mul (translate x y z) (translate x' y' z')) k)
            (get (translate (x' + x)%f32 (y' + y)%f32 (z' + z)%f32) k) = true.
Proof.
  intros Fx Fy Fz Fx' Fy' Fz' Sx Sy Sz k Hk.
  assert (Hr : 0 <= k mod 4 < 4) by (apply Z.mod_pos_bound; lia).
  assert (Hc : 0 <= k / 4 < 4) by (split; [apply Z.div_pos|apply Z.div_lt_upper_bound]; lia).
  assert (Ek : k = k / 4 * 4 + k mod 4) by (rewrite (Z.div_mod k 4) at 1; lia).
  set (c := k / 4) in *. set (r := k mod 4) in *. rewrite Ek.
  destruct (Z_lt_le_dec c 3) as [Hc3|Hc3].
  - apply (valued_eqb _ _ (F32.B2R (get identity (c * 4 + r)))).
    + apply translate_linear_part; auto. lia.
    + replace (get (translate (x' + x)%f32 (y' + y)%f32 (z' + z)%f32) (c * 4 + r))
        with (get identity (c * 4 + r)).
      * apply valued_finite. rewrite identity_entry by lia.
        now destruct (_ =? 0).
      * assert (C : c = 0 \/ c = 1 \/ c = 2) by lia.
        destruct (index_cases4 r Hr) as [->|[->|[->| ->]]];
          destruct C as [->|[->| ->]]; reflexivity.
  - assert (c = 3) as -> by lia.
    destruct (index_cases4 r Hr) as [->|[->|[->| ->]]].
    + apply (valued_eqb _ _ (F32.B2R (x' + x)%f32)).
      * apply (translate_offset x y z x' y' z' Fx Fy Fz Fx' Fy' Fz' 0); [lia|exact Sx].
      * now apply valued_finite.
    + apply (valued_eqb _ _ (F32.B2R (y' + y)%f32)).
      * apply (translate_offset x y z x' y' z' Fx Fy Fz Fx' Fy' Fz' 1); [lia|exact Sy].
      * now apply valued_finite.
    + apply (valued_eqb _ _ (F32.B2R (z' + z)%f32)).
      * apply (translate_offset x y z x' y' z' Fx Fy Fz Fx' Fy' Fz' 2); [lia|exact Sz].
      * now apply valued_finite.
    + apply (valued_eqb _ _ 1).
      * now apply translate_bottom.
      * apply valued_one.
Qed.

Lemma translate_compose_witness :
  F32.eqb
    (get (mul (translate Lit.f0_0 Lit.f0_0 (- Lit.f4_5)%f32)
              (translate Lit.f1_0 Lit.f2_0 Lit.f0_50)) 14)
    (get (translate (Lit.f1_0 + Lit.f0_0)%f32 (Lit.f2_0 + Lit.f0_0)%f32
                    (Lit.f0_50 + - Lit.f4_5)%f32) 14)
  = true.
Proof.
  apply (translate_compose Lit.f0_0 Lit.f0_0 (- Lit.f4_5)%f32 Lit.f1_0 Lit.f2_0 Lit.f0_50);
    try reflexivity. lia.
Defined.

(** * Rows that select a component *)

(** If row [r] of [A] is the [k]-th unit vector, row [r] of [A * M] is row
    [k] of [M]. *)
Lemma mul_unit_row A M r k c :
  (forall i, 0 <= i < 4 -> valued (get A (i * 4 + r)) (if i =? k then 1 else 0)) ->
  (forall i, 0 <= i < 4 -> F32.finite (get M (c * 4 + i)) = true) ->
  0 <= r < 4 -> 0 <= k < 4 -> 0 <= c < 4 ->
  valued (get (mul A M) (c * 4 + r)) (F32.B2R (get M (c * 4 + k))).
Proof.
  intros HA HM Hr Hk Hc. rewrite (mul_entry A M r c Hr Hc).
  assert (T : forall i, 0 <= i < 4 ->
            valued (get A (i * 4 + r) * get M (c * 4 + i))%f32
                   (if k =? i then F32.B2R (get M (c * 4 + k)) else 0)).
  { intros i Hi.
    pose proof (valued_mul_select_l _ _ (i =? k) (HA i Hi) (HM i Hi)) as H.
    rewrite (Z.eqb_sym k i).
    destruct (Z.eqb_spec i k) as [->|]; exact H. }
  apply (sum4_select _ _ _ _ _ k Hk); apply T; lia.
Qed.

(** X4: a rotation about the y axis leaves the y component of every
    column unchanged, a rotation about the x axis the x component, and both
    leave the w component: rows 1 and 3 of [rotateY a * M] and rows 0 and 3
    of [rotateX a * M] are those of [M], whatever libm returns. *)
Theorem rotation_axes sinf cosf a M :
  finite_matrix M ->
  forall c, 0 <= c < 4 ->
    (get (mul (rotateY sinf cosf a) M) (c * 4 + 1) =? get M (c * 4 + 1))%f32 = true /\
    (get (mul (rotateY sinf cosf a) M) (c * 4 + 3) =? get M (c * 4 + 3))%f32 = true /\
    (get (mul (rotateX sinf cosf a) M) (c * 4 + 0) =? get M (c * 4 + 0))%f32 = true /\
    (get (mul (rotateX sinf cosf a) M) (c * 4 + 3) =? get M (c * 4 + 3))%f32 = true.
Proof.
  intros HM c Hc.
  assert (Fc : forall i, 0 <= i < 4 -> F32.finite (get M (c * 4 + i)) = true)
    by (intros i Hi; apply HM; lia).
  assert (U : forall A r k,
            (forall i, 0 <= i < 4 ->
               get A (i * 4 + r) = if i =? k then Lit.f1_0 else Lit.f0_0) ->
            0 <= r < 4 -> 0 <= k < 4 ->
            valued (get (mul A M) (c * 4 + r)) (F32.B2R (get M (c * 4 + k)))).
  { intros A r k HA Hr Hk. apply mul_unit_row; auto.
    intros i Hi. rewrite (HA i Hi).
    destruct (i =? k); [apply valued_one|apply valued_zero]. }
  assert (V : forall r, 0 <= r < 4 -> valued (get M (c * 4 + r)) (F32.B2R (get M (c * 4 + r))))
    by (intros r Hr; apply valued_finite, Fc, Hr).
  repeat split.
  - apply (valued_eqb _ _ _ (U (rotateY sinf cosf a) 1 1 ltac:(intros i Hi;
      destruct (index_cases4 i Hi) as [->|[->|[->| ->]]]; reflexivity)
      ltac:(lia) ltac:(lia))). apply V. lia.
  - apply (valued_eqb _ _ _ (U (rotateY sinf cosf a) 3 3 ltac:(intros i Hi;
      destruct (index_cases4 i Hi) as [->|[->|[->| ->]]]; reflexivity)
      ltac:(lia) ltac:(lia))). apply V. lia.
  - apply (valued_eqb _ _ _ (U (rotateX sinf cosf a) 0 0 ltac:(intros i Hi;
      destruct (index_cases4 i Hi) as [->|[->|[->| ->]]]; reflexivity)
      ltac:(lia) ltac:(lia))). apply V. lia.
  - apply (valued_eqb _ _ _ (U (rotateX sinf cosf a) 3 3 ltac:(intros i Hi;
      destruct (index_cases4 i Hi) as [->|[->|[->| ->]]]; reflexivity)
      ltac:(lia) ltac:(lia))). apply V. lia.
Qed.

Lemma rotation_axes_witness :
  (get (mul (rotateY sin_poly cos_poly Lit.f1_0) frame_view) (3 * 4 + 1)
   =? get frame_view (3 * 4 + 1))%f32 = true.
Proof.
  apply (rotation_axes sin_poly cos_poly Lit.f1_0 frame_view
           ltac:(apply finite_matrix_forallb; vm_compute; reflexivity) 3).
  lia.
Defined.

(** X5: the projection puts minus the eye-space z into the clip w: row 3
    of [perspective ... * M] is the negated row 2 of [M], for every field of
    view, aspect and pair of planes. *)
Theorem perspective_clip_w tanf fovy aspect znear zfar M :
  finite_matrix M ->
  forall c, 0 <= c < 4 ->
    (get (mul (perspective tanf fovy aspect znear zfar) M) (c * 4 + 3)
     =? - get M (c * 4 + 2))%f32 = true.
Proof.
  intros HM c Hc. set (P := perspective tanf fovy aspect znear zfar).
  assert (Fc : forall i, 0 <= i < 4 -> F32.finite (get M (c * 4 + i)) = true)
    by (intros i Hi; apply HM; lia).
  apply (valued_eqb _ _ (- F32.B2R (get M (c * 4 + 2)))).
  - rewrite (mul_entry P M 3 c) by lia.
    change (get P (0 * 4 + 3)) with Lit.f0_0. change (get P (1 * 4 + 3)) with Lit.f0_0.
    change (get P (2 * 4 + 3)) with (- Lit.f1_0)%f32.
    change (get P (3 * 4 + 3)) with Lit.f0_0.
    apply (sum4_select _ _ _ _ _ 2); [lia|..]; cbn [Z.eqb Pos.eqb].
    + apply (valued_mul_zero_l _ _ (F32.B2R (get M (c * 4 + 0))));
        [apply valued_zero|apply valued_finite, Fc; lia].
    + apply (valued_mul_zero_l _ _ (F32.B2R (get M (c * 4 + 1))));
        [apply valued_zero|apply valued_finite, Fc; lia].
    + pose proof (Fc 2 ltac:(lia)) as F2.
      destruct (mul_exact (- Lit.f1_0)%f32 (get M (c * 4 + 2)) (- get M (c * 4 + 2))%f32)
        as [F V]; [reflexivity|exact F2|now rewrite finite_neg| |].
      * rewrite !B2R_neg, B2R_f1_0. lra.
      * split; [exact F|]. now rewrite V, B2R_neg.
    + apply (valued_mul_zero_l _ _ (F32.B2R (get M (c * 4 + 3))));
        [apply valued_zero|apply valued_finite, Fc; lia].
  - apply valued_neg, valued_finite, Fc. lia.
Qed.

Lemma perspective_clip_w_witness :
  (get (mul (perspective sin_poly Lit.f1_0 Lit.f1_0 Lit.f0_1 Lit.f50_0) frame_view) (3 * 4 + 3)
   =? - get frame_view (3 * 4 + 2))%f32 = true.
Proof.
  apply (perspective_clip_w sin_poly Lit.f1_0 Lit.f1_0 Lit.f0_1 Lit.f50_0 frame_view
           ltac:(apply finite_matrix_forallb; vm_compute; reflexivity) 3).
  lia.
Defined.

(** * The MVP matrix of a frame *)

Lemma B2R_nonzero s m e :
  SpecFloat.bounded 24 128 m e = true -> F32.B2R (S754_finite s m e) <> 0%R.
Proof.
  intros Hb. destruct (bounded_binade m e Hb) as [_ [H _]].
  unfold F32.B2R, F32.Bsign, F32.Babs. destruct s; lra.
Qed.

Lemma frame_view_finite : finite_matrix frame_view.
Proof. apply finite_matrix_forallb. vm_compute. reflexivity. Qed.

Section Origin.

Variables sinf cosf tanf : float -> float.
Variables (w h : Z) (ang : float).

Hypothesis FsY : F32.finite (sinf (frame_angleY ang)) = true.
Hypothesis FcY : F32.finite (cosf (frame_angleY ang)) = true.

Let R := frame_rotation sinf cosf ang.
Let VR := mul frame_view R.
Let P := frame_projection tanf w h.
Let M := frame_MVP sinf cosf tanf w h ang.

Lemma rotation_origin i :
  0 <= i < 4 -> valued (get R (3 * 4 + i)) (if i =? 3 then 1 else 0).
Proof.
  intros Hi. unfold R, frame_rotation.
  pose proof (mul_origin (rotateY sinf cosf (frame_angleY ang))
                (rotateX sinf cosf (frame_angleX ang)) i) as H.
  destruct (rotateY_origin sinf cosf (frame_angleY ang) i Hi) as [_ W].
  rewrite <- W. apply H.
  - intros k Hk. apply rotateY_finite; auto. lia.
  - intros k Hk. now apply rotateX_origin.
  - exact Hi.
Qed.

Lemma view_rotation_origin r :
  0 <= r < 4 -> valued (get VR (3 * 4 + r)) (F32.B2R (get frame_view (3 * 4 + r))).
Proof.
  intros Hr. unfold VR. apply mul_origin.
  - intros i Hi. apply frame_view_finite. lia.
  - apply rotation_origin.
  - exact Hr.
Qed.

Lemma view_rotation_14 : get VR 14 = (- Lit.f4_5)%f32.
Proof.
  apply (valued_eq _ _ _ (view_rotation_origin 2 ltac:(lia))).
  - apply valued_finite. reflexivity.
  - apply B2R_nonzero. reflexivity.
Qed.

Lemma view_rotation_15 : get VR 15 = Lit.f1_0.
Proof.
  apply (valued_eq _ _ _ (view_rotation_origin 3 ltac:(lia))).
  - apply valued_finite. reflexivity.
  - apply B2R_nonzero. reflexivity.
Qed.

Lemma view_rotation_12 : valued (get VR 12) 0.
Proof.
  pose proof (view_rotation_origin 0 ltac:(lia)) as H.
  replace (F32.B2R (get frame_view (3 * 4 + 0))) with 0%R in H; [exact H|].
  symmetry. apply B2R_f0_0.
Qed.

Lemma view_rotation_13 : valued (get VR 13) 0.
Proof.
  pose proof (view_rotation_origin 1 ltac:(lia)) as H.
  replace (F32.B2R (get frame_view (3 * 4 + 1))) with 0%R in H; [exact H|].
  symmetry. apply B2R_f0_0.
Qed.

Lemma MVP_column r :
  0 <= r < 4 ->
  get M (3 * 4 + r)
  = (get P (0 * 4 + r) * get VR 12 + get P (1 * 4 + r) * get VR 13
     + get P (2 * 4 + r) * (- Lit.f4_5) + get P (3 * 4 + r) * Lit.f1_0)%f32.
Proof.
  intros Hr. unfold M, frame_MVP. fold R. fold VR. fold P.
  rewrite (mul_entry P VR r 3 Hr) by lia.
  change (3 * 4 + 0) with 12. change (3 * 4 + 1) with 13.
  change (3 * 4 + 2) with 14. change (3 * 4 + 3) with 15.
  now rewrite view_rotation_14, view_rotation_15.
Qed.

Lemma zero_products x y :
  valued x 0 -> valued y 0 -> valued (Lit.f0_0 * x + Lit.f0_0 * y)%f32 0.
Proof.
  intros Vx Vy. apply valued_add_zero_r.
  - apply (valued_mul_zero_l _ _ 0); [apply valued_zero|exact Vx].
  - apply (valued_mul_zero_l _ _ 0); [apply valued_zero|exact Vy].
Qed.

Lemma MVP_15 : get M 15 = Lit.f4_5.
Proof.
  change 15 with (3 * 4 + 3). rewrite MVP_column by lia.
  change (get P (0 * 4 + 3)) with Lit.f0_0. change (get P (1 * 4 + 3)) with Lit.f0_0.
  change (get P (2 * 4 + 3)) with (- Lit.f1_0)%f32.
  change (get P (3 * 4 + 3)) with Lit.f0_0.
  pose proof (zero_products _ _ view_rotation_12 view_rotation_13) as Z.
  assert (V : valued (Lit.f0_0 * get VR 12 + Lit.f0_0 * get VR 13
                      + - Lit.f1_0 * - Lit.f4_5)%f32 (F32.B2R Lit.f4_5)).
  { apply valued_add_zero_l; [exact Z|]. apply valued_finite. reflexivity. }
  rewrite (valued_eq _ Lit.f4_5 _ V); [reflexivity|now apply valued_finite|].
  apply B2R_nonzero. reflexivity.
Qed.

Lemma MVP_14 : get M 14 = (get P 10 * (- Lit.f4_5) + get P 14)%f32.
Proof.
  change 14 with (3 * 4 + 2) at 1. rewrite MVP_column by lia.
  change (get P (0 * 4 + 2)) with Lit.f0_0. change (get P (1 * 4 + 2)) with Lit.f0_0.
  pose proof (zero_products _ _ view_rotation_12 view_rotation_13) as Z.
  set (X := (get P (2 * 4 + 2) * - Lit.f4_5)%f32).
  assert (V : valued (Lit.f0_0 * get VR 12 + Lit.f0_0 * get VR 13 + X)%f32 (F32.B2R X)).
  { apply valued_add_zero_l; [exact Z|]. apply valued_finite. reflexivity. }
  rewrite (valued_eq _ X _ V); [reflexivity|now apply valued_finite|].
  apply B2R_nonzero. reflexivity.
Qed.

Lemma MVP_12 : F32.finite (get P 0) = true -> valued (get M 12) 0.
Proof.
  intros F0. change 12 with (3 * 4 + 0). rewrite MVP_column by lia.
  change (get P (1 * 4 + 0)) with Lit.f0_0. change (get P (2 * 4 + 0)) with Lit.f0_0.
  change (get P (3 * 4 + 0)) with Lit.f0_0. change (0 * 4 + 0) with 0.
  apply valued_add_zero_r; [apply valued_add_zero_r; [apply valued_add_zero_r|]|].
  - apply (valued_mul_zero_r _ _ (F32.B2R (get P 0)));
      [now apply valued_finite|apply view_rotation_12].
  - apply (valued_mul_zero_l _ _ 0); [apply valued_zero|apply view_rotation_13].
  - apply (valued_mul_zero_l _ _ (F32.B2R (- Lit.f4_5)%f32));
      [apply valued_zero|now apply valued_finite].
  - apply (valued_mul_zero_l _ _ 1); [apply valued_zero|apply valued_one].
Qed.

Lemma MVP_13 : F32.finite (get P 5) = true -> valued (get M 13) 0.
Proof.
  intros F5. change 13 with (3 * 4 + 1). rewrite MVP_column by lia.
  change (get P (0 * 4 + 1)) with Lit.f0_0. change (get P (2 * 4 + 1)) with Lit.f0_0.
  change (get P (3 * 4 + 1)) with Lit.f0_0. change (1 * 4 + 1) with 5.
  apply valued_add_zero_r; [apply valued_add_zero_r; [apply valued_add_zero_l|]|].
  - apply (valued_mul_zero_l _ _ 0); [apply valued_zero|apply view_rotation_12].
  - apply (valued_mul_zero_r _ _ (F32.B2R (get P 5)));
      [now apply valued_finite|apply view_rotation_13].
  - apply (valued_mul_zero_l _ _ (F32.B2R (- Lit.f4_5)%f32));
      [apply valued_zero|now apply valued_finite].
  - apply (valued_mul_zero_l _ _ 1); [apply valued_zero|apply valued_one].
Qed.

End Origin.

(** X6: in every frame, whatever the angle and the viewport, the MVP matrix
    [mul P (mul V R)] sends the model origin to clip coordinates with
    w = 4.5 and z = P[10]*(-4.5) + P[14], so that -w < z < w; x and y are zero
    when the focal entries P[0] and P[5] are finite.  This needs only that
    libm returns finite values for the Y rotation. *)
Theorem model_origin_in_view sinf cosf tanf w h ang :
  F32.finite (sinf (frame_angleY ang)) = true ->
  F32.finite (cosf (frame_angleY ang)) = true ->
  let P := frame_projection tanf w h in
  let M := frame_MVP sinf cosf tanf w h ang in
  get M 15 = Lit.f4_5 /\
  get M 14 = (get P 10 * (- Lit.f4_5) + get P 14)%f32 /\
  (- get M 15 <? get M 14)%f32 = true /\ (get M 14 <? get M 15)%f32 = true /\
  (F32.finite (get P 0) = true -> (get M 12 =? F32.zero)%f32 = true) /\
  (F32.finite (get P 5) = true -> (get M 13 =? F32.zero)%f32 = true).
Proof.
  intros FsY FcY P M.
  pose proof (MVP_15 sinf cosf tanf w h ang FsY FcY) as H15.
  pose proof (MVP_14 sinf cosf tanf w h ang FsY FcY) as H14.
  fold M in H15, H14. fold P in H14.
  split; [exact H15|split; [exact H14|]].
  rewrite H15, H14.
  split; [reflexivity|split; [reflexivity|split]].
  - intros F0. apply (valued_eqb _ _ 0); [now apply MVP_12|apply valued_zero].
  - intros F5. apply (valued_eqb _ _ 0); [now apply MVP_13|apply valued_zero].
Qed.

Lemma model_origin_in_view_witness :
  get (frame_MVP sin_poly cos_poly sin_poly 900 700 Lit.f1_0) 15 = Lit.f4_5.
Proof.
  apply (model_origin_in_view sin_poly cos_poly sin_poly 900 700 Lit.f1_0);
    reflexivity.
Defined.

(** * The frame loop *)

Lemma B2R_p31 : F32.B2R Limit.p31 = 2147483648%R.
Proof.
  unfold Limit.p31, F32.B2R; simpl. rewrite (pow2_IZR 8) by lia.
  change (2 ^ 8) with 256. lra.
Qed.

Lemma B2R_pm31 : F32.B2R Limit.pm31 = (/ 2147483648)%R.
Proof.
  unfold Limit.pm31, F32.B2R; simpl. change (Zneg 54) with (Z.opp (Zpos 54)).
  rewrite (pow2_neg_IZR 54) by lia.
  replace (2 ^ 54) with (8388608 * 2147483648) by reflexivity.
  rewrite mult_IZR. field.
Qed.

Lemma of_int_range n :
  Int.in_range n = true ->
  F32.finite (F32.of_int n) = true /\
  (- 2147483648 <= F32.B2R (F32.of_int n) <= 2147483648)%R /\
  (1 <= n -> (1 <= F32.B2R (F32.of_int n))%R).
Proof.
  intros Hn. unfold Int.in_range, Int.int_min, Int.int_max in Hn.
  apply andb_true_iff in Hn as [H1 H2]. apply Z.leb_le in H1, H2.
  assert (Hr : (- 2147483648 <= IZR n <= 2147483648)%R).
  { split; [apply (IZR_le (-2147483648))|apply (IZR_le _ 2147483648)]; lia. }
  destruct (returns_interval (IZR n) (F32.of_int n) (- Limit.p31)%f32 Limit.p31)
    as [F B]; try reflexivity.
  - apply of_int_returns.
  - rewrite B2R_neg, B2R_p31. exact Hr.
  - rewrite B2R_neg, B2R_p31 in B. split; [exact F|split; [exact B|]].
    intros Hp.
    destruct (returns_interval (IZR n) (F32.of_int n) Lit.f1_0 Limit.p31)
      as [_ B']; try reflexivity.
    + apply of_int_returns.
    + rewrite B2R_f1_0, B2R_p31. split; [apply (IZR_le 1); lia|apply Hr].
    + rewrite B2R_f1_0 in B'. apply B'.
Qed.

(** X7: the aspect ratio of a frame: 1 when the height is not positive,
    otherwise a finite quotient of magnitude at most 2^31, at least 2^-31 for
    a positive width, and exactly 1 for a square viewport. *)
Theorem frame_aspect_guard w h :
  Int.in_range w = true -> Int.in_range h = true ->
  (h <= 0 -> frame_aspect w h = Lit.f1_0) /\
  (0 < h ->
     F32.finite (frame_aspect w h) = true /\
     (F32.abs (frame_aspect w h) <=? Limit.p31)%f32 = true /\
     (0 < w -> (Limit.pm31 <=? frame_aspect w h)%f32 = true) /\
     (w = h -> frame_aspect w h = Lit.f1_0)).
Proof.
  intros Hw Hh. unfold frame_aspect. split.
  - intros H0. destruct (Z.gtb_spec h 0); [lia|reflexivity].
  - intros H0. destruct (Z.gtb_spec h 0); [|lia].
    destruct (of_int_range w Hw) as (Fw & Bw & Pw).
    destruct (of_int_range h Hh) as (Fh & Bh & Ph).
    specialize (Ph ltac:(lia)).
    set (x := F32.of_int w) in *. set (y := F32.of_int h) in *.
    assert (Hy : F32.B2R y <> 0%R) by lra.
    assert (Hq : (- 2147483648 <= F32.B2R x / F32.B2R y <= 2147483648)%R).
    { split.
      - apply Rmult_le_reg_r with (F32.B2R y); [lra|].
        unfold Rdiv. rewrite Rmult_assoc, Rinv_l by exact Hy. nra.
      - apply Rmult_le_reg_r with (F32.B2R y); [lra|].
        unfold Rdiv. rewrite Rmult_assoc, Rinv_l by exact Hy. nra. }
    destruct (div_interval x y (- Limit.p31)%f32 Limit.p31 Fw Fh eq_refl eq_refl Hy)
      as [Fq Bq].
    { rewrite B2R_neg, B2R_p31. exact Hq. }
    rewrite B2R_neg, B2R_p31 in Bq.
    split; [exact Fq|split; [|split]].
    + apply leb_intro; [now rewrite finite_abs|reflexivity|].
      rewrite B2R_abs, B2R_p31. apply Rabs_le. lra.
    + intros Hpos. specialize (Pw ltac:(lia)).
      destruct (div_interval x y Limit.pm31 Limit.p31 Fw Fh eq_refl eq_refl Hy)
        as [_ Bq'].
      { rewrite B2R_pm31, B2R_p31. split; [|apply Hq].
        apply Rmult_le_reg_r with (F32.B2R y); [lra|].
        unfold Rdiv. rewrite Rmult_assoc, Rinv_l by exact Hy.
        assert (/ 2147483648 * F32.B2R y <= 1)%R; [|lra].
        apply Rmult_le_reg_l with 2147483648%R; [lra|].
        rewrite <- Rmult_assoc, Rinv_r by lra. lra. }
      apply leb_intro; [reflexivity|exact Fq|apply Bq'].
    + intros E. subst h. fold x in y. subst y.
      destruct (div_exact x x Lit.f1_0 Fw Fw eq_refl Hy) as [F1 V1].
      { rewrite B2R_f1_0. now field. }
      apply (valued_eq _ _ 1); [split; [exact F1|now rewrite V1, B2R_f1_0]
                               |apply valued_one|lra].
Qed.

Lemma frame_aspect_guard_witness :
  frame_aspect 900 0 = Lit.f1_0 /\ F32.finite (frame_aspect 900 700) = true.
Proof.
  destruct (frame_aspect_guard 900 0 eq_refl eq_refl) as [H0 _].
  destruct (frame_aspect_guard 900 700 eq_refl eq_refl) as [_ H1].
  split; [apply H0; lia|apply H1; lia].
Defined.

Lemma B2R_p19 : F32.B2R Limit.p19 = 524288%R.
Proof.
  unfold Limit.p19, F32.B2R; simpl. change (Zneg 4) with (Z.opp (Zpos 4)).
  rewrite (pow2_neg_IZR 4) by lia. change (2 ^ 4) with 16. lra.
Qed.

Lemma B2R_f0_02 : (0 < F32.B2R Lit.f0_02 < / 32)%R.
Proof.
  unfold Lit.f0_02, F32.B2R; simpl. change (Zneg 29) with (Z.opp (Zpos 29)).
  rewrite (pow2_neg_IZR 29) by lia. change (2 ^ 29) with 536870912.
  split.
  - apply Rmult_lt_0_compat; [lra|apply Rinv_0_lt_compat; lra].
  - apply Rmult_lt_reg_r with 536870912%R; [lra|].
    rewrite Rmult_assoc, Rinv_l by lra. lra.
Qed.

(** Adding less than half a unit in the last place changes nothing. *)
Lemma rounded_absorb m e d :
  SpecFloat.bounded 24 128 m e = true ->
  (0 <= d)%R -> (2 * d < pow2 e)%R ->
  rounded (IZR (Zpos m) * pow2 e + d) (IZR (Zpos m) * pow2 e).
Proof.
  intros Hb Hd0 Hd.
  destruct (bounded_binade m e Hb) as [(He & Hlt & Hge) [Hpos Hmax]].
  pose proof (pow2_pos e) as Pe.
  assert (Hm : (IZR (Zpos m) <= 16777215)%R).
  { rewrite pow2_add, pow2_24 in Hlt.
    assert (IZR (Zpos m) < 16777216)%R by nra.
    apply lt_IZR in H. apply (IZR_le _ 16777215). lia. }
  exists e, (Zpos m). split; [|split; [|reflexivity]].
  - split; [exact He|split].
    + rewrite pow2_add, pow2_24. nra.
    + destruct Hge as [->|Hge]; [now left|right; lra].
  - assert (Hq : ((IZR (Zpos m) * pow2 e + d) / pow2 e = IZR (Zpos m) + d / pow2 e)%R)
      by (field; lra).
    assert (Hx : (0 <= d / pow2 e < / 2)%R).
    { split.
      - apply Rmult_le_pos; [exact Hd0|]. apply Rlt_le, Rinv_0_lt_compat, Pe.
      - apply Rmult_lt_reg_r with (pow2 e); [exact Pe|].
        unfold Rdiv. rewrite Rmult_assoc, Rinv_l by lra. lra. }
    rewrite Hq. split; [lra|]. intros [H|H]; lra.
Qed.

Lemma next_angle_fixed ang :
  F32.finite ang = true -> (Limit.p19 <=? ang)%f32 = true -> next_angle ang = ang.
Proof.
  intros Fa Ha.
  { apply SFleb_correct in Ha; [|reflexivity|exact Fa]. rewrite B2R_p19 in Ha.
    destruct ang as [s|s| |s m e]; try discriminate.
    - rewrite B2R_zero in Ha. lra.
    - simpl in Fa. destruct (bounded_binade m e Fa) as [(He & Hlt & _) [Hpos Hmax]].
      destruct s; [rewrite B2R_finite in Ha; simpl in Ha; lra|].
      rewrite B2R_finite in Ha; simpl in Ha.
      assert (He4 : -4 <= e).
      { assert (pow2 19 < pow2 (e + 24))%R.
        { rewrite (pow2_IZR 19) by lia. change (2 ^ 19) with 524288. lra. }
        apply pow2_lt_inv in H. lia. }
      pose proof B2R_f0_02 as Hd.
      assert (P4 : (/ 16 <= pow2 e)%R).
      { apply Rle_trans with (pow2 (-4)); [|now apply pow2_le].
        change (-4) with (Z.opp 4). rewrite (pow2_neg_IZR 4) by lia.
        change (2 ^ 4) with 16. lra. }
      pose proof (rounded_absorb m e (F32.B2R Lit.f0_02) Fa ltac:(lra) ltac:(lra)) as Hr.
      destruct (add_returns (S754_finite false m e) Lit.f0_02 Fa eq_refl)
        as (f & Hf & Hfin & _).
      rewrite B2R_finite in Hf; simpl in Hf.
      assert (Ef : f = (IZR (Zpos m) * pow2 e)%R).
      { apply (roundedS_fun _ _ _ Hf). left. split; [lra|exact Hr]. }
      destruct Hfin as [Fr Vr].
      { rewrite Ef, Rabs_pos_eq by lra. lra. }
      unfold next_angle.
      change (F32.add (S754_finite false m e) Lit.f0_02)
        with (SFadd 24 128 (S754_finite false m e) Lit.f0_02).
      apply B2R_inj; [exact Fr|exact Fa| |].
      + rewrite Vr, Ef, B2R_finite. reflexivity.
      + rewrite Vr, Ef. lra. }
Qed.

(** X8: [ang += 0.02f] leaves every finite angle from 2^19 = 524288 on
    unchanged: 0.02 is less than half a unit in the last place there, so the
    rotation stops advancing. *)
Theorem angle_stalls ang :
  F32.finite ang = true -> (Limit.p19 <=? ang)%f32 = true ->
  next_angle ang = ang /\ forall n, Nat.iter n next_angle ang = ang.
Proof.
  intros Fa Ha. pose proof (next_angle_fixed ang Fa Ha) as H1.
  split; [exact H1|].
  induction n as [|n IH]; [reflexivity|]. simpl. now rewrite IH.
Qed.

Lemma angle_stalls_witness : next_angle Limit.p19 = Limit.p19.
Proof. apply (angle_stalls Limit.p19); reflexivity. Defined.

Lemma next_angle_bounds ang :
  F32.finite ang = true -> (F32.B2R ang <= 524288)%R ->
  F32.finite (next_angle ang) = true /\
  (F32.B2R ang <= F32.B2R (next_angle ang) <= 524288)%R.
Proof.
  intros Fa Ha. pose proof B2R_f0_02 as Hd.
  pose proof (next_angle_fixed Limit.p19 eq_refl eq_refl) as Hp.
  destruct (returns_between (F32.B2R ang) (F32.B2R ang + F32.B2R Lit.f0_02)
              (F32.B2R Limit.p19 + F32.B2R Lit.f0_02)
              ang (next_angle ang) (next_angle Limit.p19)) as [F B].
  - now apply returns_exact.
  - now apply add_returns.
  - now apply add_returns.
  - exact Fa.
  - now rewrite Hp.
  - rewrite B2R_p19. lra.
  - rewrite Hp, B2R_p19 in B. now split.
Qed.

(** X9: at the start of every frame the angle is finite, between 0 and
    2^19, and not below the angle of the frame before. *)
Theorem frame_angle_bounded n :
  F32.finite (frame_angle n) = true /\
  (Lit.f0_0 <=? frame_angle n)%f32 = true /\
  (frame_angle n <=? Limit.p19)%f32 = true /\
  (frame_angle n <=? frame_angle (S n))%f32 = true.
Proof.
  assert (H : F32.finite (frame_angle n) = true /\
              (0 <= F32.B2R (frame_angle n) <= 524288)%R).
  { induction n as [|n [F B]].
    - split; [reflexivity|]. change (frame_angle 0) with Lit.f0_0.
      rewrite B2R_f0_0. lra.
    - destruct (next_angle_bounds (frame_angle n) F) as [F' B']; [lra|].
      split; [exact F'|]. change (frame_angle (S n)) with (next_angle (frame_angle n)).
      lra. }
  destruct H as [F B].
  destruct (next_angle_bounds (frame_angle n) F) as [F' B']; [lra|].
  change (frame_angle (S n)) with (next_angle (frame_angle n)).
  split; [exact F|split; [|split]]; apply leb_intro; auto;
    rewrite ?B2R_f0_0, ?B2R_p19; lra.
Qed.

(** * Triangles *)

Lemma to_ushort_distinct z k :
  0 < k < 2 ^ 16 -> Int.to_ushort z <> Int.to_ushort (z + k).
Proof.
  unfold Int.to_ushort. intros Hk H.
  assert (E : (z + k) mod 2 ^ 16 = (z mod 2 ^ 16 + k) mod 2 ^ 16)
    by (rewrite Z.add_mod_idemp_l; [reflexivity|lia]).
  rewrite E in H. clear E.
  pose proof (Z.mod_pos_bound z (2 ^ 16) ltac:(lia)) as Hz.
  set (r := z mod 2 ^ 16) in *.
  destruct (Z_lt_le_dec (r + k) (2 ^ 16)) as [Hs|Hs].
  - rewrite (Z.mod_small (r + k)) in H by lia. lia.
  - replace (r + k) with (r + k - 2 ^ 16 + 1 * 2 ^ 16) in H by lia.
    rewrite Z.mod_add in H by lia. rewrite Z.mod_small in H by lia. lia.
Qed.

(** X11: in every mesh returned, also beyond resolution 256 where indices
    wrap, the two triangles a c b and b c d of a cell each have three
    different indices. *)
Theorem triangles_not_degenerate sinf N radius zscale freq m :
  makeSombrero sinf N radius zscale freq = Some m ->
  let N' := clamp_resolution N in
  forall j i, 0 <= j < N' - 1 -> 0 <= i < N' - 1 ->
    exists a b c d, cell_of (idx m) N' j i = [a; c; b; b; c; d] /\
      a <> c /\ c <> b /\ a <> b /\ b <> d /\ c <> d.
Proof.
  intros Hm N' j i Hj Hi.
  apply makeSombrero_Some in Hm as [Hle ->]. fold N' in Hle |- *.
  unfold max_resolution in Hle.
  unfold mesh_of; simpl idx. rewrite index_pass_cell by assumption.
  unfold cell_indices. do 4 eexists. split; [reflexivity|].
  repeat split.
  - replace ((j + 1) * N' + i) with (j * N' + i + N') by lia.
    apply to_ushort_distinct. lia.
  - replace ((j + 1) * N' + i) with (j * N' + (i + 1) + (N' - 1)) by lia.
    intros H. symmetry in H. revert H. apply to_ushort_distinct. lia.
  - replace (j * N' + (i + 1)) with (j * N' + i + 1) by lia.
    apply to_ushort_distinct. lia.
  - replace ((j + 1) * N' + (i + 1)) with (j * N' + (i + 1) + N') by lia.
    apply to_ushort_distinct. lia.
  - replace ((j + 1) * N' + (i + 1)) with ((j + 1) * N' + i + 1) by lia.
    apply to_ushort_distinct. lia.
Qed.

Lemma triangles_not_degenerate_witness :
  exists a b c d,
    cell_of (idx (mesh_of sin_poly 257 Lit.f6_0 Lit.f1_0 Lit.f1_0)) 257 255 0
    = [a; c; b; b; c; d] /\
    a <> c /\ c <> b /\ a <> b /\ b <> d /\ c <> d.
Proof.
  apply (triangles_not_degenerate sin_poly 257 Lit.f6_0 Lit.f1_0 Lit.f1_0
           (mesh_of sin_poly 257 Lit.f6_0 Lit.f1_0 Lit.f1_0)
           (makeSombrero_defined sin_poly 257 Lit.f6_0 Lit.f1_0 Lit.f1_0
              ltac:(unfold max_resolution, clamp_resolution; simpl; lia))
           255 0);
    unfold clamp_resolution; simpl; lia.
Defined.

Lemma In_firstn_list {A : Type} (c : nat) (l : list A) x : In x (firstn c l) -> In x l.
Proof.
  revert l. induction c as [|c IH]; intros [|y l] H; simpl in H; try contradiction.
  destruct H as [->|H]; [now left|right; now apply IH].
Qed.

Lemma In_skipn_list {A : Type} (n : nat) (l : list A) x : In x (skipn n l) -> In x l.
Proof.
  revert l. induction n as [|n IH]; intros l H; [exact H|].
  destruct l as [|y l]; [destruct H|]. right. now apply IH.
Qed.

Lemma In_chunk {A : Type} (c : nat) (l : list A) k x : In x (chunk c l k) -> In x l.
Proof. unfold chunk. intros H. now apply In_firstn_list, In_skipn_list in H. Qed.

(** X12: up to resolution 256 every vertex of the mesh is named by at
    least one index. *)
Theorem vertices_all_referenced sinf N radius zscale freq :
  3 <= N <= 256 ->
  exists m, makeSombrero sinf N radius zscale freq = Some m /\
    forall v, 0 <= v < vertex_count m -> In v (idx m).
Proof.
  intros HN. exists (mesh_of sinf N radius zscale freq). split.
  - rewrite makeSombrero_defined; rewrite clamp_resolution_id; try reflexivity;
      unfold max_resolution; lia.
  - intros v Hv. rewrite (mesh_vertex_count sinf N radius zscale freq) in Hv by lia.
    destruct (vertex_index_split N v ltac:(lia) Hv) as (Hj & Hi & Ev).
    set (j := v / N) in *. set (i := v mod N) in *.
    set (j0 := Z.min j (N - 2)). set (i0 := Z.min i (N - 2)).
    assert (Hj0 : 0 <= j0 < N - 1) by (subst j0; lia).
    assert (Hi0 : 0 <= i0 < N - 1) by (subst i0; lia).
    apply (In_chunk 6 _ (j0 * (N - 1) + i0)).
    change (chunk 6 (idx (mesh_of sinf N radius zscale freq)) (j0 * (N - 1) + i0))
      with (cell_of (index_pass N) N j0 i0).
    rewrite index_pass_cell by assumption.
    unfold cell_indices. rewrite !to_ushort_small by nia.
    destruct (Z_lt_le_dec j (N - 1)); destruct (Z_lt_le_dec i (N - 1)).
    + left. replace j0 with j by (subst j0; lia).
      replace i0 with i by (subst i0; lia). lia.
    + right. right. left. replace j0 with j by (subst j0; lia).
      replace i0 with (i - 1) by (subst i0; lia). lia.
    + right. left. replace j0 with (j - 1) by (subst j0; lia).
      replace i0 with i by (subst i0; lia). lia.
    + do 5 right. left. replace j0 with (j - 1) by (subst j0; lia).
      replace i0 with (i - 1) by (subst i0; lia). lia.
Qed.

Lemma vertices_all_referenced_witness :
  3 <= 3 <= 256 /\
  exists m, makeSombrero sin_poly 3 Lit.f1_0 Lit.f1_0 Lit.f1_0 = Some m /\
    forall v, 0 <= v < vertex_count m -> In v (idx m).
Proof.
  split; [lia|].
  apply (vertices_all_referenced sin_poly 3 Lit.f1_0 Lit.f1_0 Lit.f1_0). lia.
Defined.

(** * The tracked range *)

Section Range.

Variable sinf : float -> float.
Variables (N : Z) (radius zscale freq : float).
Hypothesis HN : 3 <= N.

Let m := mesh_of sinf N radius zscale freq.
Let zmin := p_zmin (sample_pass sinf N radius zscale freq).
Let zmax := p_zmax (sample_pass sinf N radius zscale freq).

Hypothesis Hfin : forall v, 0 <= v < vertex_count m -> F32.finite (height_of m v) = true.

Lemma zmin_attained u :
  0 <= u < vertex_count m -> (F32.abs (height_of m u) <=? Lit.f1e9)%f32 = true ->
  exists v, 0 <= v < vertex_count m /\ (height_of m v =? zmin)%f32 = true.
Proof.
  intros Hu Hb.
  destruct (zmin_tracked sinf N radius zscale freq HN Hfin) as (Fmin & H9 & Hle & Hin).
  fold zmin in Fmin, H9, Hle, Hin. fold m in Hfin.
  destruct Hin as [E|Hin].
  - exists u. split; [exact Hu|]. apply eqb_intro; auto.
    pose proof (abs_leb_inv _ Lit.f1e9 (Hfin u Hu) eq_refl Hb) as B.
    pose proof (Hle _ (vertex_heights sinf N radius zscale freq HN u Hu)) as L.
    fold m in L. rewrite E in L |- *. apply Rle_antisym; [apply B|exact L].
  - apply (heights_vertex sinf N radius zscale freq HN) in Hin as (v & Hv & E).
    exists v. split; [exact Hv|]. fold m in E. rewrite <- E.
    apply eqb_intro; auto.
Qed.

Lemma zmax_attained u :
  0 <= u < vertex_count m -> (F32.abs (height_of m u) <=? Lit.f1e9)%f32 = true ->
  exists v, 0 <= v < vertex_count m /\ (height_of m v =? zmax)%f32 = true.
Proof.
  intros Hu Hb.
  destruct (zmax_tracked sinf N radius zscale freq HN Hfin) as (Fmax & H9 & Hle & Hin).
  fold zmax in Fmax, H9, Hle, Hin. fold m in Hfin.
  destruct Hin as [E|Hin].
  - exists u. split; [exact Hu|]. apply eqb_intro; auto.
    pose proof (abs_leb_inv _ Lit.f1e9 (Hfin u Hu) eq_refl Hb) as B.
    pose proof (Hle _ (vertex_heights sinf N radius zscale freq HN u Hu)) as L.
    fold m in L. rewrite E in L |- *. rewrite B2R_neg in L |- *.
    apply Rle_antisym; [exact L|apply B].
  - apply (heights_vertex sinf N radius zscale freq HN) in Hin as (v & Hv & E).
    exists v. split; [exact Hv|]. fold m in E. rewrite <- E.
    apply eqb_intro; auto.
Qed.

Lemma range_encloses v :
  0 <= v < vertex_count m ->
  (zmin <=? height_of m v)%f32 = true /\ (height_of m v <=? zmax)%f32 = true.
Proof.
  intros Hv.
  destruct (zmin_tracked sinf N radius zscale freq HN Hfin) as (Fmin & _).
  destruct (zmax_tracked sinf N radius zscale freq HN Hfin) as (Fmax & _).
  pose proof (height_between sinf N radius zscale freq HN Hfin v Hv) as [B1 B2].
  split; apply leb_intro; auto; apply Hfin; exact Hv.
Qed.

End Range.

(** X13: for finite heights, zmin and zmax of the first pass enclose every
    height; and when some height lies within the initial bounds -1e9 and
    1e9, both are attained by a vertex. *)
Theorem range_tracked sinf N radius zscale freq m :
  makeSombrero sinf N radius zscale freq = Some m ->
  (forall v, 0 <= v < vertex_count m -> F32.finite (height_of m v) = true) ->
  let st := sample_pass sinf (clamp_resolution N) radius zscale freq in
  (forall v, 0 <= v < vertex_count m ->
     (p_zmin st <=? height_of m v)%f32 = true /\
     (height_of m v <=? p_zmax st)%f32 = true) /\
  ((exists u, 0 <= u < vertex_count m /\
      (F32.abs (height_of m u) <=? Lit.f1e9)%f32 = true) ->
   (exists v, 0 <= v < vertex_count m /\ (height_of m v =? p_zmin st)%f32 = true) /\
   (exists v, 0 <= v < vertex_count m /\ (height_of m v =? p_zmax st)%f32 = true)).
Proof.
  intros Hm Hfin st. apply makeSombrero_Some in Hm as [_ ->].
  pose proof (clamp_resolution_ge N) as HN.
  split.
  - intros v Hv. now apply range_encloses.
  - intros (u & Hu & Hb). split.
    + now apply (zmin_attained sinf _ radius zscale freq HN Hfin u).
    + now apply (zmax_attained sinf _ radius zscale freq HN Hfin u).
Qed.

Lemma range_tracked_witness :
  exists v, 0 <= v < vertex_count (mesh_of sin_poly 3 Lit.f1_0 Lit.f1_0 Lit.f1_0) /\
    (height_of (mesh_of sin_poly 3 Lit.f1_0 Lit.f1_0 Lit.f1_0) v
     =? p_zmax (sample_pass sin_poly (clamp_resolution 3) Lit.f1_0 Lit.f1_0 Lit.f1_0))%f32
    = true.
Proof.
  apply (proj2 (range_tracked sin_poly 3 Lit.f1_0 Lit.f1_0 Lit.f1_0
                  (mesh_of sin_poly 3 Lit.f1_0 Lit.f1_0 Lit.f1_0)
                  (makeSombrero_defined sin_poly 3 Lit.f1_0 Lit.f1_0 Lit.f1_0
                     ltac:(unfold max_resolution, clamp_resolution; simpl; lia))
                  ltac:(apply forall_upto; vm_compute; reflexivity))).
  exists 4. split; vm_compute; [split; [discriminate|reflexivity]|reflexivity].
Defined.

(** X14: for finite heights of magnitude at most 2^126 the divisor of the
    colour pass is finite and not below 1e-6, and the normalised height t of
    every vertex lies between 0 and 1 (the source's comment [// 0..1]). *)
Theorem normalised_in_unit sinf N radius zscale freq m :
  makeSombrero sinf N radius zscale freq = Some m ->
  heights_bounded m ->
  let st := sample_pass sinf (clamp_resolution N) radius zscale freq in
  let range := height_range (p_zmin st) (p_zmax st) in
  F32.finite range = true /\ (range <? Lit.f1em6)%f32 = false /\
  forall v, 0 <= v < vertex_count m ->
    in_unit (normalised (p_zmin st) range (height_of m v)) = true.
Proof.
  intros Hm Hb st range. apply makeSombrero_Some in Hm as [_ ->].
  pose proof (clamp_resolution_ge N) as HN. set (N' := clamp_resolution N) in *.
  pose proof (bounded_heights_finite _ Hb) as Hfin.
  pose proof (fun v Hv => bounded_height_value _ v Hb Hv) as Hval.
  destruct (tracked_bounds sinf N' radius zscale freq HN Hfin Hval) as [Bmin Bmax].
  destruct (zmin_tracked sinf N' radius zscale freq HN Hfin) as (Fmin & _).
  destruct (zmax_tracked sinf N' radius zscale freq HN Hfin) as (Fmax & _).
  fold st in Bmin, Bmax, Fmin, Fmax.
  assert (Fw : F32.finite (p_zmax st - p_zmin st)%f32 = true)
    by now apply difference_finite.
  assert (G : F32.finite range = true /\ (range <? Lit.f1em6)%f32 = false).
  { unfold range, height_range.
    destruct (p_zmax st - p_zmin st <? Lit.f1em6)%f32 eqn:E; [now split|].
    now rewrite E. }
  split; [apply G|split; [apply G|]].
  intros v Hv. apply unit_float_in_unit.
  apply normalised_unit; auto.
  apply (height_between sinf N' radius zscale freq HN Hfin v Hv).
Qed.

Lemma normalised_in_unit_witness :
  in_unit (normalised
             (p_zmin (sample_pass sin_poly (clamp_resolution 3) Lit.f1_0 Lit.f1_0 Lit.f1_0))
             (height_range
                (p_zmin (sample_pass sin_poly (clamp_resolution 3) Lit.f1_0 Lit.f1_0 Lit.f1_0))
                (p_zmax (sample_pass sin_poly (clamp_resolution 3) Lit.f1_0 Lit.f1_0 Lit.f1_0)))
             (height_of (mesh_of sin_poly 3 Lit.f1_0 Lit.f1_0 Lit.f1_0) 1)) = true.
Proof.
  apply (normalised_in_unit sin_poly 3 Lit.f1_0 Lit.f1_0 Lit.f1_0
           (mesh_of sin_poly 3 Lit.f1_0 Lit.f1_0 Lit.f1_0)
           (makeSombrero_defined sin_poly 3 Lit.f1_0 Lit.f1_0 Lit.f1_0
              ltac:(unfold max_resolution, clamp_resolution; simpl; lia))
           ltac:(intros v Hv; apply andb_true_iff;
                 revert v Hv; apply forall_upto; vm_compute; reflexivity)).
  vm_compute. split; [discriminate|reflexivity].
Defined.



(** * The grid is ordered *)

Lemma returns_mono v r v' r' :
  returns v r -> returns v' r' -> F32.finite r = true -> F32.finite r' = true ->
  (v <= v')%R -> (F32.B2R r <= F32.B2R r')%R.
Proof.
  intros H H' F F' Hv.
  apply (roundedS_mono v v'); [exact Hv| |]; now apply returns_finite_value.
Qed.

Section Ordered.

Variables (N : Z) (radius : float).
Hypothesis HN : 3 <= N <= max_resolution.
Hypothesis Fr : F32.finite radius = true.
Hypothesis Rpos : (0 < F32.B2R radius)%R.
Hypothesis Fw : F32.finite (radius - (- radius))%f32 = true.

Let w := (radius - (- radius))%f32.
Let t k := (F32.of_int k / F32.of_int (N - 1))%f32.

Lemma grid_product_finite k :
  0 <= k < N -> F32.finite (t k * w)%f32 = true.
Proof.
  intros Hk.
  destruct (grid_fraction N HN k Hk) as ([Ft [Ht0 Ht1]] & _).
  fold (t k) in Ft, Ht0, Ht1.
  pose proof (width_value radius Fr Fw) as Vw. fold w in Vw.
  apply (mul_interval _ _ Lit.f0_0 w); auto. rewrite B2R_f0_0, Vw. nra.
Qed.

Lemma grid_quotient_finite k :
  0 <= k < N -> F32.finite (grid_coord N radius k / radius)%f32 = true.
Proof.
  intros Hk.
  destruct (grid_coord_value N radius HN Fr Rpos Fw k Hk) as (Fx & [Hx0 Hx1] & _).
  apply (div_interval _ _ (- Lit.f1_0)%f32 Lit.f1_0); auto; try lra.
  rewrite B2R_neg, B2R_f1_0. split.
  - apply Rmult_le_reg_r with (F32.B2R radius); [assumption|].
    unfold Rdiv. rewrite Rmult_assoc, Rinv_l by lra. lra.
  - apply Rmult_le_reg_r with (F32.B2R radius); [assumption|].
    unfold Rdiv. rewrite Rmult_assoc, Rinv_l by lra. lra.
Qed.

Lemma grid_coord_mono k k' :
  0 <= k -> k <= k' -> k' < N ->
  (F32.B2R (grid_coord N radius k) <= F32.B2R (grid_coord N radius k'))%R.
Proof.
  intros H0 Hle Hlt.
  assert (Hk : 0 <= k < N) by lia. assert (Hk' : 0 <= k' < N) by lia.
  destruct (grid_denominator N HN) as [Fd Vd].
  destruct (grid_numerator N HN k Hk) as [Fk Vk].
  destruct (grid_numerator N HN k' Hk') as [Fk' Vk'].
  destruct (grid_fraction N HN k Hk) as ([Ft [Ht0 _]] & _).
  destruct (grid_fraction N HN k' Hk') as ([Ft' _] & _).
  fold (t k) in Ft, Ht0. fold (t k') in Ft'.
  pose proof (width_value radius Fr Fw) as Vw. fold w in Vw.
  assert (Hd : (0 < IZR (N - 1))%R) by (apply IZR_lt; lia).
  assert (Ht : (F32.B2R (t k) <= F32.B2R (t k'))%R).
  { apply (returns_mono (F32.B2R (F32.of_int k) / F32.B2R (F32.of_int (N - 1)))
                        _ (F32.B2R (F32.of_int k') / F32.B2R (F32.of_int (N - 1))));
      auto; try (apply div_returns; auto; rewrite Vd; lra).
    rewrite Vk, Vk', Vd. apply Rmult_le_compat_r.
    - left. now apply Rinv_0_lt_compat.
    - apply IZR_le. lia. }
  pose proof (grid_product_finite k Hk) as Fp.
  pose proof (grid_product_finite k' Hk') as Fp'.
  assert (Hp : (F32.B2R (t k * w)%f32 <= F32.B2R (t k' * w)%f32)%R).
  { apply (returns_mono (F32.B2R (t k) * F32.B2R w) _ (F32.B2R (t k') * F32.B2R w));
      auto; try (apply mul_returns; auto).
    rewrite Vw. nra. }
  destruct (grid_coord_value N radius HN Fr Rpos Fw k Hk) as (Fx & _).
  destruct (grid_coord_value N radius HN Fr Rpos Fw k' Hk') as (Fx' & _).
  assert (Fn : F32.finite (- radius)%f32 = true) by now rewrite finite_neg.
  apply (returns_mono (F32.B2R (- radius)%f32 + F32.B2R (t k * w)%f32)
                      _ (F32.B2R (- radius)%f32 + F32.B2R (t k' * w)%f32));
    auto; try (apply add_returns; auto).
  lra.
Qed.

Lemma vertex_x_mono k k' :
  0 <= k -> k <= k' -> k' < N ->
  (vertex_x N radius k <=? vertex_x N radius k')%f32 = true.
Proof.
  intros H0 Hle Hlt.
  assert (Hk : 0 <= k < N) by lia. assert (Hk' : 0 <= k' < N) by lia.
  pose proof (grid_coord_mono k k' H0 Hle Hlt) as Hx.
  destruct (grid_coord_value N radius HN Fr Rpos Fw k Hk) as (Fx & _).
  destruct (grid_coord_value N radius HN Fr Rpos Fw k' Hk') as (Fx' & _).
  pose proof (grid_quotient_finite k Hk) as Fq.
  pose proof (grid_quotient_finite k' Hk') as Fq'.
  destruct (vertex_x_value N radius HN Fr Rpos Fw k Hk) as (Fc & _).
  destruct (vertex_x_value N radius HN Fr Rpos Fw k' Hk') as (Fc' & _).
  assert (Hq : (F32.B2R (grid_coord N radius k / radius)%f32
                <= F32.B2R (grid_coord N radius k' / radius)%f32)%R).
  { apply (returns_mono (F32.B2R (grid_coord N radius k) / F32.B2R radius)
                        _ (F32.B2R (grid_coord N radius k') / F32.B2R radius));
      auto; try (apply div_returns; auto; lra).
    apply Rmult_le_compat_r; [|exact Hx]. left. now apply Rinv_0_lt_compat. }
  apply leb_intro; auto. unfold vertex_x.
  apply (returns_mono (F32.B2R (grid_coord N radius k / radius)%f32 * F32.B2R Lit.f1_5)
                      _ (F32.B2R (grid_coord N radius k' / radius)%f32 * F32.B2R Lit.f1_5));
    auto; try (apply mul_returns; auto).
  rewrite B2R_f1_5. lra.
Qed.

End Ordered.

(** X16: for a finite radius with 0 < radius < 2^127, the x component of
    the positions does not decrease along a row and the y component does
    not decrease along a column. *)
Theorem positions_ordered sinf N radius zscale freq m :
  makeSombrero sinf N radius zscale freq = Some m ->
  F32.finite radius = true -> (F32.zero <? radius)%f32 = true ->
  (radius <? Bound.p127)%f32 = true ->
  let N' := clamp_resolution N in
  forall j i j' i', 0 <= j -> j <= j' -> j' < N' -> 0 <= i -> i <= i' -> i' < N' ->
    (nth 0 (position_of m (j * N' + i)) F32.nan
     <=? nth 0 (position_of m (j' * N' + i')) F32.nan)%f32 = true /\
    (nth 1 (position_of m (j * N' + i)) F32.nan
     <=? nth 1 (position_of m (j' * N' + i')) F32.nan)%f32 = true.
Proof.
  intros Hm Fr H0 H127 N' j i j' i' Hj Hjj Hj' Hi Hii Hi'.
  apply makeSombrero_Some in Hm as [Hle ->]. fold N' in Hle |- *.
  destruct (radius_width_finite radius Fr H0 H127) as [Rpos Fw].
  assert (HN : 3 <= N' <= max_resolution) by (split; [apply clamp_resolution_ge|exact Hle]).
  rewrite !mesh_of_position by lia. unfold vertex_pos; simpl nth.
  split; now apply vertex_x_mono.
Qed.

Lemma positions_ordered_witness :
  (nth 0 (position_of (mesh_of sin_poly 3 Lit.f6_0 Lit.f1_0 Lit.f1_0) (0 * 3 + 1)) F32.nan
   <=? nth 0 (position_of (mesh_of sin_poly 3 Lit.f6_0 Lit.f1_0 Lit.f1_0) (2 * 3 + 2))
         F32.nan)%f32 = true.
Proof.
  apply (positions_ordered sin_poly 3 Lit.f6_0 Lit.f1_0 Lit.f1_0
           (mesh_of sin_poly 3 Lit.f6_0 Lit.f1_0 Lit.f1_0)
           (makeSombrero_defined sin_poly 3 Lit.f6_0 Lit.f1_0 Lit.f1_0
              ltac:(unfold max_resolution, clamp_resolution; simpl; lia))
           eq_refl eq_refl eq_refl 0 1 2 2);
    unfold clamp_resolution; simpl; lia.
Defined.

(** * Equal heights *)

(** C6, as the code has it: when the call returns a mesh whose sampled z
    are all equal, finite and of magnitude at most 1e9 (the initial values
    of zmin and zmax are 1e9 and -1e9), the computed zmax - zmin is zero,
    the range is replaced by 1, and every vertex has normalised height 0
    and colour (0,0,1). *)
Theorem flat_range_is_blue sinf N radius zscale freq m :
  makeSombrero sinf N radius zscale freq = Some m ->
  (forall v, 0 <= v < vertex_count m ->
     F32.finite (height_of m v) = true /\
     (F32.abs (height_of m v) <=? Lit.f1e9)%f32 = true) ->
  (forall u v, 0 <= u < vertex_count m -> 0 <= v < vertex_count m ->
     (height_of m u =? height_of m v)%f32 = true) ->
  let st := sample_pass sinf (clamp_resolution N) radius zscale freq in
  (p_zmax st - p_zmin st =? F32.zero)%f32 = true /\
  height_range (p_zmin st) (p_zmax st) = Lit.f1_0 /\
  forall v, 0 <= v < vertex_count m ->
    (normalised (p_zmin st) (height_range (p_zmin st) (p_zmax st)) (height_of m v)
     =? F32.zero)%f32 = true /\
    exists g, color_of m v = [Lit.f0_0; g; Lit.f1_0] /\ (g =? Lit.f0_0)%f32 = true.
Proof.
  intros Hm Hb Heq st.
  assert (Hfin : forall v, 0 <= v < vertex_count m -> F32.finite (height_of m v) = true)
    by (intros v Hv; apply Hb, Hv).
  assert (H9 : forall v, 0 <= v < vertex_count m ->
                 (F32.abs (height_of m v) <=? Lit.f1e9)%f32 = true)
    by (intros v Hv; apply Hb, Hv).
  apply makeSombrero_Some in Hm as [_ ->].
  pose proof (clamp_resolution_ge N) as HN. set (N' := clamp_resolution N) in *.
  pose proof (equal_heights_flat sinf N' radius zscale freq HN Hfin Heq H9) as H0.
  fold st in H0.
  destruct (zmin_tracked sinf N' radius zscale freq HN Hfin) as (Fmin & _).
  destruct (zmax_tracked sinf N' radius zscale freq HN Hfin) as (Fmax & _).
  fold st in Fmin, Fmax.
  assert (Hr : height_range (p_zmin st) (p_zmax st) = Lit.f1_0).
  { apply eqb_zero_inv in H0 as [s Es]. unfold height_range. rewrite Es. now destruct s. }
  split; [exact H0|split; [exact Hr|]]. intros v Hv.
  destruct (flat_range sinf N' radius zscale freq HN Hfin v H0 Hv) as (Fw & _ & Hz).
  fold st in Fw, Hz.
  split.
  - pose proof (height_between sinf N' radius zscale freq HN Hfin v Hv) as Hbt.
    fold st in Hbt.
    destruct (normalised_min _ _ _ (Hfin v Hv) Fmin Fw Hbt Hz) as [s ->].
    now destruct s.
  - destruct (colour_components sinf N' radius zscale freq HN Hfin v Fw Hv)
      as (r & g & b & Hc & _ & _ & _ & Hlo & _).
    destruct (Hlo Hz) as (-> & Hg & ->). now exists g.
Qed.

Lemma flat_range_is_blue_witness :
  height_range
    (p_zmin (sample_pass sin_poly (clamp_resolution 3) Lit.f1_0 Lit.f0_0 Lit.f1_0))
    (p_zmax (sample_pass sin_poly (clamp_resolution 3) Lit.f1_0 Lit.f0_0 Lit.f1_0))
  = Lit.f1_0 /\
  exists g, color_of (mesh_of sin_poly 3 Lit.f1_0 Lit.f0_0 Lit.f1_0) 4
            = [Lit.f0_0; g; Lit.f1_0] /\ (g =? Lit.f0_0)%f32 = true.
Proof.
  assert (Hz : forall v, 0 <= v < 9 ->
            (height_of (mesh_of sin_poly 3 Lit.f1_0 Lit.f0_0 Lit.f1_0) v =? F32.zero)%f32
            = true) by (apply forall_upto; vm_compute; reflexivity).
  destruct (flat_range_is_blue sin_poly 3 Lit.f1_0 Lit.f0_0 Lit.f1_0
              (mesh_of sin_poly 3 Lit.f1_0 Lit.f0_0 Lit.f1_0)
              (makeSombrero_defined sin_poly 3 Lit.f1_0 Lit.f0_0 Lit.f1_0
                 ltac:(unfold max_resolution, clamp_resolution; simpl; lia))
              ltac:(intros v Hv; apply andb_true_iff;
                    revert v Hv; apply forall_upto; vm_compute; reflexivity)
              ltac:(intros u v Hu Hv;
                    destruct (eqb_zero_inv _ (Hz u Hu)) as [s ->];
                    destruct (eqb_zero_inv _ (Hz v Hv)) as [s' ->]; now destruct s, s'))
    as (_ & Hr & Hv).
  split; [exact Hr|].
  apply (Hv 4). vm_compute. split; [discriminate|reflexivity].
Defined.

(** C6 as stated fails: for radius 1e-5, height scale 3e9 and frequency 1
    every divisor is clamped to 1e-4, so all nine heights of the mesh of
    resolution 3 are the same float, whatever libm's [sinf] returns; with
    the polynomial sine they are all 3e9, zmin keeps its initial value 1e9,
    the range is 2e9 and not replaced, every normalised height is 1 and
    every vertex is coloured (1,0,0).  With the height scale -3e9 all nine
    heights are -3e9, zmax keeps its initial value -1e9, and the range is
    again 2e9 and not replaced by 1. *)
Lemma equal_heights_red_at_3e9 :
  (forall sinf : float -> float,
   exists m, makeSombrero sinf 3 Sample.f1em5 Sample.f3e9 Lit.f1_0 = Some m /\
     forall v, 0 <= v < vertex_count m ->
       height_of m v = (Sample.f3e9 * (sinf (Lit.f1_0 * Lit.f1em4) / Lit.f1em4))%f32) /\
  (exists m, makeSombrero sin_poly 3 Sample.f1em5 Sample.f3e9 Lit.f1_0 = Some m /\
    let st := sample_pass sin_poly (clamp_resolution 3) Sample.f1em5 Sample.f3e9 Lit.f1_0 in
    p_zmin st = Lit.f1e9 /\ p_zmax st = Sample.f3e9 /\
    (p_zmax st - p_zmin st =? F32.zero)%f32 = false /\
    height_range (p_zmin st) (p_zmax st) = (Sample.f3e9 - Lit.f1e9)%f32 /\
    forall v, 0 <= v < vertex_count m ->
      height_of m v = Sample.f3e9 /\
      normalised (p_zmin st) (height_range (p_zmin st) (p_zmax st)) (height_of m v)
      = Lit.f1_0 /\
      color_of m v = [Lit.f1_0; Lit.f0_0; Lit.f0_0] /\
      color_of m v <> [Lit.f0_0; Lit.f0_0; Lit.f1_0]) /\
  exists m, makeSombrero sin_poly 3 Sample.f1em5 Sample.fm3e9 Lit.f1_0 = Some m /\
    let st := sample_pass sin_poly (clamp_resolution 3) Sample.f1em5 Sample.fm3e9 Lit.f1_0 in
    (forall v, 0 <= v < vertex_count m -> height_of m v = Sample.fm3e9) /\
    p_zmin st = Sample.fm3e9 /\ p_zmax st = (- Lit.f1e9)%f32 /\
    (p_zmax st - p_zmin st =? F32.zero)%f32 = false /\
    height_range (p_zmin st) (p_zmax st) = (- Lit.f1e9 - Sample.fm3e9)%f32 /\
    height_range (p_zmin st) (p_zmax st) <> Lit.f1_0.
Proof.
  split; [|split].
  - intros sinf. exists (mesh_of sinf 3 Sample.f1em5 Sample.f3e9 Lit.f1_0). split.
    + apply makeSombrero_defined. unfold max_resolution, clamp_resolution; simpl; lia.
    + intros v Hv.
      rewrite (mesh_vertex_count sinf 3 Sample.f1em5 Sample.f3e9 Lit.f1_0) in Hv by lia.
      destruct (vertex_index_split 3 v ltac:(lia) Hv) as (Hj & Hi & ->).
      rewrite mesh_height by assumption.
      unfold vertex_height, sample_height.
      replace (sample_radius (grid_coord 3 Sample.f1em5 (v mod 3))
                             (grid_coord 3 Sample.f1em5 (v / 3))) with Lit.f1em4;
        [reflexivity|].
      assert (Ci : v mod 3 = 0 \/ v mod 3 = 1 \/ v mod 3 = 2) by lia.
      assert (Cj : v / 3 = 0 \/ v / 3 = 1 \/ v / 3 = 2) by lia.
      destruct Ci as [->|[->| ->]]; destruct Cj as [->|[->| ->]];
        vm_compute; reflexivity.
  - exists (mesh_of sin_poly 3 Sample.f1em5 Sample.f3e9 Lit.f1_0). split.
    + apply makeSombrero_defined. unfold max_resolution, clamp_resolution; simpl; lia.
    + cbv zeta. split; [vm_compute; reflexivity|split; [vm_compute; reflexivity|]].
      split; [vm_compute; reflexivity|split; [vm_compute; reflexivity|]].
      intros v Hv.
      assert (H : In v (upto 9)) by (apply In_upto; exact Hv).
      repeat (destruct H as [<-|H];
              [split; [vm_compute; reflexivity|split; [vm_compute; reflexivity|
               split; [vm_compute; reflexivity|vm_compute; discriminate]]]|]).
      destruct H.
  - exists (mesh_of sin_poly 3 Sample.f1em5 Sample.fm3e9 Lit.f1_0). split.
    + apply makeSombrero_defined. unfold max_resolution, clamp_resolution; simpl; lia.
    + cbv zeta. split.
      { intros v Hv.
        assert (H : In v (upto 9)) by (apply In_upto; exact Hv).
        repeat (destruct H as [<-|H]; [vm_compute; reflexivity|]).
        destruct H. }
      split; [vm_compute; reflexivity|split; [vm_compute; reflexivity|]].
      split; [vm_compute; reflexivity|split; [vm_compute; reflexivity|]].
      vm_compute. discriminate.
Qed.

(** * Values on a binary grid *)

(** An integer below 2^24 times a power of two from 2^-149 on is a
    binary32 value. *)
Lemma rounded_scaled k e :
  0 <= k < 16777216 -> -149 <= e -> rounded (IZR k * pow2 e) (IZR k * pow2 e).
Proof.
  intros Hk He.
  destruct (Z.eq_dec k 0) as [->|Hnz].
  { rewrite Rmult_0_l. apply rounded_0. }
  set (d := Zdigits2 k).
  assert (Hd : 1 <= d <= 24).
  { unfold d. split.
    - assert (0 < Zdigits2 k) by (apply Zdigits2_gt; lia). lia.
    - apply Zdigits2_le; lia. }
  destruct (Zdigits2_bounds k ltac:(lia)) as [Hlo Hhi]. fold d in Hlo, Hhi.
  set (e' := Z.max (e + d - 24) (-149)).
  assert (He' : -149 <= e' <= e /\ e + d - 24 <= e') by (unfold e'; lia).
  pose proof (pow2_pos e) as Hp. pose proof (pow2_pos e') as Hp'.
  assert (Hval : (IZR (k * 2 ^ (e - e')) * pow2 e' = IZR k * pow2 e)%R).
  { rewrite mult_IZR, <- pow2_IZR by lia.
    rewrite Rmult_assoc, <- pow2_add.
    now replace (e - e' + e') with e by lia. }
  exists e', (k * 2 ^ (e - e')).
  split; [split; [lia|split]|split].
  - apply Rlt_le_trans with (pow2 d * pow2 e)%R; [nra|].
    rewrite <- pow2_add. apply pow2_le. lia.
  - destruct (Z.eq_dec e' (-149)) as [E|E]; [now left|right].
    replace (e' + 23) with ((d - 1) + e) by lia. rewrite pow2_add. nra.
  - replace (IZR k * pow2 e / pow2 e')%R with (IZR (k * 2 ^ (e - e'))).
    + apply nearest_even_IZR.
    + rewrite <- Hval. field. lra.
  - now rewrite Hval.
Qed.

Lemma roundedS_scaled k e :
  0 <= k < 16777216 -> -149 <= e -> roundedS (IZR k * pow2 e) (IZR k * pow2 e).
Proof.
  intros Hk He. left. split; [|now apply rounded_scaled].
  apply Rmult_le_pos; [apply IZR_le; lia|left; apply pow2_pos].
Qed.

(** A float from 1/4 on is a multiple of 2^-25. *)
Lemma quarter_grid t :
  F32.finite t = true -> (/ 4 <= F32.B2R t)%R ->
  exists K : Z, F32.B2R t = (IZR K * pow2 (-25))%R.
Proof.
  intros Ft Ht. destruct t as [s|s| |s m e]; try discriminate.
  - rewrite B2R_zero in Ht. lra.
  - simpl in Ft. destruct (bounded_binade m e Ft) as [(He & Hlt & _) [Hpos _]].
    destruct s; rewrite B2R_finite in Ht |- *; simpl in Ht |- *; [lra|].
    assert (He25 : -25 <= e).
    { assert (pow2 (-2) < pow2 (e + 24))%R.
      { change (-2) with (Z.opp 2). rewrite (pow2_neg_IZR 2) by lia.
        change (2 ^ 2) with 4. lra. }
      apply pow2_lt_inv in H. lia. }
    exists (Zpos m * 2 ^ (e + 25)).
    rewrite mult_IZR, <- pow2_IZR by lia.
    rewrite Rmult_assoc, <- pow2_add. now replace (e + 25 + -25) with e by lia.
Qed.

Lemma pow2_m25 : pow2 (-25) = (/ 33554432)%R.
Proof. change (-25) with (Z.opp 25). now rewrite (pow2_neg_IZR 25) by lia. Qed.

Lemma pow2_m23 : pow2 (-23) = (/ 8388608)%R.
Proof. change (-23) with (Z.opp 23). now rewrite (pow2_neg_IZR 23) by lia. Qed.

(** A value [K * 2^-25] between 0 and 1/4, and four times it taken from 1. *)
Lemma grid_quarter_repr K lo :
  (0 <= IZR K * pow2 (-25) - lo <= / 4)%R ->
  (exists L : Z, lo = (IZR L * pow2 (-25))%R) ->
  let d := (IZR K * pow2 (-25) - lo)%R in
  roundedS d d /\ roundedS (4 * d) (4 * d) /\ roundedS (1 - 4 * d) (1 - 4 * d).
Proof.
  intros Hd [L ->] d. rewrite pow2_m25 in *.
  assert (E : d = (IZR (K - L) * pow2 (-25))%R).
  { unfold d. rewrite minus_IZR, pow2_m25. lra. }
  assert (HK : 0 <= K - L <= 8388608).
  { split.
    - apply le_IZR. rewrite minus_IZR. lra.
    - apply le_IZR. rewrite minus_IZR. lra. }
  split; [|split].
  - rewrite E. apply roundedS_scaled; lia.
  - replace (4 * d)%R with (IZR (K - L) * pow2 (-23))%R
      by (rewrite E, pow2_m25, pow2_m23; lra).
    apply roundedS_scaled; lia.
  - replace (1 - 4 * d)%R with (IZR (8388608 - (K - L)) * pow2 (-23))%R.
    + apply roundedS_scaled; lia.
    + rewrite E, pow2_m25, pow2_m23, !minus_IZR. field.
Qed.

(** * The colour ramp, segment by segment *)

(** [(t - lo) / 0.25] and [1 - (t - lo) / 0.25] are exact for [t] in the
    quarter that starts at [lo], a multiple of 1/4. *)
Lemma segment_exact t lo :
  F32.finite t = true -> F32.finite lo = true ->
  (exists L : Z, F32.B2R lo = (IZR L * pow2 (-25))%R) ->
  (/ 4 <= F32.B2R t)%R -> (0 <= F32.B2R t - F32.B2R lo <= / 4)%R ->
  valued ((t - lo) / Lit.f0_25)%f32 (4 * (F32.B2R t - F32.B2R lo)) /\
  valued (Lit.f1_0 - (t - lo) / Lit.f0_25)%f32 (1 - 4 * (F32.B2R t - F32.B2R lo)).
Proof.
  intros Ft Fl HL Hq Hd.
  destruct (quarter_grid t Ft Hq) as [K EK].
  rewrite EK in Hd.
  destruct (grid_quarter_repr K (F32.B2R lo) Hd HL) as (R1 & R2 & R3).
  rewrite <- EK in R1, R2, R3, Hd.
  set (d := (F32.B2R t - F32.B2R lo)%R) in *.
  assert (P128 : (1 < pow2 128)%R).
  { rewrite <- pow2_0. apply pow2_lt. lia. }
  destruct (returns_repr_bound d (t - lo)%f32) as [F1 V1]; auto.
  { now apply sub_returns. }
  { apply Rabs_def1; lra. }
  destruct (returns_repr_bound (4 * d) ((t - lo) / Lit.f0_25)%f32) as [F2 V2]; auto.
  { replace (4 * d)%R with (F32.B2R (t - lo)%f32 / F32.B2R Lit.f0_25)%R
      by (rewrite V1, B2R_f0_25; field).
    apply div_returns; auto. rewrite B2R_f0_25. lra. }
  { apply Rabs_def1; lra. }
  destruct (returns_repr_bound (1 - 4 * d) (Lit.f1_0 - (t - lo) / Lit.f0_25)%f32)
    as [F3 V3]; auto.
  { replace (1 - 4 * d)%R
      with (F32.B2R Lit.f1_0 - F32.B2R ((t - lo) / Lit.f0_25)%f32)%R
      by (rewrite V2, B2R_f1_0; reflexivity).
    apply sub_returns; auto. }
  { apply Rabs_def1; lra. }
  split; split; assumption.
Qed.

Lemma quarter_multiple_25 : exists L : Z, F32.B2R Lit.f0_25 = (IZR L * pow2 (-25))%R.
Proof. exists 8388608. rewrite B2R_f0_25, pow2_m25. lra. Qed.

Lemma quarter_multiple_50 : exists L : Z, F32.B2R Lit.f0_50 = (IZR L * pow2 (-25))%R.
Proof. exists 16777216. rewrite B2R_f0_50, pow2_m25. lra. Qed.

Lemma quarter_multiple_75 : exists L : Z, F32.B2R Lit.f0_75 = (IZR L * pow2 (-25))%R.
Proof. exists 25165824. rewrite B2R_f0_75, pow2_m25. lra. Qed.

(** The ramp is linear on each of its four segments. *)
Lemma ramp_value t :
  unit_float t ->
  let '(r, g, b) := ramp t in
  ((t <? Lit.f0_25)%f32 = true /\
     r = Lit.f0_0 /\ valued g (4 * F32.B2R t) /\ b = Lit.f1_0) \/
  ((t <? Lit.f0_25)%f32 = false /\ (t <? Lit.f0_50)%f32 = true /\
     r = Lit.f0_0 /\ g = Lit.f1_0 /\ valued b (2 - 4 * F32.B2R t)) \/
  ((t <? Lit.f0_50)%f32 = false /\ (t <? Lit.f0_75)%f32 = true /\
     valued r (4 * F32.B2R t - 2) /\ g = Lit.f1_0 /\ b = Lit.f0_0) \/
  ((t <? Lit.f0_75)%f32 = false /\
     r = Lit.f1_0 /\ valued g (4 - 4 * F32.B2R t) /\ b = Lit.f0_0).
Proof.
  intros [Ft Ht]. unfold ramp.
  assert (F25 : F32.finite Lit.f0_25 = true) by reflexivity.
  assert (F50 : F32.finite Lit.f0_50 = true) by reflexivity.
  assert (F75 : F32.finite Lit.f0_75 = true) by reflexivity.
  assert (P128 : (1 < pow2 128)%R).
  { rewrite <- pow2_0. apply pow2_lt. lia. }
  destruct (t <? Lit.f0_25)%f32 eqn:H25.
  { left. split; [reflexivity|]. apply ltb_true in H25; auto. rewrite B2R_f0_25 in H25.
    split; [reflexivity|split; [|reflexivity]].
    apply (returns_repr_bound (4 * F32.B2R t) (t / Lit.f0_25)%f32).
    - replace (4 * F32.B2R t)%R with (F32.B2R t / F32.B2R Lit.f0_25)%R
        by (rewrite B2R_f0_25; field).
      apply div_returns; auto. rewrite B2R_f0_25. lra.
    - replace (4 * F32.B2R t)%R with (2 * (2 * F32.B2R t))%R by lra.
      apply roundedS_double, roundedS_double. now apply roundedS_B2R.
    - apply Rabs_def1; lra. }
  apply ltb_false in H25; auto. rewrite B2R_f0_25 in H25.
  destruct (t <? Lit.f0_50)%f32 eqn:H50.
  { right; left. split; [reflexivity|split; [reflexivity|]].
    apply ltb_true in H50; auto. rewrite B2R_f0_50 in H50.
    split; [reflexivity|split; [reflexivity|]].
    destruct (segment_exact t Lit.f0_25 Ft F25 quarter_multiple_25) as [_ V];
      rewrite ?B2R_f0_25; try lra.
    rewrite B2R_f0_25 in V.
    replace (2 - 4 * F32.B2R t)%R with (1 - 4 * (F32.B2R t - / 4))%R by lra.
    exact V. }
  apply ltb_false in H50; auto. rewrite B2R_f0_50 in H50.
  destruct (t <? Lit.f0_75)%f32 eqn:H75.
  { right; right; left. split; [reflexivity|split; [reflexivity|]].
    apply ltb_true in H75; auto. rewrite B2R_f0_75 in H75.
    split; [|split; reflexivity].
    destruct (segment_exact t Lit.f0_50 Ft F50 quarter_multiple_50) as [V _];
      rewrite ?B2R_f0_50; try lra.
    rewrite B2R_f0_50 in V.
    replace (4 * F32.B2R t - 2)%R with (4 * (F32.B2R t - / 2))%R by lra.
    exact V. }
  right; right; right. split; [reflexivity|].
  apply ltb_false in H75; auto. rewrite B2R_f0_75 in H75.
  split; [reflexivity|split; [|reflexivity]].
  destruct (segment_exact t Lit.f0_75 Ft F75 quarter_multiple_75) as [_ V];
    rewrite ?B2R_f0_75; try lra.
  rewrite B2R_f0_75 in V.
  replace (4 - 4 * F32.B2R t)%R with (1 - 4 * (F32.B2R t - 3 / 4))%R by lra.
  exact V.
Qed.

Lemma in_unit_unit_float c : in_unit c = true -> unit_float c.
Proof.
  unfold in_unit. intros H.
  apply andb_true_iff in H as [H H1]. apply andb_true_iff in H as [Fc H0].
  apply SFleb_correct in H0; [|reflexivity|exact Fc].
  apply SFleb_correct in H1; [|exact Fc|reflexivity].
  rewrite B2R_f0_0 in H0. rewrite B2R_f1_0 in H1. now split.
Qed.

Lemma valued_in_unit x v : valued x v -> (0 <= v <= 1)%R -> in_unit x = true.
Proof.
  intros [F V] Hv. apply unit_float_in_unit. split; [exact F|now rewrite V].
Qed.

(** C1, as the code has it.  The colour of every vertex is the ramp at its
    normalised height t = (z - zmin) / range, and on [0,1] the ramp is
    linear on four segments: (0, 4t, 1) below 0.25, (0, 1, 2 - 4t) below
    0.5, (4t - 2, 1, 0) below 0.75 and (1, 4 - 4t, 0) from 0.75 on, that is
    blue, cyan, green, yellow, red at 0, 0.25, 0.5, 0.75, 1.  When the
    sampled heights and the computed zmax - zmin are finite, t and every
    colour component lie between 0 and 1, a lowest vertex of height at most
    1e9 (the initial zmin) is coloured (0,0,1), and a highest vertex of
    height at least -1e9 (the initial zmax) is coloured (1,0,0) when
    zmax - zmin is not below 1e-6. *)
Theorem colours_follow_ramp sinf N radius zscale freq m :
  makeSombrero sinf N radius zscale freq = Some m ->
  let st := sample_pass sinf (clamp_resolution N) radius zscale freq in
  let range := height_range (p_zmin st) (p_zmax st) in
  let t v := normalised (p_zmin st) range (height_of m v) in
  (ramp Lit.f0_0 = (Lit.f0_0, Lit.f0_0, Lit.f1_0) /\
   ramp Lit.f0_25 = (Lit.f0_0, Lit.f1_0, Lit.f1_0) /\
   ramp Lit.f0_50 = (Lit.f0_0, Lit.f1_0, Lit.f0_0) /\
   ramp Lit.f0_75 = (Lit.f1_0, Lit.f1_0, Lit.f0_0) /\
   ramp Lit.f1_0 = (Lit.f1_0, Lit.f0_0, Lit.f0_0)) /\
  (forall x, in_unit x = true ->
     exists r g b, ramp x = (r, g, b) /\
       in_unit r = true /\ in_unit g = true /\ in_unit b = true /\
       ((x <? Lit.f0_25)%f32 = true ->
          r = Lit.f0_0 /\ F32.B2R g = (4 * F32.B2R x)%R /\ b = Lit.f1_0) /\
       ((x <? Lit.f0_25)%f32 = false -> (x <? Lit.f0_50)%f32 = true ->
          r = Lit.f0_0 /\ g = Lit.f1_0 /\ F32.B2R b = (2 - 4 * F32.B2R x)%R) /\
       ((x <? Lit.f0_50)%f32 = false -> (x <? Lit.f0_75)%f32 = true ->
          F32.B2R r = (4 * F32.B2R x - 2)%R /\ g = Lit.f1_0 /\ b = Lit.f0_0) /\
       ((x <? Lit.f0_75)%f32 = false ->
          r = Lit.f1_0 /\ F32.B2R g = (4 - 4 * F32.B2R x)%R /\ b = Lit.f0_0)) /\
  (forall v, 0 <= v < vertex_count m ->
     exists r g b, ramp (t v) = (r, g, b) /\ color_of m v = [r; g; b]) /\
  ((forall v, 0 <= v < vertex_count m -> F32.finite (height_of m v) = true) ->
   F32.finite (p_zmax st - p_zmin st)%f32 = true ->
   forall v, 0 <= v < vertex_count m ->
     in_unit (t v) = true /\
     (exists r g b, color_of m v = [r; g; b] /\
        in_unit r = true /\ in_unit g = true /\ in_unit b = true) /\
     (lowest m v -> (height_of m v <=? Lit.f1e9)%f32 = true ->
        exists g, color_of m v = [Lit.f0_0; g; Lit.f1_0] /\
                  (g =? Lit.f0_0)%f32 = true) /\
     (highest m v -> (- Lit.f1e9 <=? height_of m v)%f32 = true ->
        (p_zmax st - p_zmin st <? Lit.f1em6)%f32 = false ->
        color_of m v = [Lit.f1_0; Lit.f0_0; Lit.f0_0])).
Proof.
  intros Hm st range t.
  split; [repeat split|split; [|split]].
  - intros x Hx. apply in_unit_unit_float in Hx.
    pose proof (ramp_unit x Hx) as U. pose proof (ramp_value x Hx) as V.
    destruct Hx as [Fx [Hx0 Hx1]].
    destruct (ramp x) as [[r g] b]. destruct U as (Ur & Ug & Ub).
    exists r, g, b. split; [reflexivity|].
    split; [now apply unit_float_in_unit|].
    split; [now apply unit_float_in_unit|].
    split; [now apply unit_float_in_unit|].
    destruct V as [(C1 & V)|[(C1 & C2 & V)|[(C2 & C3 & V)|(C3 & V)]]].
    + split; [intros _; destruct V as (-> & [_ Vg] & ->); auto|].
      split; [intros C; congruence|].
      split; [intros C C'|intros C].
      * apply ltb_true in C1; auto.
        apply ltb_false in C; auto.
        rewrite B2R_f0_25 in C1. rewrite B2R_f0_50 in C. lra.
      * apply ltb_true in C1; auto.
        apply ltb_false in C; auto.
        rewrite B2R_f0_25 in C1. rewrite B2R_f0_75 in C. lra.
    + split; [intros C; congruence|].
      split; [intros _ _; destruct V as (-> & -> & [_ Vb]); auto|].
      split; [intros C; congruence|intros C].
      apply ltb_true in C2; auto.
      apply ltb_false in C; auto.
      rewrite B2R_f0_50 in C2. rewrite B2R_f0_75 in C. lra.
    + split; [intros C|].
      { apply ltb_true in C; auto.
        apply ltb_false in C2; auto.
        rewrite B2R_f0_25 in C. rewrite B2R_f0_50 in C2. lra. }
      split; [intros _ C; congruence|].
      split; [intros _ _; destruct V as ([_ Vr] & -> & ->); auto|].
      intros C; congruence.
    + split; [intros C|].
      { apply ltb_true in C; auto.
        apply ltb_false in C3; auto.
        rewrite B2R_f0_25 in C. rewrite B2R_f0_75 in C3. lra. }
      split; [intros _ C|].
      { apply ltb_true in C; auto.
        apply ltb_false in C3; auto.
        rewrite B2R_f0_50 in C. rewrite B2R_f0_75 in C3. lra. }
      split; [intros _ C; congruence|].
      intros _. destruct V as (-> & [_ Vg] & ->); auto.
  - intros v Hv. apply makeSombrero_Some in Hm as [_ ->].
    apply (mesh_color sinf _ radius zscale freq (clamp_resolution_ge N) v Hv).
  - intros Hfin Fw v Hv. apply makeSombrero_Some in Hm as [_ Em].
    pose proof (clamp_resolution_ge N) as HN. set (N' := clamp_resolution N) in *.
    subst m.
    destruct (zmin_tracked sinf N' radius zscale freq HN Hfin) as (Fmin & _).
    destruct (zmax_tracked sinf N' radius zscale freq HN Hfin) as (Fmax & _).
    fold st in Fmin, Fmax.
    pose proof (height_between sinf N' radius zscale freq HN Hfin v Hv) as Hb.
    fold st in Hb.
    destruct (colour_components sinf N' radius zscale freq HN Hfin v Fw Hv)
      as (r & g & b & Hc & Ur & Ug & Ub & Hlo & Hhi).
    split; [|split; [|split]].
    + apply unit_float_in_unit. unfold t, range. apply normalised_unit; auto.
    + exists r, g, b. split; [exact Hc|].
      split; [now apply unit_float_in_unit|].
      split; now apply unit_float_in_unit.
    + intros Hlow H9.
      destruct Hlo as (-> & Hg & ->).
      { now apply lowest_value. }
      exists g. now split.
    + intros Hhigh H9 Hr.
      destruct Hhi as (-> & -> & ->); auto.
      now apply highest_value.
Qed.

Lemma colours_follow_ramp_witness :
  exists r g b,
    ramp (normalised
            (p_zmin (sample_pass sin_poly (clamp_resolution 3) Lit.f1_0 Lit.f1_0 Lit.f1_0))
            (height_range
               (p_zmin (sample_pass sin_poly (clamp_resolution 3) Lit.f1_0 Lit.f1_0 Lit.f1_0))
               (p_zmax (sample_pass sin_poly (clamp_resolution 3) Lit.f1_0 Lit.f1_0 Lit.f1_0)))
            (height_of (mesh_of sin_poly 3 Lit.f1_0 Lit.f1_0 Lit.f1_0) 1))
    = (r, g, b) /\
    color_of (mesh_of sin_poly 3 Lit.f1_0 Lit.f1_0 Lit.f1_0) 1 = [r; g; b].
Proof.
  destruct (colours_follow_ramp sin_poly 3 Lit.f1_0 Lit.f1_0 Lit.f1_0
              (mesh_of sin_poly 3 Lit.f1_0 Lit.f1_0 Lit.f1_0)
              (makeSombrero_defined sin_poly 3 Lit.f1_0 Lit.f1_0 Lit.f1_0
                 ltac:(unfold max_resolution, clamp_resolution; simpl; lia)))
    as (_ & _ & H & _).
  apply (H 1). vm_compute. split; [discriminate|reflexivity].
Defined.

(** C1 as stated fails.  The ramp ends in red, not yellow: it gives
    (0.5,1,0) at 0.625, (1,1,0) at 0.75, (1,0.5,0) at 0.875 and (1,0,0) at 1,
    and in the mesh of resolution 3 built with the polynomial sine the
    centre vertex is a highest one and is coloured (1,0,0).  Each condition
    of the statement above is needed:
    - for the finite radius 2^127 the first vertex has a NaN height and a
      NaN green component, whatever libm's [sinf] returns;
    - for radius 4 and height scale 7*2^125 all heights are finite but
      zmax - zmin overflows, and the highest vertex gets a NaN component;
    - for height scale 3e9 all heights exceed 1e9, zmin keeps its initial
      value, and a lowest vertex is not blue;
    - for height scale -3e9 all heights are below -1e9, zmax keeps its
      initial value, and a highest vertex is not red;
    - for height scale 0 the range is below 1e-6 and the highest vertices
      are blue. *)
Lemma highest_vertex_is_red :
  (ramp (F32.of_ratio 5 8) = (Lit.f0_50, Lit.f1_0, Lit.f0_0) /\
   ramp Lit.f0_75 = (Lit.f1_0, Lit.f1_0, Lit.f0_0) /\
   ramp (F32.of_ratio 7 8) = (Lit.f1_0, Lit.f0_50, Lit.f0_0) /\
   ramp Lit.f1_0 = (Lit.f1_0, Lit.f0_0, Lit.f0_0)) /\
  (exists m, makeSombrero sin_poly 3 Lit.f1_0 Lit.f1_0 Lit.f1_0 = Some m /\
     highest m 4 /\ color_of m 4 = [Lit.f1_0; Lit.f0_0; Lit.f0_0] /\
     color_of m 4 <> [Lit.f1_0; Lit.f1_0; Lit.f0_0]) /\
  (in_unit F32.nan = false /\
   forall sinf : float -> float,
   exists m, makeSombrero sinf 3 Bound.p127 Lit.f1_0 Lit.f1_0 = Some m /\
     height_of m 0 = F32.nan /\
     color_of m 0 = [Lit.f1_0; F32.nan; Lit.f0_0]) /\
  (exists m, makeSombrero sin_horner 3 Sample.f4_0 Sample.f7p125 Lit.f1_0 = Some m /\
     let st := sample_pass sin_horner (clamp_resolution 3)
                 Sample.f4_0 Sample.f7p125 Lit.f1_0 in
     (forall v, 0 <= v < vertex_count m -> F32.finite (height_of m v) = true) /\
     F32.finite (p_zmax st - p_zmin st)%f32 = false /\
     highest m 4 /\ color_of m 4 = [Lit.f1_0; F32.nan; Lit.f0_0]) /\
  (exists m, makeSombrero sin_poly 3 Lit.f1_0 Sample.f3e9 Lit.f1_0 = Some m /\
     let st := sample_pass sin_poly (clamp_resolution 3) Lit.f1_0 Sample.f3e9 Lit.f1_0 in
     (forall v, 0 <= v < vertex_count m -> F32.finite (height_of m v) = true) /\
     F32.finite (p_zmax st - p_zmin st)%f32 = true /\
     lowest m 0 /\ (height_of m 0 <=? Lit.f1e9)%f32 = false /\
     nth 1 (color_of m 0) F32.nan = Lit.f1_0) /\
  (exists m, makeSombrero sin_poly 3 Lit.f1_0 Sample.fm3e9 Lit.f1_0 = Some m /\
     let st := sample_pass sin_poly (clamp_resolution 3) Lit.f1_0 Sample.fm3e9 Lit.f1_0 in
     (forall v, 0 <= v < vertex_count m -> F32.finite (height_of m v) = true) /\
     F32.finite (p_zmax st - p_zmin st)%f32 = true /\
     (p_zmax st - p_zmin st <? Lit.f1em6)%f32 = false /\
     highest m 0 /\ (- Lit.f1e9 <=? height_of m 0)%f32 = false /\
     nth 0 (color_of m 0) F32.nan = Lit.f0_0) /\
  (exists m, makeSombrero sin_poly 3 Lit.f1_0 Lit.f0_0 Lit.f1_0 = Some m /\
     let st := sample_pass sin_poly (clamp_resolution 3) Lit.f1_0 Lit.f0_0 Lit.f1_0 in
     (forall v, 0 <= v < vertex_count m -> F32.finite (height_of m v) = true) /\
     (p_zmax st - p_zmin st <? Lit.f1em6)%f32 = true /\
     highest m 4 /\ (- Lit.f1e9 <=? height_of m 4)%f32 = true /\
     color_of m 4 = [Lit.f0_0; Lit.f0_0; Lit.f1_0]).
Proof.
  split; [repeat split|].
  split.
  { exists (mesh_of sin_poly 3 Lit.f1_0 Lit.f1_0 Lit.f1_0).
    split; [|split; [|split]].
    - apply makeSombrero_defined. unfold max_resolution, clamp_resolution; simpl; lia.
    - unfold highest. apply forall_upto. vm_compute. reflexivity.
    - vm_compute. reflexivity.
    - vm_compute. discriminate. }
  split.
  { split; [reflexivity|].
    intros sinf. exists (mesh_of sinf 3 Bound.p127 Lit.f1_0 Lit.f1_0).
    assert (Hh : height_of (mesh_of sinf 3 Bound.p127 Lit.f1_0 Lit.f1_0) 0 = F32.nan).
    { change 0 with (0 * 3 + 0) at 1. rewrite mesh_height by lia.
      unfold vertex_height, sample_height.
      replace (grid_coord 3 Bound.p127 0) with F32.nan by reflexivity.
      replace (sample_radius F32.nan F32.nan) with F32.nan by reflexivity.
      now rewrite div_nan_r, mul_nan_r. }
    split; [|split; [exact Hh|]].
    - apply makeSombrero_defined. unfold max_resolution, clamp_resolution; simpl; lia.
    - destruct (mesh_color sinf 3 Bound.p127 Lit.f1_0 Lit.f1_0 ltac:(lia) 0)
        as (r & g & b & Hr & Hc).
      { rewrite mesh_vertex_count by lia. lia. }
      rewrite Hh in Hr. unfold normalised in Hr.
      rewrite sub_nan_l, div_nan_l in Hr. rewrite Hc. now inversion Hr. }
  split.
  { exists (mesh_of sin_horner 3 Sample.f4_0 Sample.f7p125 Lit.f1_0).
    split; [apply makeSombrero_defined; unfold max_resolution, clamp_resolution;
            simpl; lia|].
    cbv zeta. split; [apply forall_upto; vm_compute; reflexivity|].
    split; [vm_compute; reflexivity|].
    split; [unfold highest; apply forall_upto; vm_compute; reflexivity|].
    vm_compute. reflexivity. }
  split.
  { exists (mesh_of sin_poly 3 Lit.f1_0 Sample.f3e9 Lit.f1_0).
    split; [apply makeSombrero_defined; unfold max_resolution, clamp_resolution;
            simpl; lia|].
    cbv zeta. split; [apply forall_upto; vm_compute; reflexivity|].
    split; [vm_compute; reflexivity|].
    split; [unfold lowest; apply forall_upto; vm_compute; reflexivity|].
    split; vm_compute; reflexivity. }
  split.
  { exists (mesh_of sin_poly 3 Lit.f1_0 Sample.fm3e9 Lit.f1_0).
    split; [apply makeSombrero_defined; unfold max_resolution, clamp_resolution;
            simpl; lia|].
    cbv zeta. split; [apply forall_upto; vm_compute; reflexivity|].
    split; [vm_compute; reflexivity|].
    split; [vm_compute; reflexivity|].
    split; [unfold highest; apply forall_upto; vm_compute; reflexivity|].
    split; vm_compute; reflexivity. }
  exists (mesh_of sin_poly 3 Lit.f1_0 Lit.f0_0 Lit.f1_0).
  split; [apply makeSombrero_defined; unfold max_resolution, clamp_resolution;
          simpl; lia|].
  cbv zeta. split; [apply forall_upto; vm_compute; reflexivity|].
  split; [vm_compute; reflexivity|].
  split; [unfold highest; apply forall_upto; vm_compute; reflexivity|].
  split; vm_compute; reflexivity.
Qed.

(** * The half turn *)




Lemma Rabs_le_bounds x b : (Rabs x <= b -> - b <= x <= b)%R.
Proof. unfold Rabs. destruct (Rcase_abs x); lra. Qed.







(** * Square roots *)

Lemma sqrt_core_correct mx ex :
  let '(q, e', l) := SFsqrt_core_binary 24 128 (Zpos mx) ex in
  0 <= q /\
  inbetween (sqrt (IZR (Zpos mx) * pow2 ex) / pow2 e') q l /\
  e' <= fexp32 (Zdigits2 q + e').
Proof.
  unfold SFsqrt_core_binary. rewrite fexp_32. simpl Zdigits2.
  set (d := Zpos (digits2_pos mx)).
  set (e' := Z.min (fexp32 (Z.div2 (d + ex + 1))) (Z.div2 ex)).
  set (s := ex - 2 * e').
  assert (Hdiv2 : forall a, 2 * Z.div2 a <= a <= 2 * Z.div2 a + 1).
  { intros a. rewrite Z.div2_div. pose proof (Z.div_mod a 2 ltac:(lia)).
    pose proof (Z.mod_pos_bound a 2 ltac:(lia)). lia. }
  assert (Hs : 0 <= s) by (pose proof (Hdiv2 ex); unfold s, e'; lia).
  set (m' := match s with Zpos _ => Z.shiftl (Zpos mx) s | Z0 => Zpos mx | Zneg _ => 0 end).
  assert (Hm' : m' = Zpos mx * 2 ^ s).
  { unfold m'. destruct s as [|p|p]; try lia.
    now rewrite Z.shiftl_mul_pow2 by lia. }
  assert (H2s : 0 < 2 ^ s) by (apply Z.pow_pos_nonneg; lia).
  assert (Hm0 : 0 < m') by nia.
  pose proof (Z.sqrtrem_spec m' ltac:(lia)) as Hsq.
  destruct (Z.sqrtrem m') as [q r]. destruct Hsq as [Hqr Hr].
  assert (Hq : 0 <= q) by lia.
  assert (Hval : (sqrt (IZR (Zpos mx) * pow2 ex) / pow2 e' = sqrt (IZR m'))%R).
  { pose proof (pow2_pos e') as He'.
    replace ex with (s + (e' + e')) by (unfold s; lia).
    rewrite !pow2_add, (pow2_IZR s) by lia.
    replace (IZR (Zpos mx) * (IZR (2 ^ s) * (pow2 e' * pow2 e')))%R
      with (IZR m' * (pow2 e' * pow2 e'))%R by (rewrite Hm', mult_IZR; ring).
    rewrite sqrt_mult_alt by (apply IZR_le; lia).
    rewrite sqrt_square by lra. field. lra. }
  assert (Hsm : (sqrt (IZR m') * sqrt (IZR m') = IZR q * IZR q + IZR r)%R).
  { rewrite sqrt_sqrt by (apply IZR_le; lia). rewrite Hqr, plus_IZR, mult_IZR. ring. }
  assert (Hs0 : (0 <= sqrt (IZR m'))%R) by apply sqrt_pos.
  assert (Hq0 : (0 <= IZR q)%R) by (apply IZR_le; lia).
  split; [exact Hq|split].
  - rewrite Hval.
    destruct (Z.eqb_spec r 0) as [E|E].
    + simpl. rewrite E in Hsm. nra.
    + assert (Hr1 : (1 <= IZR r)%R) by (apply IZR_le; lia).
      destruct (Z.leb_spec r q) as [L|G]; simpl.
      * assert (Hrq : (IZR r <= IZR q)%R) by (apply IZR_le; lia). split; nra.
      * assert (Hrq : (IZR q + 1 <= IZR r)%R) by (rewrite <- plus_IZR; apply IZR_le; lia).
        assert (Hr2 : (IZR r <= 2 * IZR q)%R) by (rewrite <- mult_IZR; apply IZR_le; lia).
        split; nra.
  - unfold fexp32. destruct (Z_le_gt_dec e' (-149)) as [|Hn]; [lia|].
    assert (He' : 2 * e' <= d + ex + 1 - 48).
    { pose proof (Hdiv2 (d + ex + 1)). unfold e', fexp32 in *. lia. }
    pose proof (digits2_pos_bounds mx) as [Hmx _]. fold d in Hmx.
    assert (Hpow : 2 ^ 46 <= 2 ^ (d - 1) * 2 ^ s).
    { rewrite <- Z.pow_add_r by (unfold d; lia).
      apply Z.pow_le_mono_r; unfold s; lia. }
    assert (H23 : 2 ^ 23 <= q).
    { change (2 ^ 23) with 8388608. change (2 ^ 46) with (8388608 * 8388608) in Hpow.
      assert (8388608 * 8388608 <= m') by nia. nia. }
    apply Zdigits2_gt in H23; lia.
Qed.

Lemma sqrt_returns x :
  F32.finite x = true -> (0 <= F32.B2R x)%R ->
  returns (sqrt (F32.B2R x)) (SFsqrt 24 128 x).
Proof.
  intros Hx H0.
  destruct x as [s|s| |s m e]; try discriminate; simpl SFsqrt.
  - apply returns_zero. rewrite B2R_zero. apply sqrt_0.
  - simpl in Hx. pose proof (pow2_pos e).
    assert (Hm : (1 <= IZR (Zpos m))%R) by (apply IZR_le; lia).
    rewrite B2R_finite in *.
    destruct s; [unfold signed in H0; nra|]. unfold signed.
    pose proof (sqrt_core_correct m e) as Hcore.
    destruct (SFsqrt_core_binary 24 128 (Zpos m) e) as [[q e'] l].
    destruct Hcore as (Hq & Hin & Hpre).
    destruct (binary_round_aux_correct false q e' l _ Hq Hin Hpre) as (f & Hf & He).
    apply (encodes_returns false _ f); [apply sqrt_pos|exact Hf|exact He].
Qed.

Lemma roundedS_opp v f : roundedS v f -> roundedS (- v) (- f).
Proof.
  intros [[H R]|[H R]]; [right|left]; (split; [lra|]).
  - now rewrite !Ropp_involutive.
  - exact R.
Qed.

(** The result of an operation is bounded by the result of the same
    operation on a larger magnitude. *)
Lemma returns_bounded v r w b :
  returns v r -> returns w b -> F32.finite b = true -> (Rabs v <= w)%R ->
  F32.finite r = true /\ (Rabs (F32.B2R r) <= F32.B2R b)%R.
Proof.
  intros (f & Hf & Hfin & _) Hb Fb Hv.
  pose proof (returns_finite_value w b Hb Fb) as Hg.
  pose proof (roundedS_opp _ _ Hg) as Hg'.
  apply Rabs_le_bounds in Hv.
  assert (Hhi : (f <= F32.B2R b)%R) by (apply (roundedS_mono v w); auto; lra).
  assert (Hlo : (- F32.B2R b <= f)%R) by (apply (roundedS_mono (- w) v); auto; lra).
  assert (Hfa : (Rabs f < pow2 128)%R).
  { pose proof (Babs_lt_max b Fb). pose proof (Babs_nonneg b).
    unfold F32.B2R in Hlo, Hhi.
    apply Rabs_def1; destruct (F32.Bsign b); lra. }
  destruct (Hfin Hfa) as [H1 H2]. rewrite H2. split; [assumption|].
  apply Rabs_le. lra.
Qed.

Lemma double_finite_inv v r :
  returns v r -> F32.finite (r + r)%f32 = true -> F32.finite r = true.
Proof.
  intros (f & _ & Hfin & Hinf) H.
  destruct (Rlt_le_dec (Rabs f) (pow2 128)) as [Hlt|Hge]; [now apply Hfin|].
  rewrite (Hinf Hge) in H. destruct (F32.Bsign r); discriminate.
Qed.

Lemma returns_nonneg v r :
  returns v r -> F32.finite r = true -> (0 <= v)%R -> (0 <= F32.B2R r)%R.
Proof.
  intros Hr Fr Hv. pose proof (returns_finite_value v r Hr Fr) as H.
  apply (roundedS_mono 0 v 0 (F32.B2R r) Hv); [|exact H].
  apply (roundedS_int 0). lia.
Qed.

Lemma B2R_lt_max x : F32.finite x = true -> (Rabs (F32.B2R x) < pow2 128)%R.
Proof.
  intros Fx. pose proof (Babs_lt_max x Fx). pose proof (Babs_nonneg x).
  unfold F32.B2R.
  destruct (F32.Bsign x); [rewrite Rabs_Ropp|]; rewrite Rabs_pos_eq; lra.
Qed.

Lemma pow2_128_rounded : roundedS (pow2 128) (pow2 128).
Proof.
  replace (pow2 128) with (IZR 8388608 * pow2 105)%R.
  - left. split; [pose proof (pow2_pos 105); lra|]. apply rounded_scaled; lia.
  - rewrite <- pow2_23, <- pow2_add. reflexivity.
Qed.

Lemma square_finite_bound x :
  F32.finite x = true -> F32.finite (x * x)%f32 = true ->
  (Rabs (F32.B2R x) < pow2 64)%R.
Proof.
  intros Fx Fxx.
  destruct (Rlt_le_dec (Rabs (F32.B2R x)) (pow2 64)) as [|Hge]; [assumption|exfalso].
  pose proof (returns_finite_value _ _ (mul_returns x x Fx Fx) Fxx) as Hr.
  assert (H128 : (pow2 128 <= F32.B2R x * F32.B2R x)%R).
  { replace 128 with (64 + 64) by lia. rewrite pow2_add.
    pose proof (pow2_pos 64). unfold Rabs in Hge. destruct (Rcase_abs _); nra. }
  pose proof (roundedS_mono _ _ _ _ H128 pow2_128_rounded Hr) as Hle.
  pose proof (B2R_lt_max _ Fxx) as Hlt.
  apply Rabs_def2 in Hlt. change (x * x)%f32 with (SFmul 24 128 x x) in Hlt. lra.
Qed.

Lemma sqrt_finite x :
  F32.finite x = true -> (0 <= F32.B2R x)%R ->
  F32.finite (F32.sqrt x) = true /\ (0 <= F32.B2R (F32.sqrt x))%R.
Proof.
  intros Fx H0. pose proof (sqrt_returns x Fx H0) as Hr.
  assert (H : F32.finite (F32.sqrt x) = true /\
              (F32.B2R Lit.f0_0 <= F32.B2R (F32.sqrt x) <= F32.B2R Bound.p127)%R).
  { apply (returns_interval _ _ _ _ Hr); try reflexivity.
    rewrite B2R_f0_0, B2R_p127. split; [apply sqrt_pos|].
    pose proof (B2R_lt_max x Fx) as Hlt. apply Rabs_def2 in Hlt.
    pose proof (pow2_pos 64) as H64.
    assert (Hs : (sqrt (F32.B2R x) < pow2 64)%R).
    { rewrite <- (sqrt_square (pow2 64)) by lra. apply sqrt_lt_1_alt.
      rewrite <- pow2_add. simpl Z.add. lra. }
    pose proof (pow2_le 64 127 ltac:(lia)). lra. }
  rewrite B2R_f0_0 in H. destruct H as [F [H _]]. now split.
Qed.

(** * The radius guard over a grid *)

Ltac f32_ops :=
  change (SFmul 24 128) with F32.mul in *;
  change (SFadd 24 128) with F32.add in *;
  change (SFdiv 24 128) with F32.div in *;
  change (SFsqrt 24 128) with F32.sqrt in *.

Section Guarded.

Variable sinf : float -> float.
Variables (radius zscale freq : float).

Hypothesis Libm : forall x, F32.finite x = true ->
  F32.finite (sinf x) = true /\ (F32.abs (sinf x) <=? Lit.f1_0)%f32 = true.
Hypothesis Fr : F32.finite radius = true.
Hypothesis Frr : F32.finite (radius * radius + radius * radius)%f32 = true.
Hypothesis Ff : F32.finite freq = true.
Hypothesis Ffr : F32.finite (F32.abs freq * sample_radius radius radius)%f32 = true.
Hypothesis Fz : F32.finite zscale = true.
Hypothesis Fzz : F32.finite (F32.abs zscale * (Lit.f1_0 / Lit.f1em4))%f32 = true.

Lemma radius_square_finite : F32.finite (radius * radius)%f32 = true.
Proof. apply (double_finite_inv _ _ (mul_returns radius radius Fr Fr) Frr). Qed.

Lemma radius_below_2p127 : (Rabs (F32.B2R radius) < pow2 127)%R.
Proof.
  pose proof (square_finite_bound radius Fr radius_square_finite).
  pose proof (pow2_le 64 127 ltac:(lia)). lra.
Qed.

Lemma square_bounded x :
  F32.finite x = true -> (Rabs (F32.B2R x) <= Rabs (F32.B2R radius))%R ->
  F32.finite (x * x)%f32 = true /\
  (0 <= F32.B2R (x * x)%f32 <= F32.B2R (radius * radius)%f32)%R.
Proof.
  intros Fx Hx. pose proof radius_square_finite as Fq.
  pose proof (Rabs_pos (F32.B2R x)) as Hp.
  assert (Hsq : forall a : R, (a * a = Rabs a * Rabs a)%R).
  { intros a. unfold Rabs. destruct (Rcase_abs a); ring. }
  destruct (returns_bounded _ _ _ _ (mul_returns x x Fx Fx)
              (mul_returns radius radius Fr Fr) Fq) as [F B].
  { rewrite Rabs_pos_eq by nra. rewrite (Hsq (F32.B2R x)), (Hsq (F32.B2R radius)). nra. }
  f32_ops. split; [exact F|]. split.
  - apply (returns_nonneg _ _ (mul_returns x x Fx Fx) F). nra.
  - apply Rabs_le_bounds in B. lra.
Qed.

Lemma sum_bounded x y :
  F32.finite x = true -> (Rabs (F32.B2R x) <= Rabs (F32.B2R radius))%R ->
  F32.finite y = true -> (Rabs (F32.B2R y) <= Rabs (F32.B2R radius))%R ->
  F32.finite (x * x + y * y)%f32 = true /\
  (0 <= F32.B2R (x * x + y * y)%f32
     <= F32.B2R (radius * radius + radius * radius)%f32)%R.
Proof.
  intros Fx Hx Fy Hy.
  destruct (square_bounded x Fx Hx) as [Fxx [X0 X1]].
  destruct (square_bounded y Fy Hy) as [Fyy [Y0 Y1]].
  pose proof radius_square_finite as Fq.
  destruct (returns_bounded _ _ _ _ (add_returns _ _ Fxx Fyy)
              (add_returns _ _ Fq Fq) Frr) as [F B].
  { rewrite Rabs_pos_eq by lra. lra. }
  f32_ops. split; [exact F|]. split.
  - apply (returns_nonneg _ _ (add_returns _ _ Fxx Fyy) F). lra.
  - apply Rabs_le_bounds in B. lra.
Qed.

Lemma clamp_value q :
  F32.finite q = true ->
  let r := if (q <? Lit.f1em4)%f32 then Lit.f1em4 else q in
  F32.finite r = true /\
  ((F32.B2R q < F32.B2R Lit.f1em4)%R /\ r = Lit.f1em4 \/
   (F32.B2R Lit.f1em4 <= F32.B2R q)%R /\ r = q).
Proof.
  intros Fq. cbv zeta. destruct (q <? Lit.f1em4)%f32 eqn:E.
  - split; [reflexivity|left]. split; [|reflexivity].
    apply ltb_true; auto.
  - split; [exact Fq|right]. split; [|reflexivity].
    apply ltb_false; auto.
Qed.

Lemma radius_bounded x y :
  F32.finite x = true -> (Rabs (F32.B2R x) <= Rabs (F32.B2R radius))%R ->
  F32.finite y = true -> (Rabs (F32.B2R y) <= Rabs (F32.B2R radius))%R ->
  let r := sample_radius x y in
  F32.finite r = true /\
  (F32.B2R Lit.f1em4 <= F32.B2R r <= F32.B2R (sample_radius radius radius))%R.
Proof.
  intros Fx Hx Fy Hy.
  destruct (sum_bounded x y Fx Hx Fy Hy) as [Fs [S0 S1]].
  destruct (sum_bounded radius radius Fr (Rle_refl _) Fr (Rle_refl _)) as [_ [M0 _]].
  destruct (sqrt_finite _ Fs S0) as [Fq Q0].
  destruct (sqrt_finite _ Frr M0) as [Fm Q1].
  assert (Hq : (F32.B2R (F32.sqrt (x * x + y * y)%f32)
                <= F32.B2R (F32.sqrt (radius * radius + radius * radius)%f32))%R).
  { apply (returns_mono _ _ _ _ (sqrt_returns _ Fs S0) (sqrt_returns _ Frr M0)); auto.
    now apply sqrt_le_1_alt. }
  unfold sample_radius.
  destruct (clamp_value _ Fq) as [Fc [[C ->]|[C ->]]];
    destruct (clamp_value _ Fm) as [Fc' [[C' ->]|[C' ->]]];
    cbv zeta; (split; [first [assumption|reflexivity]|]); lra.
Qed.

Lemma radius_max_finite :
  F32.finite (sample_radius radius radius) = true /\
  (0 < F32.B2R (sample_radius radius radius))%R.
Proof.
  destruct (radius_bounded radius radius Fr (Rle_refl _) Fr (Rle_refl _)) as [F [H _]].
  split; [exact F|]. rewrite B2R_f1em4 in H. lra.
Qed.

Lemma height_guarded x y :
  F32.finite x = true -> (Rabs (F32.B2R x) <= Rabs (F32.B2R radius))%R ->
  F32.finite y = true -> (Rabs (F32.B2R y) <= Rabs (F32.B2R radius))%R ->
  let r := sample_radius x y in
  F32.finite (freq * r)%f32 = true /\
  F32.finite (sinf (freq * r) / r)%f32 = true /\
  F32.finite (sample_height sinf zscale freq x y) = true.
Proof.
  intros Fx Hx Fy Hy r.
  destruct (radius_bounded x y Fx Hx Fy Hy) as [Fr0 [R0 R1]]. fold r in Fr0, R0, R1.
  destruct radius_max_finite as [Fm Hm].
  rewrite B2R_f1em4 in R0.
  assert (Fa : F32.finite (F32.abs freq) = true) by now rewrite finite_abs.
  (* freq * r *)
  destruct (returns_bounded _ _ _ _ (mul_returns freq r Ff Fr0)
              (mul_returns _ _ Fa Fm) Ffr) as [Fp _].
  { rewrite Rabs_mult, B2R_abs, (Rabs_pos_eq (F32.B2R r)) by lra.
    apply Rmult_le_compat_l; [apply Rabs_pos|exact R1]. }
  f32_ops.
  (* sinf (freq * r) *)
  destruct (Libm _ Fp) as [Fs Hs].
  apply abs_leb_inv in Hs; [|assumption|reflexivity]. rewrite B2R_f1_0 in Hs.
  (* sinf (freq * r) / r *)
  assert (Fe : F32.finite Lit.f1em4 = true) by reflexivity.
  assert (F1 : F32.finite Lit.f1_0 = true) by reflexivity.
  assert (Fd : F32.finite (Lit.f1_0 / Lit.f1em4)%f32 = true) by reflexivity.
  assert (He : F32.B2R Lit.f1em4 <> 0%R) by (rewrite B2R_f1em4; lra).
  assert (Hr0 : F32.B2R r <> 0%R) by lra.
  destruct (returns_bounded _ _ _ _ (div_returns _ r Fs Fr0 Hr0)
              (div_returns _ _ F1 Fe He) Fd) as [Fq Hq].
  { rewrite B2R_f1_0, B2R_f1em4. unfold Rdiv. rewrite Rabs_mult.
    rewrite (Rabs_pos_eq (/ F32.B2R r)) by (left; apply Rinv_0_lt_compat; lra).
    assert (Hi : (/ F32.B2R r <= / (13743895 / 137438953472))%R)
      by (apply Rinv_le_contravar; lra).
    assert (Hi0 : (0 < / F32.B2R r)%R) by (apply Rinv_0_lt_compat; lra).
    assert (Ha : (Rabs (F32.B2R (sinf (freq * r)%f32)) <= 1)%R) by (apply Rabs_le; lra).
    pose proof (Rabs_pos (F32.B2R (sinf (freq * r)%f32))). nra. }
  f32_ops. split; [exact Fp|split; [exact Fq|]].
  (* zscale * ... *)
  assert (Fza : F32.finite (F32.abs zscale) = true) by now rewrite finite_abs.
  unfold sample_height. fold r.
  destruct (returns_bounded _ _ _ _ (mul_returns zscale _ Fz Fq)
              (mul_returns _ _ Fza Fd) Fzz) as [Fh _]; [|exact Fh].
  rewrite Rabs_mult, B2R_abs.
  apply Rmult_le_compat_l; [apply Rabs_pos|exact Hq].
Qed.

End Guarded.

(** The grid of a radius of either sign. *)
Lemma width_finite radius :
  F32.finite radius = true -> (Rabs (F32.B2R radius) < pow2 127)%R ->
  F32.finite (radius - (- radius))%f32 = true.
Proof.
  intros Fr H127.
  apply (returns_repr_bound (2 * F32.B2R radius)).
  - replace (2 * F32.B2R radius)%R with (F32.B2R radius - F32.B2R (- radius)%f32)%R
      by (rewrite B2R_neg; lra).
    apply sub_returns; [assumption|now rewrite finite_neg].
  - apply roundedS_double. now apply roundedS_B2R.
  - replace 128 with (127 + 1) by lia. rewrite pow2_succ.
    apply Rabs_def2 in H127. apply Rabs_def1; lra.
Qed.

Lemma grid_coord_abs N radius k :
  3 <= N <= max_resolution ->
  F32.finite radius = true -> F32.finite (radius - (- radius))%f32 = true ->
  0 <= k < N ->
  let x := grid_coord N radius k in
  F32.finite x = true /\
  (Rabs (F32.B2R x) <= Rabs (F32.B2R radius))%R /\
  (2 * k = N - 1 -> F32.B2R x = 0%R).
Proof.
  intros HN Fr Fw Hk x. unfold x, grid_coord.
  destruct (grid_fraction N HN k Hk) as ([Ft [Ht0 Ht1]] & _ & _ & Th).
  set (t := (F32.of_int k / F32.of_int (N - 1))%f32) in *.
  pose proof (width_value radius Fr Fw) as Vw.
  set (w := (radius - (- radius))%f32) in *.
  assert (Fn : F32.finite (- radius)%f32 = true) by now rewrite finite_neg.
  assert (Vn : F32.B2R (- radius)%f32 = (- F32.B2R radius)%R) by apply B2R_neg.
  assert (F0 : F32.finite Lit.f0_0 = true) by reflexivity.
  assert (Hhalf : 2 * k = N - 1 ->
            F32.B2R ((- radius) + t * w)%f32 = 0%R).
  { intros K. rewrite <- B2R_f0_0.
    assert (Vp : F32.finite (t * w)%f32 = true /\ F32.B2R (t * w)%f32 = F32.B2R radius).
    { apply (mul_exact _ _ radius); auto. rewrite (Th K), Vw. lra. }
    destruct Vp as [Fp Vp].
    apply (add_exact _ _ Lit.f0_0); auto. rewrite Vp, Vn, B2R_f0_0. lra. }
  destruct (Rle_lt_dec 0 (F32.B2R radius)) as [Hr|Hr].
  - assert (Hp : F32.finite (t * w)%f32 = true /\
                 (F32.B2R Lit.f0_0 <= F32.B2R (t * w)%f32 <= F32.B2R w)%R).
    { apply (mul_interval _ _ Lit.f0_0 w); auto. rewrite B2R_f0_0, Vw. nra. }
    destruct Hp as [Fp Hp]. rewrite B2R_f0_0, Vw in Hp.
    assert (Hx : F32.finite ((- radius) + t * w)%f32 = true /\
                 (F32.B2R (- radius)%f32 <= F32.B2R ((- radius) + t * w)%f32
                  <= F32.B2R radius)%R).
    { apply (add_interval _ _ (- radius)%f32 radius); auto. rewrite Vn. lra. }
    destruct Hx as [Fx Hx]. rewrite Vn in Hx.
    split; [exact Fx|split; [|exact Hhalf]].
    rewrite (Rabs_pos_eq (F32.B2R radius)) by lra. apply Rabs_le. lra.
  - assert (Hp : F32.finite (t * w)%f32 = true /\
                 (F32.B2R w <= F32.B2R (t * w)%f32 <= F32.B2R Lit.f0_0)%R).
    { apply (mul_interval _ _ w Lit.f0_0); auto. rewrite B2R_f0_0, Vw. nra. }
    destruct Hp as [Fp Hp]. rewrite B2R_f0_0, Vw in Hp.
    assert (Hx : F32.finite ((- radius) + t * w)%f32 = true /\
                 (F32.B2R radius <= F32.B2R ((- radius) + t * w)%f32
                  <= F32.B2R (- radius)%f32)%R).
    { apply (add_interval _ _ radius (- radius)%f32); auto. rewrite Vn. lra. }
    destruct Hx as [Fx Hx]. rewrite Vn in Hx.
    split; [exact Fx|split; [|exact Hhalf]].
    rewrite (Rabs_left (F32.B2R radius)) by lra. apply Rabs_le. lra.
Qed.

Lemma sin_unit_bounded x :
  F32.finite (sin_unit x) = true /\ (F32.abs (sin_unit x) <=? Lit.f1_0)%f32 = true.
Proof.
  unfold sin_unit. cbv zeta.
  destruct (F32.finite (sin_poly x) && (F32.abs (sin_poly x) <=? Lit.f1_0)%f32) eqn:E.
  - now apply andb_true_iff in E.
  - split; reflexivity.
Qed.

Lemma is_nan_inv x : F32.is_nan x = true -> x = F32.nan.
Proof. destruct x; try discriminate. reflexivity. Qed.

(** C5, as the code has it.  For all x and y the divisor is never below
    1e-4 and never zero, and it is at least 1e-4 unless it is a NaN.  When
    the call returns a mesh, libm's [sinf] maps every finite argument to a
    finite value of magnitude at most 1, and the parameters are finite and
    such that the three extreme intermediate values do not overflow
    (radius*radius + radius*radius, |freq| times the divisor of the corner
    sample, |zscale| times 1/1e-4), then for every grid sample
    the divisor is finite, at least 1e-4 and at most the divisor of the
    corner, the argument of [sinf] is finite, and the sampled z is
    zscale * (sinf(freq*r)/r) and finite; a sample at the origin, such as
    the centre of an odd grid, has the divisor 1e-4 exactly. *)
Theorem radius_guard sinf N radius zscale freq m :
  makeSombrero sinf N radius zscale freq = Some m ->
  (forall x, F32.finite x = true ->
     F32.finite (sinf x) = true /\ (F32.abs (sinf x) <=? Lit.f1_0)%f32 = true) ->
  F32.finite radius = true ->
  F32.finite (radius * radius + radius * radius)%f32 = true ->
  F32.finite freq = true ->
  F32.finite (F32.abs freq * sample_radius radius radius)%f32 = true ->
  F32.finite zscale = true ->
  F32.finite (F32.abs zscale * (Lit.f1_0 / Lit.f1em4))%f32 = true ->
  (forall x y, let r := sample_radius x y in
     (r <? Lit.f1em4)%f32 = false /\
     (forall s, r <> S754_zero s) /\
     (F32.is_nan r = false -> (Lit.f1em4 <=? r)%f32 = true)) /\
  let N' := clamp_resolution N in
  forall j i, 0 <= j < N' -> 0 <= i < N' ->
    let x := grid_coord N' radius i in
    let y := grid_coord N' radius j in
    let r := sample_radius x y in
    F32.finite r = true /\
    (Lit.f1em4 <=? r)%f32 = true /\
    (r <=? sample_radius radius radius)%f32 = true /\
    ((x =? F32.zero)%f32 = true -> (y =? F32.zero)%f32 = true -> r = Lit.f1em4) /\
    (2 * i = N' - 1 -> 2 * j = N' - 1 -> r = Lit.f1em4) /\
    F32.finite (freq * r)%f32 = true /\
    height_of m (j * N' + i) = (zscale * (sinf (freq * r) / r))%f32 /\
    F32.finite (height_of m (j * N' + i)) = true.
Proof.
  intros Hm Libm Fr Frr Ff Ffr Fz Fzz.
  split; [intros x y; apply sample_radius_guard|].
  intros N' j i Hj Hi x y r.
  apply makeSombrero_Some in Hm as [Hle ->]. fold N'.
  assert (HN : 3 <= N' <= max_resolution) by (split; [apply clamp_resolution_ge|exact Hle]).
  pose proof (width_finite radius Fr (radius_below_2p127 radius Fr Frr)) as Fw.
  destruct (grid_coord_abs N' radius i HN Fr Fw Hi) as (Fx & Ax & Xh).
  destruct (grid_coord_abs N' radius j HN Fr Fw Hj) as (Fy & Ay & Yh).
  fold x in Fx, Ax, Xh. fold y in Fy, Ay, Yh.
  destruct (radius_bounded radius Fr Frr x y Fx Ax Fy Ay) as [Fr0 [R0 R1]].
  fold r in Fr0, R0, R1.
  destruct (radius_max_finite radius Fr Frr) as [Fm _].
  destruct (height_guarded sinf radius zscale freq Libm Fr Frr Ff Ffr Fz Fzz
              x y Fx Ax Fy Ay) as (Fp & _ & Fh).
  fold r in Fp.
  assert (Hh : height_of (mesh_of sinf N' radius zscale freq) (j * N' + i)
               = (zscale * (sinf (freq * r) / r))%f32).
  { unfold height_of. rewrite mesh_of_position by assumption. reflexivity. }
  split; [exact Fr0|].
  split; [apply leb_intro; auto|].
  split; [apply leb_intro; auto|].
  split.
  { intros Ex Ey. apply eqb_zero_inv in Ex as [s Ex]. apply eqb_zero_inv in Ey as [s' Ey].
    unfold r. rewrite Ex, Ey. apply sample_radius_origin. }
  split.
  { intros Ei Ej.
    destruct (B2R_zero_inv _ Fx (Xh Ei)) as [s Ex].
    destruct (B2R_zero_inv _ Fy (Yh Ej)) as [s' Ey].
    unfold r. rewrite Ex, Ey. apply sample_radius_origin. }
  split; [exact Fp|].
  split; [exact Hh|].
  rewrite Hh. exact Fh.
Qed.

Lemma radius_guard_witness :
  let r := sample_radius (grid_coord 128 Lit.f6_0 7) (grid_coord 128 Lit.f6_0 5) in
  (Lit.f1em4 <=? r)%f32 = true /\
  F32.finite (height_of (mesh_of sin_unit 128 Lit.f6_0 Lit.f1_0 Lit.f1_0) (5 * 128 + 7))
  = true.
Proof.
  destruct (radius_guard sin_unit 128 Lit.f6_0 Lit.f1_0 Lit.f1_0
              (mesh_of sin_unit 128 Lit.f6_0 Lit.f1_0 Lit.f1_0)) as [_ H].
  - apply makeSombrero_defined. unfold max_resolution, clamp_resolution; simpl; lia.
  - intros x _. apply sin_unit_bounded.
  - reflexivity.
  - reflexivity.
  - reflexivity.
  - reflexivity.
  - reflexivity.
  - reflexivity.
  - destruct (H 5 7) as (_ & H1 & _ & _ & _ & _ & _ & H2).
    + unfold clamp_resolution; simpl; lia.
    + unfold clamp_resolution; simpl; lia.
    + split; [exact H1|exact H2].
Defined.

(** C5 as stated fails, and each condition above is needed.
    - For the finite radius 2^127 (height scale 1, frequency 1) the first
      sample has a NaN divisor and a NaN height, whatever libm's [sinf]
      returns.
    - For the radius 2^64 the sum radius*radius + radius*radius overflows,
      the divisor of the first sample is +infinity, and its height is NaN
      when [sinf] returns NaN at infinity, as C requires.
    - For the radius 4 and the frequency 2^127 the divisor is finite but
      the argument of [sinf] overflows, with the same result.
    - For the height scale 2^115 and a [sinf] that returns 1, the centre
      sample of the 3x3 grid has the height +infinity; so it has with the
      polynomial sine for the height scale 2^127 and the frequency 4.
    - With a [sinf] that returns NaN every height is NaN, and with one that
      returns 2 the centre height is +infinity for the height scale 2^114,
      although |zscale| * (1/1e-4) is finite. *)
Lemma height_nan_at_radius_2p127 :
  (F32.finite Bound.p127 = true /\
   grid_coord 3 Bound.p127 0 = F32.nan /\
   sample_radius F32.nan F32.nan = F32.nan /\
   (Lit.f1em4 <=? F32.nan)%f32 = false /\
   forall sinf : float -> float,
   exists m, makeSombrero sinf 3 Bound.p127 Lit.f1_0 Lit.f1_0 = Some m /\
     height_of m 0 = F32.nan) /\
  (F32.finite Sample.p64 = true /\
   F32.finite (Sample.p64 * Sample.p64 + Sample.p64 * Sample.p64)%f32 = false /\
   sample_radius (grid_coord 3 Sample.p64 0) (grid_coord 3 Sample.p64 0)
   = S754_infinity false /\
   forall sinf : float -> float,
   F32.is_nan (sinf (S754_infinity false)) = true ->
   exists m, makeSombrero sinf 3 Sample.p64 Lit.f1_0 Lit.f1_0 = Some m /\
     height_of m 0 = F32.nan) /\
  (F32.finite (Sample.f4_0 * Sample.f4_0 + Sample.f4_0 * Sample.f4_0)%f32 = true /\
   F32.finite (sample_radius (grid_coord 3 Sample.f4_0 0) (grid_coord 3 Sample.f4_0 0))
   = true /\
   F32.finite Bound.p127 = true /\
   F32.finite (F32.abs Bound.p127 * sample_radius Sample.f4_0 Sample.f4_0)%f32 = false /\
   forall sinf : float -> float,
   F32.is_nan (sinf (S754_infinity false)) = true ->
   exists m, makeSombrero sinf 3 Sample.f4_0 Lit.f1_0 Bound.p127 = Some m /\
     height_of m 0 = F32.nan) /\
  (F32.finite Sample.p115 = true /\
   F32.finite (F32.abs Sample.p115 * (Lit.f1_0 / Lit.f1em4))%f32 = false /\
   (exists m, makeSombrero (fun _ => F32.one) 3 Lit.f1_0 Sample.p115 Lit.f1_0 = Some m /\
      height_of m 4 = S754_infinity false) /\
   (exists m, makeSombrero sin_poly 3 Lit.f1_0 Bound.p127 Sample.f4_0 = Some m /\
      height_of m 4 = S754_infinity false)) /\
  (forall N radius zscale freq m,
     makeSombrero (fun _ => F32.nan) N radius zscale freq = Some m ->
     forall v, 0 <= v < vertex_count m -> height_of m v = F32.nan) /\
  (F32.finite (F32.abs Bound.p114 * (Lit.f1_0 / Lit.f1em4))%f32 = true /\
   exists m, makeSombrero (fun _ => Lit.f2_0) 3 Lit.f1_0 Bound.p114 Lit.f1_0 = Some m /\
     height_of m 4 = S754_infinity false).
Proof.
  assert (D : forall sinf radius zscale freq,
            makeSombrero sinf 3 radius zscale freq
            = Some (mesh_of sinf 3 radius zscale freq)).
  { intros. apply makeSombrero_defined.
    unfold max_resolution, clamp_resolution; simpl; lia. }
  assert (H0 : forall sinf radius zscale freq,
            height_of (mesh_of sinf 3 radius zscale freq) 0
            = sample_height sinf zscale freq (grid_coord 3 radius 0) (grid_coord 3 radius 0)).
  { intros. unfold height_of. change 0 with (0 * 3 + 0) at 1.
    rewrite mesh_of_position by lia. reflexivity. }
  split.
  { split; [reflexivity|split; [reflexivity|split; [reflexivity|split; [reflexivity|]]]].
    intros sinf. exists (mesh_of sinf 3 Bound.p127 Lit.f1_0 Lit.f1_0).
    split; [apply D|]. rewrite H0. unfold sample_height.
    replace (grid_coord 3 Bound.p127 0) with F32.nan by reflexivity.
    replace (sample_radius F32.nan F32.nan) with F32.nan by reflexivity.
    now rewrite div_nan_r. }
  split.
  { split; [reflexivity|split; [reflexivity|split; [reflexivity|]]].
    intros sinf Hn. exists (mesh_of sinf 3 Sample.p64 Lit.f1_0 Lit.f1_0).
    split; [apply D|]. rewrite H0. unfold sample_height.
    replace (sample_radius (grid_coord 3 Sample.p64 0) (grid_coord 3 Sample.p64 0))
      with (S754_infinity false) by reflexivity.
    replace (Lit.f1_0 * S754_infinity false)%f32 with (S754_infinity false) by reflexivity.
    rewrite (is_nan_inv _ Hn). reflexivity. }
  split.
  { split; [reflexivity|split; [reflexivity|split; [reflexivity|split; [reflexivity|]]]].
    intros sinf Hn. exists (mesh_of sinf 3 Sample.f4_0 Lit.f1_0 Bound.p127).
    split; [apply D|]. rewrite H0. unfold sample_height.
    replace (Bound.p127 * sample_radius (grid_coord 3 Sample.f4_0 0)
                                        (grid_coord 3 Sample.f4_0 0))%f32
      with (S754_infinity false) by reflexivity.
    rewrite (is_nan_inv _ Hn). reflexivity. }
  split.
  { split; [reflexivity|split; [reflexivity|split]].
    - exists (mesh_of (fun _ => F32.one) 3 Lit.f1_0 Sample.p115 Lit.f1_0).
      split; [apply D|]. vm_compute. reflexivity.
    - exists (mesh_of sin_poly 3 Lit.f1_0 Bound.p127 Sample.f4_0).
      split; [apply D|]. vm_compute. reflexivity. }
  split.
  { intros N radius zscale freq m Hm v Hv.
    apply makeSombrero_Some in Hm as [Hle ->].
    pose proof (clamp_resolution_ge N) as H3.
    rewrite (mesh_vertex_count _ _ _ _ _ H3) in Hv.
    rewrite (mesh_height_split _ _ _ _ _ H3 v Hv).
    unfold vertex_height, sample_height.
    now rewrite div_nan_l, mul_nan_r. }
  split; [reflexivity|].
  exists (mesh_of (fun _ => Lit.f2_0) 3 Lit.f1_0 Bound.p114 Lit.f1_0).
  split; [apply D|]. vm_compute. reflexivity.
Qed.
